(** * LatZero server: a shallow embedding of the orchestration core

    The development follows the JavaScript sources of the server:
    the memory manager ([MemoryBlock], [MemoryManager]), the pool manager,
    the app registry and the trigger router.  JavaScript objects become
    records, [Map]s become finite maps or insertion-ordered association
    lists (where the code iterates over them), exceptions become the
    [Throw] outcome of a computation that still returns the state reached
    when the exception was raised, and [Date.now()] is an explicit
    argument. *)

From Stdlib Require Import ZArith Lia Bool.
From Stdlib.Strings Require Import Byte.
From stdpp Require Import base option list strings gmap.

Local Open Scope Z_scope.

(** ** Outcomes of a JavaScript call *)

(** A call either returns a value or throws [new Error(message)]. *)
Inductive outcome (A : Type) : Type :=
  | Return (a : A)
  | Throw (message : string).
Arguments Return {A} a.
Arguments Throw {A} message.

Definition is_Return {A} (o : outcome A) : bool :=
  match o with Return _ => true | Throw _ => false end.

(** [x || d] on a possibly missing number: [undefined], [null] and [0]
    are falsy. *)
Definition num_or (x : option Z) (d : Z) : Z :=
  match x with
  | Some v => if v =? 0 then d else v
  | None => d
  end.

#[global] Instance byte_eq_dec : EqDecision Byte.byte := Byte.byte_eq_dec.

(** [Array.prototype.includes] on an array of strings. *)
Definition includes (l : list string) (s : string) : bool :=
  bool_decide (s ∈ l).


(** ** Stateful calls that may throw

    A method of a component is a function from the component's state to
    the state it leaves behind and its outcome.  A [Throw] keeps the
    mutations made before the exception, as in JavaScript. *)
Definition M (S A : Type) : Type := S -> S * outcome A.

Definition ret {S A} (a : A) : M S A := fun s => (s, Return a).
Definition throw {S A} (message : string) : M S A :=
  fun s => (s, Throw message).
Definition bind {S A B} (c : M S A) (k : A -> M S B) : M S B :=
  fun s =>
    match c s with
    | (s', Return a) => k a s'
    | (s', Throw e) => (s', Throw e)
    end.
Definition get {S} : M S S := fun s => (s, Return s).
Definition gets {S A} (f : S -> A) : M S A := fun s => (s, Return (f s)).
Definition modify {S} (f : S -> S) : M S unit := fun s => (f s, Return tt).
(** [try { c } catch (error) { h error.message }] *)
Definition try_catch {S A} (c : M S A) (h : string -> M S A) : M S A :=
  fun s =>
    match c s with
    | (s', Return a) => (s', Return a)
    | (s', Throw e) => h e s'
    end.
(** [if (cond) throw new Error(message)] *)
Definition throw_if {S} (cond : bool) (message : string) : M S unit :=
  if cond then throw message else ret tt.
(** [for (const x of l) { body x }] *)
Fixpoint for_each {S A} (l : list A) (body : A -> M S unit) : M S unit :=
  match l with
  | [] => ret tt
  | x :: l' => bind (body x) (fun _ => for_each l' body)
  end.

Declare Scope js_scope.
Delimit Scope js_scope with js.
Notation "x <- c ;; k" := (bind c (fun x => k))
  (at level 62, c at next level, right associativity) : js_scope.
Notation "c ;;; k" := (bind c (fun _ => k))
  (at level 62, right associativity) : js_scope.
Local Open Scope js_scope.

(** * Memory manager *)

Module Memory.

(** [BlockPermissions] *)
Inductive BlockPermissions := READ | WRITE | EXECUTE.

(** A block's permission map: permission name -> list of AppIDs; a key
    may be missing. *)
Record PermissionMap := {
  perm_read : option (list string);
  perm_write : option (list string);
  perm_execute : option (list string)
}.

Definition perm_get (p : PermissionMap) (op : BlockPermissions)
  : option (list string) :=
  match op with
  | READ => perm_read p
  | WRITE => perm_write p
  | EXECUTE => perm_execute p
  end.

(** [_getDefaultPermissions] *)
Definition _getDefaultPermissions : PermissionMap :=
  {| perm_read := Some ["*"%string];
     perm_write := Some ["*"%string];
     perm_execute := Some [] |}.

(** The block configuration object ([blockConfig] of
    [createMemoryBlock]); it is also the block's metadata. *)
Record BlockConfig := {
  id : string;
  pool : string;
  size : Z;
  permissions : option PermissionMap;
  version : Z;
  created : Z;
  updated : Z;
  persistent : bool
}.

(** What a write announces to subscribers and listeners:
    [{ offset, length: data.length }]. *)
Record WriteEvent := { ev_offset : Z; ev_length : Z }.

(** [class MemoryBlock]: [buffer] is [null] before initialisation and
    after cleanup. *)
Record MemoryBlock := {
  config : BlockConfig;
  buffer : option (list Byte.byte);
  usesMmap : bool;
  lastAccessed : Z;
  emitted : list WriteEvent
}.

Definition set_lastAccessed (now : Z) (b : MemoryBlock) : MemoryBlock :=
  {| config := config b; buffer := buffer b; usesMmap := usesMmap b;
     lastAccessed := now; emitted := emitted b |}.

Definition set_buffer (buf : list Byte.byte) (b : MemoryBlock) : MemoryBlock :=
  {| config := config b; buffer := Some buf; usesMmap := usesMmap b;
     lastAccessed := lastAccessed b; emitted := emitted b |}.

(** [this.config.version++; this.config.updated = Date.now()] *)
Definition bump_version (now : Z) (c : BlockConfig) : BlockConfig :=
  {| id := id c; pool := pool c; size := size c;
     permissions := permissions c; version := version c + 1;
     created := created c; updated := now; persistent := persistent c |}.

Definition set_config (c : BlockConfig) (b : MemoryBlock) : MemoryBlock :=
  {| config := c; buffer := buffer b; usesMmap := usesMmap b;
     lastAccessed := lastAccessed b; emitted := emitted b |}.

Definition push_event (e : WriteEvent) (b : MemoryBlock) : MemoryBlock :=
  {| config := config b; buffer := buffer b; usesMmap := usesMmap b;
     lastAccessed := lastAccessed b; emitted := emitted b ++ [e] |}.

Definition blen (buf : list Byte.byte) : Z := Z.of_nat (length buf).

(** [Buffer.prototype.slice(start, end)]: negative indices count from the
    end, both are clamped to the buffer, an empty range gives an empty
    buffer. *)
Definition clamp_index (len i : Z) : Z :=
  if i <? 0 then Z.max 0 (len + i) else Z.min i len.

Definition slice (buf : list Byte.byte) (start stop : Z) : list Byte.byte :=
  let s := clamp_index (blen buf) start in
  let e := clamp_index (blen buf) stop in
  if e <=? s then [] else take (Z.to_nat (e - s)) (drop (Z.to_nat s) buf).

(** [data.copy(target, targetStart)] for [0 <= targetStart]: the bytes of
    [data] that fit replace those of [target] from [targetStart] on. *)
Definition copy_into (data target : list Byte.byte) (targetStart : Z)
  : list Byte.byte :=
  let n := Z.to_nat targetStart in
  let room := (length target - n)%nat in
  let d := take room data in
  take n target ++ d ++ drop (n + length d) target.

(** [_checkAccess(permission)]: true exactly when the wildcard is listed. *)
Definition _checkAccess (permission : BlockPermissions) (b : MemoryBlock)
  : bool :=
  match permissions (config b) with
  | Some p => includes (default [] (perm_get p permission)) "*"
  | None => false
  end.

(** [async read(offset = 0, length = null)].  The value of [_checkAccess]
    is computed and not used. *)
Definition read (now : Z) (offset : option Z) (length : option Z)
    (b : MemoryBlock) : MemoryBlock * outcome (list Byte.byte) :=
  let offset := default 0 offset in
  let _ := _checkAccess READ b in
  let b := set_lastAccessed now b in
  match buffer b with
  | None => (b, Throw "Memory block not initialized")
  | Some buf =>
      let readLength := num_or length (blen buf - offset) in
      if offset + readLength >? blen buf
      then (b, Throw "Read beyond buffer bounds")
      else (b, Return (slice buf offset (offset + readLength)))
  end.

(** [async write(offset, data)].  [fs_ok] says whether [fs.writeFile]
    resolves when the block is not memory mapped; [data.copy] with a
    negative target offset raises a [RangeError]. *)
Definition write (now : Z) (fs_ok : bool) (offset : Z) (data : list Byte.byte)
    (b : MemoryBlock) : MemoryBlock * outcome bool :=
  let _ := _checkAccess WRITE b in
  let b := set_lastAccessed now b in
  match buffer b with
  | None => (b, Throw "Memory block not initialized")
  | Some buf =>
      if offset + blen data >? blen buf
      then (b, Throw "Write beyond buffer bounds")
      else if offset <? 0
      then (b, Throw "The value of targetStart is out of range")
      else
        let b := set_buffer (copy_into data buf offset) b in
        if negb (usesMmap b) && negb fs_ok
        then (b, Throw "writeFile failed")
        else
          let b := set_config (bump_version now (config b)) b in
          let b := push_event {| ev_offset := offset;
                                 ev_length := blen data |} b in
          (b, Return true)
  end.

(** ** [class MemoryManager] *)

Record ManagerStats := {
  activeBlocks : Z;
  totalReads : Z;
  totalWrites : Z
}.

(** [blocks] is the registry of instantiated blocks.  In the source
    [blockMetadata.get(id)] and [blocks.get(id).config] are one and the
    same object whenever the block is instantiated, so the metadata of an
    instantiated block is read through the block; [loadedMetadata] holds
    the entries that [_loadBlockMetadata] put into [blockMetadata] for
    blocks not instantiated yet. *)
Record Manager := {
  blocks : gmap string MemoryBlock;
  loadedMetadata : gmap string BlockConfig;
  attachments : gmap string (list string);
  stats : ManagerStats
}.

Definition set_blocks (f : gmap string MemoryBlock -> gmap string MemoryBlock)
    (m : Manager) : Manager :=
  {| blocks := f (blocks m); loadedMetadata := loadedMetadata m;
     attachments := attachments m; stats := stats m |}.

Definition set_stats (f : ManagerStats -> ManagerStats) (m : Manager)
  : Manager :=
  {| blocks := blocks m; loadedMetadata := loadedMetadata m;
     attachments := attachments m; stats := f (stats m) |}.

Definition inc_activeBlocks (s : ManagerStats) : ManagerStats :=
  {| activeBlocks := activeBlocks s + 1; totalReads := totalReads s;
     totalWrites := totalWrites s |}.
Definition inc_totalReads (s : ManagerStats) : ManagerStats :=
  {| activeBlocks := activeBlocks s; totalReads := totalReads s + 1;
     totalWrites := totalWrites s |}.
Definition inc_totalWrites (s : ManagerStats) : ManagerStats :=
  {| activeBlocks := activeBlocks s; totalReads := totalReads s;
     totalWrites := totalWrites s + 1 |}.

(** The result object of [compareAndSwap]: [{ success, current }] or
    [{ success, previous }]. *)
Record CasResult := { success : bool; bytes : list Byte.byte }.

(** The operations of [handleMemoryMessage] that touch a block's bytes. *)
Inductive MemoryOperation :=
  | OpRead (offset length : option Z)
  | OpWrite (offset : Z) (data : list Byte.byte).

Section Manager.

(** The persistence layer's [getMemoryBlock], absent when the manager is
    built without persistence ([persistence = null]). *)
Variable persistence : option (string -> option BlockConfig).

(** What [MemoryBlock.initialize] leaves in [buffer] and [usesMmap] for a
    configuration: the mapped or allocated region, or the contents of an
    existing backing file on the fallback path. *)
Variable initialize : BlockConfig -> list Byte.byte * bool.

Variable now : Z.

(** [new MemoryBlock(metadata, this)] followed by [initialize()] *)
Definition new_block (metadata : BlockConfig) : MemoryBlock :=
  {| config := metadata; buffer := Some (fst (initialize metadata));
     usesMmap := snd (initialize metadata); lastAccessed := now;
     emitted := [] |}.

(** [async attachMemoryBlock(block_id, mode)] *)
Definition attachMemoryBlock (block_id : string) : M Manager MemoryBlock :=
  throw_if (bool_decide (block_id = ""%string)) "block_id is required" ;;;
  m <- get ;;
  match blocks m !! block_id with
  | Some block => ret block
  | None =>
      match persistence with
      | Some getMemoryBlock =>
          match getMemoryBlock block_id with
          | Some metadata =>
              let block := new_block metadata in
              modify (set_blocks (insert block_id block)) ;;;
              modify (fun m =>
                {| blocks := blocks m;
                   loadedMetadata := delete block_id (loadedMetadata m);
                   attachments := <[block_id := []]> (attachments m);
                   stats := inc_activeBlocks (stats m) |}) ;;;
              ret block
          | None => throw "Memory block not found"
          end
      | None => throw "Memory block not found"
      end
  end.

(** Run code on the block object an attach returned; the object is
    shared with the registry under [block_id], so its mutations are seen
    there. *)
Definition on_block {A} (block_id : string) (block : MemoryBlock)
    (method : M MemoryBlock A) : M Manager A :=
  fun m =>
    let '(block', o) := method block in
    (set_blocks (insert block_id block') m, o).

(** [async readMemoryBlock(block_id, offset = 0, length = null)] *)
Definition readMemoryBlock (block_id : string) (offset length : option Z)
  : M Manager (list Byte.byte) :=
  block <- attachMemoryBlock block_id ;;
  modify (set_stats inc_totalReads) ;;;
  on_block block_id block (read now offset length).

(** [async writeMemoryBlock(block_id, offset, data)] *)
Definition writeMemoryBlock (fs_ok : bool) (block_id : string) (offset : Z)
    (data : list Byte.byte) : M Manager bool :=
  block <- attachMemoryBlock block_id ;;
  modify (set_stats inc_totalWrites) ;;;
  on_block block_id block (write now fs_ok offset data).

(** [Buffer.prototype.equals] *)
Definition equals (a b : list Byte.byte) : bool := bool_decide (a = b).

(** The body of [compareAndSwap] once the block is attached. *)
Definition swap_if_equal (fs_ok : bool) (offset : Z)
    (expected new_value : list Byte.byte) : M MemoryBlock CasResult :=
  currentData <- read now (Some offset) (Some (blen expected)) ;;
  if negb (equals currentData expected)
  then ret {| success := false; bytes := currentData |}
  else
    write now fs_ok offset new_value ;;;
    ret {| success := true; bytes := expected |}.

(** [async compareAndSwap(block_id, offset, expected, new_value)] *)
Definition compareAndSwap (fs_ok : bool) (block_id : string) (offset : Z)
    (expected new_value : list Byte.byte) : M Manager CasResult :=
  block <- attachMemoryBlock block_id ;;
  on_block block_id block (swap_if_equal fs_ok offset expected new_value).

(** [async getMemoryBlock(block_id)] *)
Definition getMemoryBlock (block_id : string)
  : M Manager (option BlockConfig) :=
  throw_if (bool_decide (block_id = ""%string)) "block_id is required" ;;;
  m <- get ;;
  match blocks m !! block_id with
  | Some block => ret (Some (config block))
  | None =>
      match loadedMetadata m !! block_id with
      | Some metadata => ret (Some metadata)
      | None =>
          match persistence with
          | Some getMemoryBlock => ret (getMemoryBlock block_id)
          | None => ret None
          end
      end
  end.

(** [async getBlockPermissions(block_id)] *)
Definition getBlockPermissions (block_id : string)
  : M Manager (option PermissionMap) :=
  metadata <- getMemoryBlock block_id ;;
  ret (metadata ≫= permissions).

(** [async checkPermission(block_id, app_id, operation)] *)
Definition checkPermission (block_id app_id : string)
    (operation : BlockPermissions) : M Manager bool :=
  perms <- getBlockPermissions block_id ;;
  match perms with
  | None => ret false
  | Some p =>
      let allowedApps := default [] (perm_get p operation) in
      ret (includes allowedApps "*" || includes allowedApps app_id)
  end.

(** [async validateAccess(block_id, app_id, mode)] *)
Definition validateAccess (block_id app_id : string)
    (requiredPermission : BlockPermissions) : M Manager bool :=
  hasPermission <- checkPermission block_id app_id requiredPermission ;;
  if negb hasPermission then throw "Access denied" else ret true.

(** [async handleMemoryMessage(message, app_id)], cases ['read'] and
    ['write']; the [catch] logs and rethrows. *)
Definition handleMemoryMessage (fs_ok : bool) (block_id : string)
    (operation : MemoryOperation) (app_id : string)
  : M Manager (list Byte.byte + bool) :=
  match operation with
  | OpRead offset length =>
      validateAccess block_id app_id READ ;;;
      r <- readMemoryBlock block_id offset length ;;
      ret (inl r)
  | OpWrite offset data =>
      validateAccess block_id app_id WRITE ;;;
      r <- writeMemoryBlock fs_ok block_id offset data ;;
      ret (inr r)
  end.

End Manager.

End Memory.


(** ** Fixtures: the block of the compare-and-swap scenario *)

Module MemoryFixtures.
Import Memory.

(** A block [m] of 16 bytes holding "hello", readable and writable by
    ["owner"] only. *)
Definition owner_only : PermissionMap :=
  {| perm_read := Some ["owner"%string];
     perm_write := Some ["owner"%string];
     perm_execute := Some [] |}.

Definition zeros (n : nat) : list Byte.byte := replicate n Byte.x00.

Definition hello : list Byte.byte := String.list_byte_of_string "hello".
Definition world : list Byte.byte := String.list_byte_of_string "world".

Definition block_m (p : PermissionMap) (content : list Byte.byte)
  : MemoryBlock :=
  {| config := {| id := "m"; pool := "default"; size := 16;
                  permissions := Some p; version := 1; created := 0;
                  updated := 0; persistent := false |};
     buffer := Some content; usesMmap := false; lastAccessed := 0;
     emitted := [] |}.

Definition manager_m (p : PermissionMap) (content : list Byte.byte)
  : Manager :=
  {| blocks := {[ "m"%string := block_m p content ]};
     loadedMetadata := ∅; attachments := {[ "m"%string := [] ]};
     stats := {| activeBlocks := 1; totalReads := 0; totalWrites := 0 |} |}.

(** Apply a list of writes [(offset, data, fs_ok)] to a block, counting
    those that return. *)
Fixpoint write_all (now : Z) (ws : list (Z * list Byte.byte * bool))
    (b : MemoryBlock) : MemoryBlock * Z :=
  match ws with
  | [] => (b, 0)
  | (offset, data, fs_ok) :: ws' =>
      let '(b', o) := write now fs_ok offset data b in
      let '(b'', n) := write_all now ws' b' in
      (b'', if is_Return o then n + 1 else n)
  end.

(** The block [b] with another permission map. *)
Definition with_permissions (p : option PermissionMap) (b : MemoryBlock)
  : MemoryBlock :=
  set_config
    {| id := id (config b); pool := pool (config b);
       size := size (config b); permissions := p;
       version := version (config b); created := created (config b);
       updated := updated (config b);
       persistent := persistent (config b) |} b.

End MemoryFixtures.

(** * Protocol messages *)

Module Protocol.

Definition MAX_APP_ID_LENGTH : Z := 128.
Definition MAX_POOL_NAME_LENGTH : Z := 64.
Definition MAX_TRIGGER_NAME_LENGTH : Z := 128.
Definition MAX_MESSAGE_SIZE : Z := 16 * 1024 * 1024.

(** [s.length] *)
Definition strlen (s : string) : Z := Z.of_nat (String.length s).

(** [x || d] on a possibly missing string: [undefined] and [''] are
    falsy. *)
Definition str_or (x : option string) (d : string) : string :=
  match x with
  | Some v => if bool_decide (v = ""%string) then d else v
  | None => d
  end.

(** The truthy value of a possibly missing string. *)
Definition truthy (x : option string) : option string :=
  match x with
  | Some v => if bool_decide (v = ""%string) then None else Some v
  | None => None
  end.

(** A [handshake] message.  [hs_size] is the length of its JSON text. *)
Record HandshakeMessage := {
  hs_id : option string;
  hs_app_id : string;
  hs_pools : option (list string);
  hs_triggers : option (list string);
  hs_metadata : option (gmap string string);
  hs_size : Z
}.

(** A [trigger] message; [payload] is opaque. *)
Record TriggerMessage := {
  tm_id : option string;
  tm_trigger : option string;
  tm_process : option string;
  tm_pool : option string;
  tm_destination : option string;
  tm_origin : option string;
  tm_ttl : option Z;
  tm_payload : string
}.

(** [message.origin = appId] *)
Definition set_origin (appId : string) (m : TriggerMessage)
  : TriggerMessage :=
  {| tm_id := tm_id m; tm_trigger := tm_trigger m;
     tm_process := tm_process m; tm_pool := tm_pool m;
     tm_destination := tm_destination m; tm_origin := Some appId;
     tm_ttl := tm_ttl m; tm_payload := tm_payload m |}.

(** A [response] message. *)
Record ResponseMessage := {
  rm_id : option string;
  rm_in_reply_to : option string;
  rm_correlation_id : option string;
  rm_status : string;
  rm_result : string;
  rm_error : option string
}.

(** An [error] message, as received or as built by [createError]. *)
Record ErrorMessage := {
  em_correlation_id : option string;
  em_in_reply_to : option string;
  em_error : string;
  em_error_code : string
}.

(** The [assigned] object of a [handshake_ack]. *)
Record Assigned := {
  as_app_id : string;
  as_pools : list string;
  as_triggers : list string;
  as_rehydrated : bool
}.

(** The messages the server handles and sends.  The [id] (a random
    UUID), [timestamp] and [protocol_version] that [_createMessage] adds
    to outgoing messages are left out. *)
Inductive Message :=
  | Handshake (m : HandshakeMessage)
  | HandshakeAck (correlation_id : option string) (assigned : Assigned)
  | Trigger (m : TriggerMessage)
  | Response (m : ResponseMessage)
  | Error (m : ErrorMessage).

(** [message.id] of the original message of a reply. *)
Definition message_id (m : Message) : option string :=
  match m with
  | Handshake h => hs_id h
  | Trigger t => tm_id t
  | Response r => rm_id r
  | HandshakeAck _ _ | Error _ => None
  end.

(** [createHandshakeAck(originalMessage, assignedData)] *)
Definition createHandshakeAck (originalMessage : HandshakeMessage)
    (assignedData : Assigned) : Message :=
  HandshakeAck (hs_id originalMessage) assignedData.

(** [createError(originalMessage, error, errorCode)] *)
Definition createError (originalMessage : Message) (error : string)
    (errorCode : string) : Message :=
  Error {| em_correlation_id := message_id originalMessage;
           em_in_reply_to := None;
           em_error := error; em_error_code := errorCode |}.

(** [createTimeoutError(originalMessage)] *)
Definition createTimeoutError (originalMessage : Message) : Message :=
  createError originalMessage "Request timeout" "TIMEOUT".

(** [createNotFoundError(originalMessage, resource)] *)
Definition createNotFoundError (originalMessage : Message)
    (resource : string) : Message :=
  createError originalMessage ("Resource '" +:+ resource +:+ "' not found")
    "NOT_FOUND".

(** [validateMessage(message)] for a handshake: the size limit and the
    schema's [validate]. *)
Definition validateHandshake (msg : HandshakeMessage) : outcome unit :=
  if hs_size msg >? MAX_MESSAGE_SIZE
  then Throw "Message size exceeds maximum"
  else if bool_decide (hs_app_id msg = ""%string)
          || (strlen (hs_app_id msg) >? MAX_APP_ID_LENGTH)
  then Throw "Invalid app_id: must be a string with max length 128"
  else if negb (forallb (fun p => strlen p <=? MAX_POOL_NAME_LENGTH)
                  (default [] (hs_pools msg)))
  then Throw "Invalid pool name: must be a string with max length 64"
  else if negb (forallb (fun t => strlen t <=? MAX_TRIGGER_NAME_LENGTH)
                  (default [] (hs_triggers msg)))
  then Throw "Invalid trigger name: must be a string with max length 128"
  else Return tt.

End Protocol.

(** * Server state *)

Module State.
Import Protocol.

(** ** Transport: connection objects

    A [Connection] is shared by reference between the transport, the app
    registration and the trigger records; the references are connection
    ids into one table of connection objects.  [conn_writable] says
    whether serialising and [socket.write] go through; [conn_sent] is
    what was written to the socket. *)
Record Connection := {
  conn_isActive : bool;
  conn_writable : bool;
  conn_sent : list Message
}.

(** ** Persistence rows *)

Record AppRow := {
  row_pools : list string;
  row_triggers : list string;
  row_meta : gmap string string;
  row_protocolVersion : option string;
  row_registered : option Z
}.

(** ** Pools *)

(** A policy map: permission -> list of AppIDs. *)
Record Policies := {
  pol_read : option (list string);
  pol_write : option (list string);
  pol_execute : option (list string);
  pol_admin : option (list string)
}.

(** [AccessPolicies] *)
Inductive AccessPolicies := READ | WRITE | EXECUTE | ADMIN.

Definition policy_get (p : Policies) (perm : AccessPolicies)
  : option (list string) :=
  match perm with
  | READ => pol_read p
  | WRITE => pol_write p
  | EXECUTE => pol_execute p
  | ADMIN => pol_admin p
  end.

(** What [_prepareEncryptedPool] adds to a configuration. *)
Inductive SecurityInfo :=
  | SecurityConfig (keyDerivation encryptionAlgorithm : string)
  | SecurityWarning.

(** [poolConfig] *)
Record PoolConfig := {
  pc_name : string;
  pc_type : string;
  pc_encrypted : bool;
  pc_owners : list string;
  pc_policies : option Policies;
  pc_description : string;
  pc_created : Z;
  pc_updated : Z;
  pc_autoCreate : bool;
  pc_maxMemoryBlocks : Z;
  pc_maxTriggers : Z;
  pc_security : option SecurityInfo
}.

(** The [properties] and [metadata] arguments of [createPool]: any key of
    the configuration may be given, and is then spread over it. *)
Record PoolProperties := {
  pp_name : option string;
  pp_type : option string;
  pp_encrypted : option bool;
  pp_owners : option (list string);
  pp_policies : option Policies;
  pp_description : option string;
  pp_created : option Z;
  pp_updated : option Z;
  pp_autoCreate : option bool;
  pp_maxMemoryBlocks : option Z;
  pp_maxTriggers : option Z
}.

(** [class Pool]: the configuration and the member map. *)
Record Pool := {
  pool_config : PoolConfig;
  pool_members : list string
}.

(** The security module as the pool manager uses it:
    [prepareEncryptedPool] returns a security configuration or throws,
    [checkPoolAccess] answers for an app, a pool and a permission. *)
Record Security := {
  prepareEncryptedPool :
    string -> PoolConfig -> outcome (option string * option string);
  checkPoolAccess : string -> string -> AccessPolicies -> bool
}.

(** ** App registry *)

(** [class AppRegistration] *)
Record AppRegistration := {
  reg_appId : string;
  reg_connection : option Z;
  reg_pools : list string;
  reg_triggers : list string;
  reg_meta : gmap string string;
  reg_protocolVersion : option string;
  reg_registered : Z;
  reg_rehydrated : bool;
  reg_originalRegistration : option Z
}.

(** An entry of the rehydration cache. *)
Record CacheEntry := {
  ce_pools : list string;
  ce_triggers : list string;
  ce_meta : gmap string string;
  ce_lastRegistered : option Z
}.

(** ** Trigger router *)

(** [class TriggerRecord].  The constructor sets neither [originAppId]
    nor [origin]; reading them gives [undefined] unless
    [updateTriggerRecord] assigned them. *)
Record TriggerRecord := {
  tr_id : option string;
  tr_originalMessage : TriggerMessage;
  tr_originConnection : option Z;
  tr_pool : option string;
  tr_handlers : list string;
  tr_created : Z;
  tr_ttl : Z;
  tr_dispatched : option Z;
  tr_dispatchedTo : option string;
  tr_timeoutId : bool;
  tr_completed : bool;
  tr_originAppId : option string;
  tr_origin : option string
}.

(** [this.stats] of the router; the floating-point
    [averageResponseTime] is left out. *)
Record RouterStats := {
  totalTriggers : Z;
  successfulTriggers : Z;
  failedTriggers : Z;
  timeoutTriggers : Z;
  shortCircuitedCalls : Z
}.

(** ** The server *)

(** The durable store: rows of registered apps and of pools. *)
Record Persistence := {
  app_rows : gmap string AppRow;
  pool_rows : gmap string PoolConfig
}.

(** [class PoolManager]; sets are kept as duplicate-free lists in
    insertion order. *)
Record PoolManager := {
  security : option Security;
  pools : gmap string Pool;
  poolMetadata : gmap string PoolConfig;
  appPoolMembership : gmap string (list string);
  poolMembership : gmap string (list string)
}.

(** [class AppRegistry] *)
Record AppRegistry := {
  apps : gmap string AppRegistration;
  connections : gmap Z string;
  triggerMappings : gmap string (list string);
  rehydrationCache : gmap string CacheEntry;
  lastSeenApps : gmap string Z
}.

(** [class TriggerRouter]; [triggerRecords] is kept in insertion order,
    as the code iterates over it.  [detachedTimers] are the pending
    timers of [_setTriggerTimeout] whose record object was no longer in
    [triggerRecords] when the timer was armed: each holds the record its
    callback closes over.  The pending timer of a record in the table is
    the entry's [timeoutId]. *)
Record TriggerRouter := {
  triggerRecords : list (string * TriggerRecord);
  stats : RouterStats;
  defaultTTL : Z;
  maxConcurrentTriggers : Z;
  roundRobinCounters : gmap string Z;
  detachedTimers : list TriggerRecord
}.

(** The components wired together, and the connection objects. *)
Record World := {
  conns : gmap Z Connection;
  persistence : Persistence;
  poolManager : PoolManager;
  appRegistry : AppRegistry;
  triggerRouter : TriggerRouter
}.

(** Field updates. *)
Definition set_app_rows f (r : Persistence) : Persistence :=
  {| app_rows := f (app_rows r); pool_rows := pool_rows r |}.
Definition set_pool_rows f (r : Persistence) : Persistence :=
  {| app_rows := app_rows r; pool_rows := f (pool_rows r) |}.
Definition set_security f (r : PoolManager) : PoolManager :=
  {| security := f (security r); pools := pools r;
     poolMetadata := poolMetadata r;
     appPoolMembership := appPoolMembership r;
     poolMembership := poolMembership r |}.
Definition set_pools f (r : PoolManager) : PoolManager :=
  {| security := security r; pools := f (pools r);
     poolMetadata := poolMetadata r;
     appPoolMembership := appPoolMembership r;
     poolMembership := poolMembership r |}.
Definition set_poolMetadata f (r : PoolManager) : PoolManager :=
  {| security := security r; pools := pools r;
     poolMetadata := f (poolMetadata r);
     appPoolMembership := appPoolMembership r;
     poolMembership := poolMembership r |}.
Definition set_appPoolMembership f (r : PoolManager) : PoolManager :=
  {| security := security r; pools := pools r;
     poolMetadata := poolMetadata r;
     appPoolMembership := f (appPoolMembership r);
     poolMembership := poolMembership r |}.
Definition set_poolMembership f (r : PoolManager) : PoolManager :=
  {| security := security r; pools := pools r;
     poolMetadata := poolMetadata r;
     appPoolMembership := appPoolMembership r;
     poolMembership := f (poolMembership r) |}.
Definition set_apps f (r : AppRegistry) : AppRegistry :=
  {| apps := f (apps r); connections := connections r;
     triggerMappings := triggerMappings r;
     rehydrationCache := rehydrationCache r;
     lastSeenApps := lastSeenApps r |}.
Definition set_connections f (r : AppRegistry) : AppRegistry :=
  {| apps := apps r; connections := f (connections r);
     triggerMappings := triggerMappings r;
     rehydrationCache := rehydrationCache r;
     lastSeenApps := lastSeenApps r |}.
Definition set_triggerMappings f (r : AppRegistry) : AppRegistry :=
  {| apps := apps r; connections := connections r;
     triggerMappings := f (triggerMappings r);
     rehydrationCache := rehydrationCache r;
     lastSeenApps := lastSeenApps r |}.
Definition set_rehydrationCache f (r : AppRegistry) : AppRegistry :=
  {| apps := apps r; connections := connections r;
     triggerMappings := triggerMappings r;
     rehydrationCache := f (rehydrationCache r);
     lastSeenApps := lastSeenApps r |}.
Definition set_lastSeenApps f (r : AppRegistry) : AppRegistry :=
  {| apps := apps r; connections := connections r;
     triggerMappings := triggerMappings r;
     rehydrationCache := rehydrationCache r;
     lastSeenApps := f (lastSeenApps r) |}.
Definition set_triggerRecords f (r : TriggerRouter) : TriggerRouter :=
  {| triggerRecords := f (triggerRecords r); stats := stats r;
     defaultTTL := defaultTTL r;
     maxConcurrentTriggers := maxConcurrentTriggers r;
     roundRobinCounters := roundRobinCounters r;
     detachedTimers := detachedTimers r |}.
Definition set_stats f (r : TriggerRouter) : TriggerRouter :=
  {| triggerRecords := triggerRecords r; stats := f (stats r);
     defaultTTL := defaultTTL r;
     maxConcurrentTriggers := maxConcurrentTriggers r;
     roundRobinCounters := roundRobinCounters r;
     detachedTimers := detachedTimers r |}.
Definition set_defaultTTL f (r : TriggerRouter) : TriggerRouter :=
  {| triggerRecords := triggerRecords r; stats := stats r;
     defaultTTL := f (defaultTTL r);
     maxConcurrentTriggers := maxConcurrentTriggers r;
     roundRobinCounters := roundRobinCounters r;
     detachedTimers := detachedTimers r |}.
Definition set_maxConcurrentTriggers f (r : TriggerRouter) : TriggerRouter :=
  {| triggerRecords := triggerRecords r; stats := stats r;
     defaultTTL := defaultTTL r;
     maxConcurrentTriggers := f (maxConcurrentTriggers r);
     roundRobinCounters := roundRobinCounters r;
     detachedTimers := detachedTimers r |}.
Definition set_roundRobinCounters f (r : TriggerRouter) : TriggerRouter :=
  {| triggerRecords := triggerRecords r; stats := stats r;
     defaultTTL := defaultTTL r;
     maxConcurrentTriggers := maxConcurrentTriggers r;
     roundRobinCounters := f (roundRobinCounters r);
     detachedTimers := detachedTimers r |}.
Definition set_detachedTimers f (r : TriggerRouter) : TriggerRouter :=
  {| triggerRecords := triggerRecords r; stats := stats r;
     defaultTTL := defaultTTL r;
     maxConcurrentTriggers := maxConcurrentTriggers r;
     roundRobinCounters := roundRobinCounters r;
     detachedTimers := f (detachedTimers r) |}.
Definition set_conns f (r : World) : World :=
  {| conns := f (conns r); persistence := persistence r;
     poolManager := poolManager r; appRegistry := appRegistry r;
     triggerRouter := triggerRouter r |}.
Definition set_persistence f (r : World) : World :=
  {| conns := conns r; persistence := f (persistence r);
     poolManager := poolManager r; appRegistry := appRegistry r;
     triggerRouter := triggerRouter r |}.
Definition set_poolManager f (r : World) : World :=
  {| conns := conns r; persistence := persistence r;
     poolManager := f (poolManager r); appRegistry := appRegistry r;
     triggerRouter := triggerRouter r |}.
Definition set_appRegistry f (r : World) : World :=
  {| conns := conns r; persistence := persistence r;
     poolManager := poolManager r; appRegistry := f (appRegistry r);
     triggerRouter := triggerRouter r |}.
Definition set_triggerRouter f (r : World) : World :=
  {| conns := conns r; persistence := persistence r;
     poolManager := poolManager r; appRegistry := appRegistry r;
     triggerRouter := f (triggerRouter r) |}.
Definition set_totalTriggers f (r : RouterStats) : RouterStats :=
  {| totalTriggers := f (totalTriggers r);
     successfulTriggers := successfulTriggers r;
     failedTriggers := failedTriggers r;
     timeoutTriggers := timeoutTriggers r;
     shortCircuitedCalls := shortCircuitedCalls r |}.
Definition set_successfulTriggers f (r : RouterStats) : RouterStats :=
  {| totalTriggers := totalTriggers r;
     successfulTriggers := f (successfulTriggers r);
     failedTriggers := failedTriggers r;
     timeoutTriggers := timeoutTriggers r;
     shortCircuitedCalls := shortCircuitedCalls r |}.
Definition set_failedTriggers f (r : RouterStats) : RouterStats :=
  {| totalTriggers := totalTriggers r;
     successfulTriggers := successfulTriggers r;
     failedTriggers := f (failedTriggers r);
     timeoutTriggers := timeoutTriggers r;
     shortCircuitedCalls := shortCircuitedCalls r |}.
Definition set_timeoutTriggers f (r : RouterStats) : RouterStats :=
  {| totalTriggers := totalTriggers r;
     successfulTriggers := successfulTriggers r;
     failedTriggers := failedTriggers r;
     timeoutTriggers := f (timeoutTriggers r);
     shortCircuitedCalls := shortCircuitedCalls r |}.
Definition set_shortCircuitedCalls f (r : RouterStats) : RouterStats :=
  {| totalTriggers := totalTriggers r;
     successfulTriggers := successfulTriggers r;
     failedTriggers := failedTriggers r;
     timeoutTriggers := timeoutTriggers r;
     shortCircuitedCalls := f (shortCircuitedCalls r) |}.

(** Add to and delete from a [Set] of strings. *)
Definition set_add (x : string) (l : list string) : list string :=
  if includes l x then l else l ++ [x].
Definition set_delete (x : string) (l : list string) : list string :=
  filter (fun y => y <> x) l.

End State.

(** * Transport *)

Module Transport.
Import Protocol State.

Definition push_sent (message : Message) (c : Connection) : Connection :=
  {| conn_isActive := conn_isActive c; conn_writable := conn_writable c;
     conn_sent := conn_sent c ++ [message] |}.

(** [connection.isActive]; a reference to no connection object is not
    active. *)
Definition isActive (c : Z) (w : World) : bool :=
  match conns w !! c with
  | Some conn => conn_isActive conn
  | None => false
  end.

(** [Connection.send(message)]: [false] when the connection is not
    active or the write throws, [true] once the frame is written. *)
Definition send (c : Z) (message : Message) : M World bool :=
  fun w =>
    match conns w !! c with
    | Some conn =>
        if conn_isActive conn && conn_writable conn
        then (set_conns (insert c (push_sent message conn)) w, Return true)
        else (w, Return false)
    | None => (w, Return false)
    end.

(** [Connection._handleClose()] *)
Definition _handleClose (c : Z) (w : World) : World :=
  set_conns (alter (fun conn =>
    {| conn_isActive := false; conn_writable := conn_writable conn;
       conn_sent := conn_sent conn |}) c) w.

End Transport.

(** * Persistence *)

Module PersistenceLayer.
Import Protocol State.

(** Modelled from the spec: the persistence layer ([persistence.js] is
    not among the sources).  Section 4.1 describes it as a typed
    key/value store with create, read, update and delete by primary key
    for apps and pools; [registerApp] and [createPool] write the row
    under its key, [getApp] and [getPool] read it back or give [null]. *)
Definition registerApp (app_id : string) (triggers pools : list string)
    (metadata : gmap string string) (protocolVersion : option string)
    (now : Z) : M World unit :=
  modify (set_persistence (set_app_rows (insert app_id
    {| row_pools := pools; row_triggers := triggers; row_meta := metadata;
       row_protocolVersion := protocolVersion;
       row_registered := Some now |}))).

Definition getApp (app_id : string) : M World (option AppRow) :=
  gets (fun w => app_rows (persistence w) !! app_id).

Definition removeApp (app_id : string) : M World unit :=
  modify (set_persistence (set_app_rows (delete app_id))).

Definition createPool (name : string) (poolConfig : PoolConfig)
  : M World unit :=
  modify (set_persistence (set_pool_rows (insert name poolConfig))).

Definition getPool (name : string) : M World (option PoolConfig) :=
  gets (fun w => pool_rows (persistence w) !! name).

End PersistenceLayer.

(** * Pool manager *)

Module Pools.
Import Protocol State.

(** [PoolTypes] *)
Definition LOCAL : string := "local".
Definition GLOBAL : string := "global".
Definition ENCRYPTED : string := "encrypted".
Definition validPoolTypes : list string := [LOCAL; GLOBAL; ENCRYPTED].

(** [validatePoolType(type)] *)
Definition validatePoolType (type : string) : bool :=
  includes validPoolTypes type.

(** [_getDefaultPolicies()] *)
Definition _getDefaultPolicies : Policies :=
  {| pol_read := Some ["*"%string]; pol_write := Some ["*"%string];
     pol_execute := Some ["*"%string]; pol_admin := Some [] |}.

(** The character class [[a-zA-Z0-9._-]]. *)
Definition name_char (a : Ascii.ascii) : bool :=
  let n := Z.of_nat (Ascii.nat_of_ascii a) in
  ((97 <=? n) && (n <=? 122)) || ((65 <=? n) && (n <=? 90))
  || ((48 <=? n) && (n <=? 57))
  || (n =? 46) || (n =? 95) || (n =? 45).

(** [/^[a-zA-Z0-9._-]+$/.test(s)] *)
Definition validName (s : string) : bool :=
  negb (bool_decide (s = ""%string))
  && forallb name_char (String.list_ascii_of_string s).

(** [{ ...config, ...properties }] *)
Definition spread (c : PoolConfig) (p : PoolProperties) : PoolConfig :=
  {| pc_name := default (pc_name c) (pp_name p);
     pc_type := default (pc_type c) (pp_type p);
     pc_encrypted := default (pc_encrypted c) (pp_encrypted p);
     pc_owners := default (pc_owners c) (pp_owners p);
     pc_policies := match pp_policies p with
                    | Some x => Some x
                    | None => pc_policies c
                    end;
     pc_description := default (pc_description c) (pp_description p);
     pc_created := default (pc_created c) (pp_created p);
     pc_updated := default (pc_updated c) (pp_updated p);
     pc_autoCreate := default (pc_autoCreate c) (pp_autoCreate p);
     pc_maxMemoryBlocks :=
       default (pc_maxMemoryBlocks c) (pp_maxMemoryBlocks p);
     pc_maxTriggers := default (pc_maxTriggers c) (pp_maxTriggers p);
     pc_security := pc_security c |}.

(** [_validatePoolConfig(config)] *)
Definition _validatePoolConfig {S} (config : PoolConfig) : M S unit :=
  throw_if (bool_decide (pc_name config = ""%string))
    "Pool name is required and must be a string" ;;;
  throw_if (negb (validName (pc_name config)))
    "Pool name contains invalid characters" ;;;
  throw_if (strlen (pc_name config) >? 64)
    "Pool name cannot exceed 64 characters" ;;;
  throw_if (negb (validatePoolType (pc_type config)))
    "Invalid pool type" ;;;
  throw_if (bool_decide (pc_type config = ENCRYPTED)
            && negb (pc_encrypted config))
    "Encrypted pool type requires encrypted flag to be true" ;;;
  throw_if (negb (pc_maxMemoryBlocks config =? 0)
            && (pc_maxMemoryBlocks config <? 1))
    "maxMemoryBlocks must be a positive number" ;;;
  throw_if (negb (pc_maxTriggers config =? 0)
            && (pc_maxTriggers config <? 1))
    "maxTriggers must be a positive number".

Definition with_security (info : SecurityInfo) (c : PoolConfig)
  : PoolConfig :=
  {| pc_name := pc_name c; pc_type := pc_type c;
     pc_encrypted := pc_encrypted c; pc_owners := pc_owners c;
     pc_policies := pc_policies c; pc_description := pc_description c;
     pc_created := pc_created c; pc_updated := pc_updated c;
     pc_autoCreate := pc_autoCreate c;
     pc_maxMemoryBlocks := pc_maxMemoryBlocks c;
     pc_maxTriggers := pc_maxTriggers c; pc_security := Some info |}.

(** [async _prepareEncryptedPool(poolName, poolConfig)] *)
Definition _prepareEncryptedPool (poolName : string)
    (poolConfig : PoolConfig) : M World PoolConfig :=
  if negb (pc_encrypted poolConfig) then ret poolConfig
  else
    sec <- gets (fun w => security (poolManager w)) ;;
    match sec with
    | Some sec =>
        match prepareEncryptedPool sec poolName poolConfig with
        | Return (keyDerivation, algorithm) =>
            ret (with_security
                   (SecurityConfig (str_or keyDerivation "pbkdf2")
                      (str_or algorithm "aes-256-gcm")) poolConfig)
        | Throw e =>
            throw ("Failed to initialize encryption for pool: " +:+ e)
        end
    | None => ret (with_security SecurityWarning poolConfig)
    end.

(** [async createPool(name, type, encrypted, properties, metadata)].
    [poolConfig] is declared with [const]; the assignment of the prepared
    configuration to it raises a [TypeError]. *)
Definition createPool (now : Z) (name type : string) (encrypted : bool)
    (properties metadata : PoolProperties) : M World PoolConfig :=
  throw_if (bool_decide (name = ""%string))
    "Pool name is required and must be a string" ;;;
  pm <- gets poolManager ;;
  throw_if (bool_decide (is_Some (pools pm !! name)))
    "Pool already exists" ;;;
  throw_if (negb (validatePoolType type)) "Invalid pool type" ;;;
  let encrypted :=
    if bool_decide (type = ENCRYPTED) && negb encrypted then true
    else encrypted in
  let poolConfig :=
    spread (spread
      {| pc_name := name; pc_type := type; pc_encrypted := encrypted;
         pc_owners := default [] (pp_owners properties);
         pc_policies :=
           Some (default _getDefaultPolicies (pp_policies properties));
         pc_description :=
           str_or (pp_description properties)
             (str_or (pp_description metadata) "");
         pc_created := now; pc_updated := now;
         pc_autoCreate := default false (pp_autoCreate properties);
         pc_maxMemoryBlocks := num_or (pp_maxMemoryBlocks properties) 1000;
         pc_maxTriggers := num_or (pp_maxTriggers properties) 10000;
         pc_security := None |} properties) metadata in
  _validatePoolConfig poolConfig ;;;
  (if encrypted
   then _prepareEncryptedPool name poolConfig ;;;
        throw "Assignment to constant variable."
   else ret tt) ;;;
  PersistenceLayer.createPool name poolConfig ;;;
  modify (set_poolManager (fun pm =>
    set_poolMembership (insert name [])
      (set_poolMetadata (insert name poolConfig)
         (set_pools (insert name {| pool_config := poolConfig;
                                    pool_members := [] |}) pm)))) ;;;
  ret poolConfig.

(** Load a persisted pool into memory, as [getPool] does. *)
Definition load_pool (name : string) (persistedPool : PoolConfig)
  : M World unit :=
  modify (set_poolManager (fun pm =>
    set_poolMembership (insert name [])
      (set_poolMetadata (insert name persistedPool)
         (set_pools (insert name {| pool_config := persistedPool;
                                    pool_members := [] |}) pm)))).

(** [async getPool(name)] *)
Definition getPool (name : string) : M World (option PoolConfig) :=
  throw_if (bool_decide (name = ""%string)) "Pool name is required" ;;;
  pm <- gets poolManager ;;
  match pools pm !! name with
  | Some _ => ret (poolMetadata pm !! name)
  | None =>
      persistedPool <- PersistenceLayer.getPool name ;;
      match persistedPool with
      | Some p => load_pool name p ;;; ret (Some p)
      | None => ret None
      end
  end.

(** [async hasPool(poolName)] *)
Definition hasPool (poolName : string) : M World bool :=
  pm <- gets poolManager ;;
  match pools pm !! poolName with
  | Some _ => ret true
  | None =>
      persistedPool <- PersistenceLayer.getPool poolName ;;
      ret (bool_decide (is_Some persistedPool))
  end.

(** [async _checkPoolAccess(appId, poolName, requiredPermission)] *)
Definition _checkPoolAccess (appId poolName : string)
    (requiredPermission : AccessPolicies) : M World bool :=
  pm <- gets poolManager ;;
  match poolMetadata pm !! poolName with
  | None => throw "Pool not found"
  | Some metadata =>
      let policies := default _getDefaultPolicies (pc_policies metadata) in
      (if pc_encrypted metadata
       then
         match security pm with
         | Some sec =>
             throw_if (negb (checkPoolAccess sec appId poolName
                               requiredPermission))
               "Access denied to encrypted pool: insufficient encryption keys"
         | None =>
             throw_if (negb (includes
                               (default [] (policy_get policies ADMIN))
                               appId))
               "Access denied to encrypted pool: admin permission required"
         end
       else ret tt) ;;;
      let allowedApps := default [] (policy_get policies requiredPermission) in
      throw_if (negb (includes allowedApps "*")
                && negb (includes allowedApps appId))
        "Access denied" ;;;
      ret true
  end.

Definition add_member (app_id : string) (p : Pool) : Pool :=
  {| pool_config := pool_config p;
     pool_members := set_add app_id (pool_members p) |}.
Definition remove_member (app_id : string) (p : Pool) : Pool :=
  {| pool_config := pool_config p;
     pool_members := set_delete app_id (pool_members p) |}.

(** [async addAppToPool(app_id, pool_name)] *)
Definition addAppToPool (app_id pool_name : string) : M World bool :=
  throw_if (bool_decide (app_id = ""%string))
    "app_id is required and must be a string" ;;;
  throw_if (bool_decide (pool_name = ""%string))
    "pool_name is required and must be a string" ;;;
  poolExists <- hasPool pool_name ;;
  throw_if (negb poolExists) "Pool not found" ;;;
  poolMetadata <- getPool pool_name ;;
  throw_if (negb (bool_decide (is_Some poolMetadata)))
    "Pool could not be loaded" ;;;
  _checkPoolAccess app_id pool_name READ ;;;
  modify (set_poolManager (fun pm =>
    set_pools (alter (add_member app_id) pool_name)
      (set_poolMembership
         (fun m => <[pool_name := set_add app_id (default [] (m !! pool_name))]> m)
         (set_appPoolMembership
            (fun m => <[app_id := set_add pool_name (default [] (m !! app_id))]> m)
            pm)))) ;;;
  ret true.

(** [async removeAppFromPool(app_id, pool_name)] *)
Definition removeAppFromPool (app_id pool_name : string) : M World bool :=
  throw_if (bool_decide (app_id = ""%string))
    "app_id is required and must be a string" ;;;
  throw_if (bool_decide (pool_name = ""%string))
    "pool_name is required and must be a string" ;;;
  modify (set_poolManager (fun pm =>
    set_pools (alter (remove_member app_id) pool_name)
      (set_poolMembership (alter (set_delete app_id) pool_name)
         (set_appPoolMembership
            (fun m =>
               match m !! app_id with
               | Some poolSet =>
                   let poolSet := set_delete pool_name poolSet in
                   if bool_decide (poolSet = []) then delete app_id m
                   else <[app_id := poolSet]> m
               | None => m
               end) pm)))) ;;;
  ret true.

(** [getAppPools(app_id)] for a non-empty [app_id] *)
Definition getAppPools (app_id : string) (w : World) : list string :=
  default [] (appPoolMembership (poolManager w) !! app_id).

(** [validatePoolMembership(app_id, pool_name)] *)
Definition validatePoolMembership (app_id pool_name : string) (w : World)
  : bool :=
  if bool_decide (app_id = ""%string) || bool_decide (pool_name = ""%string)
  then false
  else
    match appPoolMembership (poolManager w) !! app_id with
    | Some appPools => includes appPools pool_name
    | None => false
    end.

End Pools.

(** ** Fixtures: a server after start-up *)

Module ServerFixtures.
Import Protocol State.

Definition no_properties : PoolProperties :=
  {| pp_name := None; pp_type := None; pp_encrypted := None;
     pp_owners := None; pp_policies := None; pp_description := None;
     pp_created := None; pp_updated := None; pp_autoCreate := None;
     pp_maxMemoryBlocks := None; pp_maxTriggers := None |}.

(** The components as their constructors leave them, with the default
    configuration and no security module (as [index.js] wires them). *)
Definition new_world : World :=
  {| conns := ∅;
     persistence := {| app_rows := ∅; pool_rows := ∅ |};
     poolManager := {| security := None; pools := ∅; poolMetadata := ∅;
                       appPoolMembership := ∅; poolMembership := ∅ |};
     appRegistry := {| apps := ∅; connections := ∅; triggerMappings := ∅;
                       rehydrationCache := ∅; lastSeenApps := ∅ |};
     triggerRouter :=
       {| triggerRecords := [];
          stats := {| totalTriggers := 0; successfulTriggers := 0;
                      failedTriggers := 0; timeoutTriggers := 0;
                      shortCircuitedCalls := 0 |};
          defaultTTL := 30000; maxConcurrentTriggers := 10000;
          roundRobinCounters := ∅; detachedTimers := [] |} |}.

(** [PoolManager.initialize()]: the default pools are created. *)
Definition started_world : World :=
  fst (Pools.createPool 0 "system" Pools.LOCAL false no_properties
         no_properties
         (fst (Pools.createPool 0 "default" Pools.LOCAL false no_properties
                 no_properties new_world))).

End ServerFixtures.

(** * App registry *)

Module Registry.
Import Protocol State.

(** The character class [[a-zA-Z0-9._:-]] of trigger names. *)
Definition trigger_char (a : Ascii.ascii) : bool :=
  Pools.name_char a || (Z.of_nat (Ascii.nat_of_ascii a) =? 58).

(** [_validateAppId(app_id)] *)
Definition _validateAppId (app_id : string) : bool :=
  negb (bool_decide (app_id = ""%string))
  && (strlen app_id <=? 128)
  && forallb Pools.name_char (String.list_ascii_of_string app_id).

(** [_validatePools(pools)] *)
Definition _validatePools (pools : list string) : bool :=
  forallb (fun pool =>
    negb (bool_decide (pool = ""%string)) && (strlen pool <=? 64)
    && forallb Pools.name_char (String.list_ascii_of_string pool)) pools.

(** [_validateTriggerName(triggerName)] *)
Definition _validateTriggerName (triggerName : string) : bool :=
  negb (bool_decide (triggerName = ""%string))
  && (strlen triggerName <=? 128)
  && forallb trigger_char (String.list_ascii_of_string triggerName).

(** [_validateTriggers(triggers)] *)
Definition _validateTriggers (triggers : list string) : bool :=
  forallb _validateTriggerName triggers.

(** [_addTriggerMapping(triggerName, appId)] *)
Definition _addTriggerMapping (appId triggerName : string) : World -> World :=
  set_appRegistry (set_triggerMappings (fun m =>
    <[triggerName := set_add appId (default [] (m !! triggerName))]> m)).

(** [_removeTriggerMapping(triggerName, appId)] *)
Definition _removeTriggerMapping (appId triggerName : string)
  : World -> World :=
  set_appRegistry (set_triggerMappings (fun m =>
    match m !! triggerName with
    | Some appIds =>
        let appIds := set_delete appId appIds in
        if bool_decide (appIds = []) then delete triggerName m
        else <[triggerName := appIds]> m
    | None => m
    end)).

(** [for (const t of triggers) this._addTriggerMapping(t, appId)] *)
Definition add_mappings (appId : string) (triggers : list string)
  : World -> World :=
  fun w => foldl (fun w t => _addTriggerMapping appId t w) w triggers.

Definition remove_mappings (appId : string) (triggers : list string)
  : World -> World :=
  fun w => foldl (fun w t => _removeTriggerMapping appId t w) w triggers.

(** [AppRegistration.isActive()] *)
Definition isActive (registration : AppRegistration) (w : World) : bool :=
  match reg_connection registration with
  | Some c => Transport.isActive c w
  | None => false
  end.

(** [AppRegistration.send(message)] *)
Definition send (registration : AppRegistration) (message : Message)
  : M World bool :=
  match reg_connection registration with
  | Some c => Transport.send c message
  | None => ret false
  end.

(** [getApp(appId)] *)
Definition getApp (appId : string) (w : World) : option AppRegistration :=
  apps (appRegistry w) !! appId.

(** [getAppByConnection(connectionId)] *)
Definition getAppByConnection (connectionId : Z) (w : World)
  : option AppRegistration :=
  match connections (appRegistry w) !! connectionId with
  | Some appId =>
      if bool_decide (appId = ""%string) then None else getApp appId w
  | None => None
  end.

(** [getAppTriggers(app_id)] *)
Definition getAppTriggers (app_id : string) (w : World) : list string :=
  match getApp app_id w with
  | Some registration => reg_triggers registration
  | None => []
  end.

(** [getTriggersHandlers(triggerName)] *)
Definition getTriggersHandlers (triggerName : string) (w : World)
  : list AppRegistration :=
  match triggerMappings (appRegistry w) !! triggerName with
  | None => []
  | Some appIds =>
      filter (fun app => isActive app w = true)
        (omap (fun appId => getApp appId w) appIds)
  end.

Definition set_reg (appId : string) (registration : AppRegistration)
  : World -> World :=
  set_appRegistry (set_apps (insert appId registration)).

Definition cache_registration (appId : string) (entry : CacheEntry)
  : World -> World :=
  set_appRegistry (set_rehydrationCache (insert appId entry)).

(** [_persistAppRegistration(registration)]: a failure of the persistence
    layer is logged and swallowed. *)
Definition _persistAppRegistration (now : Z) (registration : AppRegistration)
  : M World unit :=
  try_catch
    (PersistenceLayer.registerApp (reg_appId registration)
       (reg_triggers registration) (reg_pools registration)
       (reg_meta registration) (reg_protocolVersion registration) now)
    (fun _ => ret tt).

(** [_hasRehydrationData(app_id)] *)
Definition _hasRehydrationData (app_id : string) : M World bool :=
  try_catch
    (w <- get ;;
     match rehydrationCache (appRegistry w) !! app_id with
     | Some _ => ret true
     | None =>
         appData <- PersistenceLayer.getApp app_id ;;
         ret (bool_decide (is_Some appData))
     end)
    (fun _ => ret false).

(** The [updates] object of [updateApp]. *)
Record Updates := {
  upd_pools : option (list string);
  upd_triggers : option (list string);
  upd_metadata : option (gmap string string)
}.

Definition reg_with_pools (pools : list string) (r : AppRegistration)
  : AppRegistration :=
  {| reg_appId := reg_appId r; reg_connection := reg_connection r;
     reg_pools := pools; reg_triggers := reg_triggers r;
     reg_meta := reg_meta r; reg_protocolVersion := reg_protocolVersion r;
     reg_registered := reg_registered r; reg_rehydrated := reg_rehydrated r;
     reg_originalRegistration := reg_originalRegistration r |}.

Definition reg_with_triggers (triggers : list string) (r : AppRegistration)
  : AppRegistration :=
  {| reg_appId := reg_appId r; reg_connection := reg_connection r;
     reg_pools := reg_pools r; reg_triggers := triggers;
     reg_meta := reg_meta r; reg_protocolVersion := reg_protocolVersion r;
     reg_registered := reg_registered r; reg_rehydrated := reg_rehydrated r;
     reg_originalRegistration := reg_originalRegistration r |}.

Definition reg_with_meta (meta : gmap string string) (r : AppRegistration)
  : AppRegistration :=
  {| reg_appId := reg_appId r; reg_connection := reg_connection r;
     reg_pools := reg_pools r; reg_triggers := reg_triggers r;
     reg_meta := meta; reg_protocolVersion := reg_protocolVersion r;
     reg_registered := reg_registered r; reg_rehydrated := reg_rehydrated r;
     reg_originalRegistration := reg_originalRegistration r |}.

Definition cache_of (r : AppRegistration) : CacheEntry :=
  {| ce_pools := reg_pools r; ce_triggers := reg_triggers r;
     ce_meta := reg_meta r; ce_lastRegistered := Some (reg_registered r) |}.

(** The registration object stored under [app_id]; it is mutated in
    place, so every step of [updateApp] reads it from the map again. *)
Definition the_registration (app_id : string) : M World AppRegistration :=
  w <- get ;;
  match getApp app_id w with
  | Some registration => ret registration
  | None => throw ("App " +:+ app_id +:+ " not found")
  end.

(** [async updateApp(app_id, updates)] *)
Definition updateApp (now : Z) (app_id : string) (updates : Updates)
  : M World AppRegistration :=
  registration <- the_registration app_id ;;
  let oldTriggers := reg_triggers registration in
  let oldPools := reg_pools registration in
  match upd_pools updates with
  | Some pools =>
      throw_if (negb (_validatePools pools)) "Invalid pools specification" ;;;
      modify (set_appRegistry (set_apps (alter (reg_with_pools pools) app_id)))
  | None => ret tt
  end ;;;
  match upd_triggers updates with
  | Some triggers =>
      throw_if (negb (_validateTriggers triggers))
        "Invalid triggers specification" ;;;
      modify (remove_mappings app_id oldTriggers) ;;;
      modify (set_appRegistry
                (set_apps (alter (reg_with_triggers triggers) app_id))) ;;;
      modify (add_mappings app_id triggers)
  | None => ret tt
  end ;;;
  match upd_metadata updates with
  | Some metadata =>
      modify (set_appRegistry (set_apps
        (alter (fun r => reg_with_meta (metadata ∪ reg_meta r) r) app_id)))
  | None => ret tt
  end ;;;
  match upd_pools updates with
  | Some newPools =>
      let poolsToAdd := filter (fun p => includes oldPools p = false) newPools in
      let poolsToRemove :=
        filter (fun p => includes newPools p = false) oldPools in
      for_each poolsToRemove (fun poolName =>
        Pools.removeAppFromPool app_id poolName ;;; ret tt) ;;;
      for_each poolsToAdd (fun poolName =>
        Pools.addAppToPool app_id poolName ;;; ret tt)
  | None => ret tt
  end ;;;
  registration <- the_registration app_id ;;
  modify (cache_registration app_id (cache_of registration)) ;;;
  _persistAppRegistration now registration ;;;
  ret registration.

(** [async registerApp(app_id, triggers, pools, metadata, connection)] *)
Definition registerApp (now : Z) (app_id : string) (triggers pools : list string)
    (metadata : gmap string string) (connection : option Z)
  : M World AppRegistration :=
  throw_if (negb (_validateAppId app_id)) "Invalid app_id format" ;;;
  throw_if (negb (_validateTriggers triggers))
    "Invalid triggers specification" ;;;
  throw_if (negb (_validatePools pools)) "Invalid pools specification" ;;;
  w <- get ;;
  match getApp app_id w with
  | Some _ =>
      updateApp now app_id
        {| upd_pools := Some pools; upd_triggers := Some triggers;
           upd_metadata := Some metadata |}
  | None =>
      let registration :=
        {| reg_appId := app_id; reg_connection := connection;
           reg_pools := pools; reg_triggers := triggers;
           reg_meta := metadata;
           reg_protocolVersion :=
             Some (str_or (metadata !! "protocolVersion"%string) "0.1.0");
           reg_registered := now; reg_rehydrated := false;
           reg_originalRegistration := None |} in
      modify (set_reg app_id registration) ;;;
      match connection with
      | Some c => modify (set_appRegistry (set_connections (insert c app_id)))
      | None => ret tt
      end ;;;
      modify (add_mappings app_id triggers) ;;;
      modify (cache_registration app_id
                {| ce_pools := pools; ce_triggers := triggers;
                   ce_meta := metadata; ce_lastRegistered := Some now |}) ;;;
      for_each pools (fun poolName =>
        Pools.addAppToPool app_id poolName ;;; ret tt) ;;;
      _persistAppRegistration now registration ;;;
      ret registration
  end.

(** [async rehydrateApp(app_id, connection)] *)
Definition rehydrateApp (now : Z) (app_id : string) (connection : option Z)
  : M World AppRegistration :=
  persisted <- PersistenceLayer.getApp app_id ;;
  w <- get ;;
  let appData :=
    match persisted with
    | Some row => Some row
    | None =>
        match rehydrationCache (appRegistry w) !! app_id with
        | Some cachedData =>
            Some {| row_pools := ce_pools cachedData;
                    row_triggers := ce_triggers cachedData;
                    row_meta := ce_meta cachedData;
                    row_protocolVersion :=
                      Some (str_or (ce_meta cachedData
                                      !! "protocolVersion"%string) "0.1.0");
                    row_registered := None |}
        | None => None
        end
    end in
  match appData with
  | None => throw ("No rehydration data available for app: " +:+ app_id)
  | Some appData =>
      let triggers :=
        if _validateTriggers (row_triggers appData)
        then row_triggers appData else [] in
      let registration :=
        {| reg_appId := app_id; reg_connection := connection;
           reg_pools := row_pools appData; reg_triggers := triggers;
           reg_meta := row_meta appData;
           reg_protocolVersion := row_protocolVersion appData;
           reg_registered := now; reg_rehydrated := true;
           reg_originalRegistration := row_registered appData |} in
      modify (set_reg app_id registration) ;;;
      match connection with
      | Some c => modify (set_appRegistry (set_connections (insert c app_id)))
      | None => ret tt
      end ;;;
      modify (add_mappings app_id triggers) ;;;
      modify (cache_registration app_id
                {| ce_pools := row_pools appData; ce_triggers := triggers;
                   ce_meta := row_meta appData;
                   ce_lastRegistered := Some now |}) ;;;
      for_each (row_pools appData) (fun poolName =>
        Pools.addAppToPool app_id poolName ;;; ret tt) ;;;
      ret registration
  end.

(** [async processHandshake(message, connection)] *)
Definition processHandshake (now : Z) (message : HandshakeMessage)
    (connection : Z) : M World AppRegistration :=
  try_catch
    (match validateHandshake message with
     | Return _ => ret tt
     | Throw e => throw e
     end ;;;
     let appId := hs_app_id message in
     let pools := default ["default"%string] (hs_pools message) in
     let triggers := default [] (hs_triggers message) in
     let metadata := default ∅ (hs_metadata message) in
     throw_if (negb (_validateAppId appId)) "Invalid app_id format" ;;;
     throw_if (negb (_validatePools pools)) "Invalid pools specification" ;;;
     throw_if (negb (_validateTriggers triggers))
       "Invalid triggers specification" ;;;
     hasData <- (if bool_decide (triggers = [])
                 then _hasRehydrationData appId else ret false) ;;
     let isRehydration := bool_decide (triggers = []) && hasData in
     registration <-
       (if isRehydration
        then rehydrateApp now appId (Some connection)
        else registerApp now appId triggers pools metadata
               (Some connection)) ;;
     Transport.send connection
       (createHandshakeAck message
          {| as_app_id := appId; as_pools := reg_pools registration;
             as_triggers := reg_triggers registration;
             as_rehydrated := isRehydration |}) ;;;
     modify (set_appRegistry (set_lastSeenApps (insert appId now))) ;;;
     ret registration)
    (fun error =>
       Transport.send connection
         (createError (Handshake message) error "HANDSHAKE_ERROR") ;;;
       throw error).

(** [async handleDisconnection(connection)].  [listeners] are the
    handlers subscribed to the registry's [app_disconnected] event. *)
Definition handleDisconnection (listeners : string -> M World unit)
    (connection : Z) : M World unit :=
  w <- get ;;
  match truthy (connections (appRegistry w) !! connection) with
  | None => ret tt
  | Some appId =>
      match getApp appId w with
      | Some registration =>
          modify (remove_mappings appId (reg_triggers registration)) ;;;
          modify (cache_registration appId (cache_of registration)) ;;;
          listeners appId
      | None => ret tt
      end ;;;
      modify (set_appRegistry (set_apps (delete appId))) ;;;
      modify (set_appRegistry (set_connections (delete connection)))
  end.

End Registry.

(** * Trigger router *)

Module Router.
Import Protocol State.

(** ** The in-flight table: a [Map] in insertion order *)

Abbreviation records := (list (string * TriggerRecord)).

(** [Map.prototype.get] *)
Fixpoint rec_get (id : string) (t : records) : option TriggerRecord :=
  match t with
  | [] => None
  | (k, r) :: t' => if bool_decide (k = id) then Some r else rec_get id t'
  end.

(** [Map.prototype.set]: an existing key keeps its place. *)
Fixpoint rec_set (id : string) (r : TriggerRecord) (t : records) : records :=
  match t with
  | [] => [(id, r)]
  | (k, r') :: t' =>
      if bool_decide (k = id) then (k, r) :: t' else (k, r') :: rec_set id r t'
  end.

(** [Map.prototype.delete] *)
Definition rec_delete (id : string) (t : records) : records :=
  filter (fun kr => kr.1 <> id) t.

(** Mutate the record object stored under [id]. *)
Definition rec_alter (f : TriggerRecord -> TriggerRecord) (id : string)
    (t : records) : records :=
  map (fun kr => if bool_decide (kr.1 = id) then (kr.1, f kr.2) else kr) t.

(** [Array.from(this.triggerRecords.values())] *)
Definition rec_values (t : records) : list TriggerRecord := map snd t.

Definition table (w : World) : records := triggerRecords (triggerRouter w).

Definition set_table (f : records -> records) : World -> World :=
  set_triggerRouter (set_triggerRecords f).

Definition bump (f : (Z -> Z) -> RouterStats -> RouterStats) : World -> World :=
  set_triggerRouter (set_stats (f (fun n => n + 1))).

(** ** Trigger records *)

(** [new TriggerRecord(originalMessage, originConnection, options)] *)
Definition new_record (now : Z) (originalMessage : TriggerMessage)
    (originConnection : option Z) (pool : option string)
    (handlers : list string) (created ttl : option Z) : TriggerRecord :=
  {| tr_id := tm_id originalMessage;
     tr_originalMessage := originalMessage;
     tr_originConnection := originConnection;
     tr_pool := pool; tr_handlers := handlers;
     tr_created := num_or created now;
     tr_ttl := num_or ttl 30000;
     tr_dispatched := None; tr_dispatchedTo := None;
     tr_timeoutId := false; tr_completed := false;
     tr_originAppId := None; tr_origin := None |}.

(** [async createTriggerRecord(id, origin, destination, metadata)]; the
    mirror of the record in the persistence layer, whose failure is
    swallowed and which nothing reads back, is left out. *)
Definition createTriggerRecord (now : Z) (id : option string)
    (origin : string) (destination : option string)
    (pool : option string) (handlers : list string) (created ttl : option Z)
    (originalMessage : TriggerMessage) (originConnection : option Z)
  : M World TriggerRecord :=
  match truthy id with
  | None => throw "Trigger record requires id and origin"
  | Some id =>
      throw_if (bool_decide (origin = ""%string))
        "Trigger record requires id and origin" ;;;
      w <- get ;;
      throw_if (bool_decide (is_Some (rec_get id (table w))))
        "Trigger record already exists" ;;;
      let record :=
        new_record now originalMessage originConnection pool handlers
          (Some (num_or created now))
          (Some (num_or ttl (defaultTTL (triggerRouter w)))) in
      modify (set_table (rec_set id record)) ;;;
      ret record
  end.

(** The [updates] object of [updateTriggerRecord]. *)
Record RecordUpdates := {
  ru_dispatchedTo : option string;
  ru_completed : option bool;
  ru_originAppId : option string;
  ru_origin : option string
}.

(** [Object.assign(record, updates)] *)
Definition assign (u : RecordUpdates) (r : TriggerRecord) : TriggerRecord :=
  {| tr_id := tr_id r; tr_originalMessage := tr_originalMessage r;
     tr_originConnection := tr_originConnection r; tr_pool := tr_pool r;
     tr_handlers := tr_handlers r; tr_created := tr_created r;
     tr_ttl := tr_ttl r; tr_dispatched := tr_dispatched r;
     tr_dispatchedTo := match ru_dispatchedTo u with
                        | Some a => Some a
                        | None => tr_dispatchedTo r
                        end;
     tr_timeoutId := tr_timeoutId r;
     tr_completed := default (tr_completed r) (ru_completed u);
     tr_originAppId := match ru_originAppId u with
                       | Some a => Some a
                       | None => tr_originAppId r
                       end;
     tr_origin := match ru_origin u with
                  | Some a => Some a
                  | None => tr_origin r
                  end |}.

(** [async updateTriggerRecord(id, updates)] *)
Definition updateTriggerRecord (id : string) (updates : RecordUpdates)
  : M World TriggerRecord :=
  w <- get ;;
  match rec_get id (table w) with
  | None => throw "Trigger record not found"
  | Some record =>
      modify (set_table (rec_alter (assign updates) id)) ;;;
      ret (assign updates record)
  end.

Definition set_timeoutId (b : bool) (r : TriggerRecord) : TriggerRecord :=
  {| tr_id := tr_id r; tr_originalMessage := tr_originalMessage r;
     tr_originConnection := tr_originConnection r; tr_pool := tr_pool r;
     tr_handlers := tr_handlers r; tr_created := tr_created r;
     tr_ttl := tr_ttl r; tr_dispatched := tr_dispatched r;
     tr_dispatchedTo := tr_dispatchedTo r; tr_timeoutId := b;
     tr_completed := tr_completed r; tr_originAppId := tr_originAppId r;
     tr_origin := tr_origin r |}.

Definition set_dispatched (appId : string) (now : Z) (r : TriggerRecord)
  : TriggerRecord :=
  {| tr_id := tr_id r; tr_originalMessage := tr_originalMessage r;
     tr_originConnection := tr_originConnection r; tr_pool := tr_pool r;
     tr_handlers := tr_handlers r; tr_created := tr_created r;
     tr_ttl := tr_ttl r; tr_dispatched := Some now;
     tr_dispatchedTo := Some appId; tr_timeoutId := tr_timeoutId r;
     tr_completed := tr_completed r; tr_originAppId := tr_originAppId r;
     tr_origin := tr_origin r |}.

(** [_setTriggerTimeout(triggerRecord)]: a timer is armed whose callback
    is [_timeoutTriggerRecord(triggerRecord)], and its handle is assigned
    to [triggerRecord.timeoutId].  [createTriggerRecord] refuses an id
    that is in the table, so an entry under the record's id is the record
    object itself: its timer is the entry's [timeoutId], which
    [_cleanupTriggerRecord] clears when it deletes the entry.  A record
    that is not in the table (the self-call branch of [_dispatchTrigger]
    has removed it) is reached by no later [clearTimeout]: its timer
    stays pending in [detachedTimers]. *)
Definition _setTriggerTimeout (triggerRecord : TriggerRecord)
  : M World unit :=
  w <- get ;;
  match tr_id triggerRecord with
  | Some id =>
      if bool_decide (is_Some (rec_get id (table w)))
      then modify (set_table (rec_alter (set_timeoutId true) id))
      else modify (set_triggerRouter
                     (set_detachedTimers (fun timers =>
                        timers ++ [triggerRecord])))
  | None =>
      modify (set_triggerRouter
                (set_detachedTimers (fun timers =>
                   timers ++ [triggerRecord])))
  end.

(** [_cleanupTriggerRecord(triggerId)] *)
Definition _cleanupTriggerRecord (triggerId : option string) : M World unit :=
  match triggerId with
  | Some id => modify (set_table (rec_delete id))
  | None => ret tt
  end.

(** [_timeoutTriggerRecord(triggerRecord)] *)
Definition _timeoutTriggerRecord (triggerRecord : TriggerRecord)
  : M World unit :=
  let timeoutError :=
    createTimeoutError (Trigger (tr_originalMessage triggerRecord)) in
  w <- get ;;
  match tr_originConnection triggerRecord with
  | Some c =>
      if Transport.isActive c w
      then Transport.send c timeoutError ;;; ret tt
      else ret tt
  | None => ret tt
  end ;;;
  modify (bump set_timeoutTriggers) ;;;
  _cleanupTriggerRecord (tr_id triggerRecord).

(** The filter of [_handleAppDisconnection]:
    [record.originAppId === appId || record.origin === appId]. *)
Definition from_app (appId : string) (record : TriggerRecord) : bool :=
  bool_decide (tr_originAppId record = Some appId)
  || bool_decide (tr_origin record = Some appId).

(** [_handleAppDisconnection(appId)] *)
Definition _handleAppDisconnection (appId : string) : M World unit :=
  w <- get ;;
  let pendingTriggers :=
    filter (fun record => from_app appId record = true)
      (rec_values (table w)) in
  for_each pendingTriggers _timeoutTriggerRecord.

(** ** Routing *)

(** The object [routeTrigger] returns. *)
Record RoutingResult := {
  rr_destination : AppRegistration;
  rr_handlers : list AppRegistration;
  rr_optimized : bool
}.

(** [async findTriggerHandlers(triggerName, poolName)] *)
Definition findTriggerHandlers (triggerName poolName : string) (w : World)
  : list AppRegistration :=
  filter (fun handler =>
            Pools.validatePoolMembership (reg_appId handler) poolName w = true)
    (Registry.getTriggersHandlers triggerName w).

(** [_selectRoundRobin(handlers)] *)
Definition _selectRoundRobin (handlers : list AppRegistration)
  : M World (option AppRegistration) :=
  let triggerName :=
    str_or (head handlers ≫= (fun h => head (reg_triggers h))) "default" in
  w <- get ;;
  let counter :=
    default 0 (roundRobinCounters (triggerRouter w) !! triggerName) in
  let selectedHandler :=
    handlers !! Z.to_nat (counter `mod` Z.of_nat (length handlers)) in
  modify (set_triggerRouter
            (set_roundRobinCounters (insert triggerName (counter + 1)))) ;;;
  ret selectedHandler.

(** [async selectDestination(handlers, routingStrategy)] with the
    round-robin strategy, the only one the router passes. *)
Definition selectDestination (handlers : list AppRegistration)
  : M World (option AppRegistration) :=
  w <- get ;;
  let activeHandlers :=
    filter (fun h => Registry.isActive h w = true) handlers in
  match activeHandlers with
  | [] => ret None
  | [h] => ret (Some h)
  | _ => _selectRoundRobin activeHandlers
  end.

(** [async validateRouting(origin, destination, triggerName)] *)
Definition validateRouting (origin : option string)
    (destination triggerName : string) : M World bool :=
  match truthy origin with
  | None => throw "Origin, destination, and trigger name are required"
  | Some origin =>
      throw_if (bool_decide (destination = ""%string)
                || bool_decide (triggerName = ""%string))
        "Origin, destination, and trigger name are required" ;;;
      w <- get ;;
      throw_if (negb (bool_decide (is_Some (Registry.getApp origin w))))
        "Origin app not found" ;;;
      throw_if (negb (bool_decide (is_Some (Registry.getApp destination w))))
        "Destination app not found" ;;;
      throw_if (negb (includes (Registry.getAppTriggers destination w)
                        triggerName))
        "Destination app cannot handle trigger" ;;;
      let originPools := Pools.getAppPools origin w in
      let destinationPools := Pools.getAppPools destination w in
      let commonPools :=
        filter (fun pool => includes destinationPools pool = true)
          originPools in
      throw_if (bool_decide (commonPools = []))
        "No common pools between origin and destination" ;;;
      ret true
  end.

(** [async optimizeLocalRouting(origin, destination)] *)
Definition optimizeLocalRouting (origin : option string)
    (destination : string) (w : World) : bool :=
  match truthy origin, truthy (Some destination) with
  | Some origin, Some destination =>
      match Registry.getApp origin w, Registry.getApp destination w with
      | Some originApp, Some destinationApp =>
          bool_decide (reg_connection originApp
                       = reg_connection destinationApp)
      | _, _ => false
      end
  | _, _ => false
  end.

Definition count_short_circuit (optimized : bool) : M World unit :=
  if optimized then modify (bump set_shortCircuitedCalls) else ret tt.

(** [async routeTrigger(triggerMessage)] *)
Definition routeTrigger (triggerMessage : TriggerMessage)
  : M World RoutingResult :=
  match truthy (tm_trigger triggerMessage) with
  | None => throw "Invalid trigger message: missing trigger name"
  | Some triggerName =>
      let poolName := str_or (tm_pool triggerMessage) "default" in
      match truthy (tm_destination triggerMessage) with
      | Some destination =>
          w <- get ;;
          match Registry.getApp destination w with
          | None => throw "Destination app not found"
          | Some destinationApp =>
              throw_if (negb (includes
                                (Registry.getAppTriggers destination w)
                                triggerName))
                "Destination app cannot handle trigger" ;;;
              throw_if (negb (Pools.validatePoolMembership destination
                                poolName w))
                "Destination app is not a member of pool" ;;;
              throw_if (negb (Registry.isActive destinationApp w))
                "Destination app is not active" ;;;
              validateRouting (tm_origin triggerMessage) destination
                triggerName ;;;
              let optimized :=
                optimizeLocalRouting (tm_origin triggerMessage)
                  destination w in
              count_short_circuit optimized ;;;
              ret {| rr_destination := destinationApp;
                     rr_handlers := [destinationApp];
                     rr_optimized := optimized |}
          end
      | None =>
          w <- get ;;
          let handlers := findTriggerHandlers triggerName poolName w in
          throw_if (bool_decide (handlers = []))
            "No handlers found for trigger" ;;;
          selected <- selectDestination handlers ;;
          match selected with
          | None => throw "No available destination for trigger"
          | Some destination =>
              validateRouting (tm_origin triggerMessage)
                (reg_appId destination) triggerName ;;;
              w <- get ;;
              let optimized :=
                optimizeLocalRouting (tm_origin triggerMessage)
                  (reg_appId destination) w in
              count_short_circuit optimized ;;;
              ret {| rr_destination := destination;
                     rr_handlers := handlers;
                     rr_optimized := optimized |}
          end
      end
  end.

(** [async _dispatchTrigger(triggerRecord, handlers)] for the one-element
    list [[routingResult.destination]] the router passes, from which
    [_selectHandler] picks the element. *)
Definition _dispatchTrigger (now : Z) (triggerRecord : TriggerRecord)
    (targetHandler : AppRegistration) : M World unit :=
  let message := tr_originalMessage triggerRecord in
  w <- get ;;
  throw_if (negb (Registry.isActive targetHandler w))
    "No active handler available for trigger" ;;;
  let originApp :=
    tr_originConnection triggerRecord
      ≫= (fun c => Registry.getAppByConnection c w) in
  if match originApp with
     | Some originApp =>
         bool_decide (reg_appId originApp = reg_appId targetHandler)
     | None => false
     end
  then
    let errorResponse :=
      createError (Trigger message)
        "Intra-process trigger calls not yet supported"
        "SHORT_CIRCUIT_NOT_IMPLEMENTED" in
    match tr_originConnection triggerRecord with
    | Some c =>
        if Transport.isActive c w
        then Transport.send c errorResponse ;;; ret tt
        else ret tt
    | None => ret tt
    end ;;;
    modify (bump set_failedTriggers) ;;;
    _cleanupTriggerRecord (tr_id triggerRecord)
  else
    success <- Registry.send targetHandler (Trigger message) ;;
    throw_if (negb success) "Failed to dispatch trigger to handler" ;;;
    match tr_id triggerRecord with
    | Some id =>
        modify (set_table
                  (rec_alter (set_dispatched (reg_appId targetHandler) now)
                     id))
    | None => ret tt
    end.

(** The [try] block of [handleTriggerRequest]. *)
Definition accept_trigger (now : Z) (message : TriggerMessage)
    (connection : Z) : M World unit :=
  w <- get ;;
  throw_if (Z.of_nat (length (table w))
            >=? maxConcurrentTriggers (triggerRouter w))
    "Maximum concurrent triggers exceeded" ;;;
  let triggerId := tm_id message in
  match Registry.getAppByConnection connection w with
  | None => throw "Origin application not registered"
  | Some originApp =>
      let poolName := str_or (tm_pool message) "default" in
      pool <- Pools.getPool poolName ;;
      throw_if (negb (bool_decide (is_Some pool))) "Pool not found" ;;;
      w <- get ;;
      throw_if (negb (Pools.validatePoolMembership (reg_appId originApp)
                        poolName w))
        "App is not a member of pool" ;;;
      let message := set_origin (reg_appId originApp) message in
      routingResult <- routeTrigger message ;;
      w <- get ;;
      triggerRecord <-
        createTriggerRecord now triggerId (reg_appId originApp)
          (tm_destination message) (Some poolName)
          (map reg_appId (rr_handlers routingResult)) (Some now)
          (Some (num_or (tm_ttl message) (defaultTTL (triggerRouter w))))
          message (Some connection) ;;
      _dispatchTrigger now triggerRecord (rr_destination routingResult) ;;;
      _setTriggerTimeout triggerRecord
  end.

(** [async handleTriggerRequest(message, connection)] *)
Definition handleTriggerRequest (now : Z) (message : TriggerMessage)
    (connection : Z) : M World unit :=
  modify (bump set_totalTriggers) ;;;
  try_catch (accept_trigger now message connection)
    (fun error =>
       Transport.send connection
         (createError (Trigger message) error "TRIGGER_ROUTING_ERROR") ;;;
       modify (bump set_failedTriggers)).

(** ** Responses *)

(** [async _routeResponse(triggerRecord, responseMessage)] *)
Definition _routeResponse (triggerRecord : TriggerRecord)
    (responseMessage : Message) : M World unit :=
  let originalMessage := tr_originalMessage triggerRecord in
  w <- get ;;
  targetConnection <-
    match truthy (tm_destination originalMessage) with
    | Some destination =>
        match Registry.getApp destination w with
        | Some targetApp =>
            if Registry.isActive targetApp w
            then ret (reg_connection targetApp)
            else throw "Destination app not found or inactive"
        | None => throw "Destination app not found or inactive"
        end
    | None => ret (tr_originConnection triggerRecord)
    end ;;
  match targetConnection with
  | None => throw "Target connection for response is not active"
  | Some c =>
      throw_if (negb (Transport.isActive c w))
        "Target connection for response is not active" ;;;
      success <- Transport.send c responseMessage ;;
      throw_if (negb success) "Failed to send response to target connection"
  end.

(** [async handleTriggerResponse(message, connection)] *)
Definition handleTriggerResponse (message : ResponseMessage)
  : M World unit :=
  match truthy (Some (str_or (rm_in_reply_to message)
                        (str_or (rm_correlation_id message) ""))) with
  | None => ret tt
  | Some triggerId =>
      w <- get ;;
      match rec_get triggerId (table w) with
      | None => ret tt
      | Some triggerRecord =>
          try_catch
            (_routeResponse triggerRecord (Response message) ;;;
             modify (bump set_successfulTriggers) ;;;
             _cleanupTriggerRecord (Some triggerId))
            (fun _ => modify (bump set_failedTriggers))
      end
  end.

(** [async _handleError(connection, message)] *)
Definition _handleError (message : ErrorMessage) : M World unit :=
  match truthy (em_in_reply_to message) with
  | None => ret tt
  | Some in_reply_to =>
      w <- get ;;
      match rec_get in_reply_to (table w) with
      | None => ret tt
      | Some triggerRecord =>
          _routeResponse triggerRecord (Error message) ;;;
          _cleanupTriggerRecord (tr_id triggerRecord) ;;;
          modify (bump set_failedTriggers)
      end
  end.

End Router.

(** ** Well-formedness and observations used in the statements *)

Module Invariants.
Import Protocol State.

(** The in-flight table as [createTriggerRecord] builds it: one entry per
    key, and every record is stored under its own [id]. *)
Definition wf_table (t : Router.records) : bool :=
  bool_decide (NoDup t.*1)
  && forallb (fun kr => bool_decide (tr_id kr.2 = Some kr.1)) t.

(** What has been written to connection [c]. *)
Definition sent (c : Z) (w : World) : list Message :=
  match conns w !! c with
  | Some conn => conn_sent conn
  | None => []
  end.

(** Connection [c] is open and its socket accepts writes. *)
Definition live (c : Z) (w : World) : bool :=
  match conns w !! c with
  | Some conn => conn_isActive conn && conn_writable conn
  | None => false
  end.

(** Connections are only written to: every connection keeps its flags
    and its sent messages, possibly followed by more. *)
Definition sent_grows (w w' : World) : Prop :=
  forall c,
    Transport.isActive c w' = Transport.isActive c w /\
    live c w' = live c w /\
    exists more, sent c w' = sent c w ++ more.

(** The part of the router that routing a trigger leaves alone: all but
    the round-robin cursors and the short-circuit counter. *)
Definition router_core (w : World) :=
  (Router.table w, defaultTTL (triggerRouter w),
   maxConcurrentTriggers (triggerRouter w),
   totalTriggers (stats (triggerRouter w)),
   successfulTriggers (stats (triggerRouter w)),
   failedTriggers (stats (triggerRouter w)),
   timeoutTriggers (stats (triggerRouter w))).

(** What routing a trigger leaves alone. *)
Definition outside_routing (w : World) :=
  (conns w, persistence w, poolManager w, appRegistry w, router_core w).

(** What loading a pool leaves alone. *)
Definition outside_pools (w : World) :=
  (conns w, persistence w, appRegistry w, triggerRouter w,
   security (poolManager w), appPoolMembership (poolManager w)).

(** Every record of [t'] is a record of [t] with the TTL it had there. *)
Definition ttl_kept (t t' : Router.records) : Prop :=
  forall id r,
    Router.rec_get id t' = Some r ->
    exists r0, Router.rec_get id t = Some r0 /\ tr_ttl r0 = tr_ttl r.

(** A step of the router that keeps the TTL of every record and the
    default TTL. *)
Definition keeps_ttl (w w' : World) : Prop :=
  ttl_kept (Router.table w) (Router.table w') /\
  defaultTTL (triggerRouter w') = defaultTTL (triggerRouter w).

(** The access test of [_checkPoolAccess] for joining a pool (permission
    [read]) on the pool's metadata. *)
Definition access_ok (pm : PoolManager) (metadata : PoolConfig)
    (appId poolName : string) : bool :=
  let policies := default Pools._getDefaultPolicies (pc_policies metadata) in
  let allowedApps := default [] (policy_get policies READ) in
  (if pc_encrypted metadata
   then match security pm with
        | Some sec => checkPoolAccess sec appId poolName READ
        | None => includes (default [] (policy_get policies ADMIN)) appId
        end
   else true)
  && (includes allowedApps "*" || includes allowedApps appId).

(** [appId] can join [poolName]: the pool is loaded and its policy lets
    the app in. *)
Definition joinable (appId poolName : string) (w : World) : Prop :=
  appId <> ""%string /\ poolName <> ""%string /\
  is_Some (pools (poolManager w) !! poolName) /\
  exists metadata,
    poolMetadata (poolManager w) !! poolName = Some metadata /\
    access_ok (poolManager w) metadata appId poolName = true.

(** The loaded pools stay loaded, with the metadata and the security
    module they had. *)
Definition pool_stable (w w' : World) : Prop :=
  security (poolManager w') = security (poolManager w) /\
  forall q, is_Some (pools (poolManager w) !! q) ->
    is_Some (pools (poolManager w') !! q) /\
    poolMetadata (poolManager w') !! q = poolMetadata (poolManager w) !! q.

(** What joining a pool leaves alone. *)
Definition outside_membership (w : World) :=
  (conns w, persistence w, appRegistry w, triggerRouter w).

(** What the registry's bookkeeping of a disconnection leaves alone. *)
Definition outside_registry (w : World) := (persistence w, poolManager w).

(** Cache entries are only added or replaced. *)
Definition cache_grows (w w' : World) : Prop :=
  forall a, is_Some (rehydrationCache (appRegistry w) !! a) ->
            is_Some (rehydrationCache (appRegistry w') !! a).


(** The candidate handlers of a trigger request (section 4.6.2, steps 4
    and 5): the named destination if it is registered, lists the trigger,
    is a member of the pool and is active; without a destination, the
    active apps indexed under the trigger name that are members of the
    pool. *)
Definition candidates (triggerName poolName : string)
    (destination : option string) (w : World) : list AppRegistration :=
  match truthy destination with
  | Some d =>
      filter (fun app =>
                includes (reg_triggers app) triggerName
                && Pools.validatePoolMembership d poolName w
                && Registry.isActive app w = true)
        (option_list (Registry.getApp d w))
  | None => Router.findTriggerHandlers triggerName poolName w
  end.

End Invariants.

(** ** Fixtures: the end-to-end scenarios *)

Module Scenarios.
Import Protocol State ServerFixtures.

Definition open_connection (c : Z) : World -> World :=
  set_conns (insert c {| conn_isActive := true; conn_writable := true;
                         conn_sent := [] |}).

Definition handshake (id app_id : string) (pools triggers : list string)
  : HandshakeMessage :=
  {| hs_id := Some id; hs_app_id := app_id; hs_pools := Some pools;
     hs_triggers := Some triggers; hs_metadata := Some ∅; hs_size := 200 |}.

Definition trigger (id name : string) (destination : option string)
    (ttl : option Z) : TriggerMessage :=
  {| tm_id := Some id; tm_trigger := Some name; tm_process := None;
     tm_pool := None; tm_destination := destination; tm_origin := None;
     tm_ttl := ttl; tm_payload := "{x:1}" |}.

Definition response (id in_reply_to : string) : ResponseMessage :=
  {| rm_id := Some id; rm_in_reply_to := Some in_reply_to;
     rm_correlation_id := None; rm_status := "success";
     rm_result := "{x:1}"; rm_error := None |}.

(** The router's listener on the registry, as [_setupEventListeners]
    installs it. *)
Definition disconnect (c : Z) (w : World) : World :=
  fst (Registry.handleDisconnection Router._handleAppDisconnection c
         (Transport._handleClose c w)).

Definition T1 : string := "0b0e7a52-9c1f-4b7e-8d3a-5f6e7d8c9b01".

(** App [A] handles ["echo"] on connection 1, app [B] has no triggers and
    is on connection 2; both are in pool [default]. *)
Definition two_apps : World :=
  fst (Registry.processHandshake 2 (handshake "h2" "B" ["default"] []) 2
    (fst (Registry.processHandshake 1
            (handshake "h1" "A" ["default"] ["echo"]) 1
            (open_connection 2 (open_connection 1 started_world))))).

(** Connections 1 and 3 are open and no app has registered. *)
Definition two_connections : World :=
  open_connection 3 (open_connection 1 started_world).

(** [A] has registered on connection 1 with pool [default] and trigger
    ["echo"]. *)
Definition A_registered : World :=
  fst (Registry.processHandshake 1
         (handshake "h1" "A" ["default"] ["echo"]) 1 two_connections).



(** [B] calls ["echo"] on [A] by name of the destination. *)
Definition echo_to_A : World :=
  fst (Router.handleTriggerRequest 3 (trigger T1 "echo" (Some "A") None) 2
         two_apps).

(** [B] calls ["echo"] without a destination. *)
Definition echo_routed : World :=
  fst (Router.handleTriggerRequest 3 (trigger T1 "echo" None None) 2
         two_apps).

(** The same, with the origin written onto the record through
    [updateTriggerRecord]. *)
Definition echo_tagged : World :=
  fst (Router.updateTriggerRecord T1
         {| Router.ru_dispatchedTo := None; Router.ru_completed := None;
            Router.ru_originAppId := Some "B"%string;
            Router.ru_origin := None |} echo_routed).

End Scenarios.

(** * Transport: frames on the wire *)

Module Framing.

(** [this.FRAME_HEADER_SIZE] and [this.MAX_FRAME_SIZE] of the transport. *)
Definition FRAME_HEADER_SIZE : Z := 4.
Definition MAX_FRAME_SIZE : Z := 16 * 1024 * 1024.

Definition byte_of_Z (n : Z) : Byte.byte :=
  default Byte.x00 (Byte.of_N (Z.to_N (n mod 256))).
Definition Z_of_byte (b : Byte.byte) : Z := Z.of_N (Byte.to_N b).

(** [lengthBuffer.writeUInt32BE(value, 0)] on a fresh buffer of four
    bytes; a value outside [0 .. 2^32 - 1] raises a [RangeError]. *)
Definition uint32BE (value : Z) : list Byte.byte :=
  [byte_of_Z (value / 2 ^ 24); byte_of_Z (value / 2 ^ 16);
   byte_of_Z (value / 2 ^ 8); byte_of_Z value].

Definition writeUInt32BE (value : Z) : option (list Byte.byte) :=
  if (0 <=? value) && (value <? 2 ^ 32) then Some (uint32BE value)
  else None.

(** [this.buffer.readUInt32BE(0)]; the loop of [_handleData] calls it on
    buffers of four bytes or more only. *)
Definition readUInt32BE (buf : list Byte.byte) : Z :=
  match buf with
  | b0 :: b1 :: b2 :: b3 :: _ =>
      Z_of_byte b0 * 2 ^ 24 + Z_of_byte b1 * 2 ^ 16
      + Z_of_byte b2 * 2 ^ 8 + Z_of_byte b3
  | _ => 0
  end.

(** The frame [Connection.send] hands to [socket.write] for the
    serialised payload, [Buffer.concat([lengthBuffer, payloadBuffer])];
    [None] when writing the length raises, and [send] returns [false]
    without writing. *)
Definition frame (payloadBuffer : list Byte.byte) : option (list Byte.byte) :=
  lengthBuffer ← writeUInt32BE (Memory.blen payloadBuffer);
  Some (lengthBuffer ++ payloadBuffer).

(** The bytes on the wire when [send] is called for each payload in
    turn. *)
Definition stream (payloads : list (list Byte.byte))
  : option (list Byte.byte) :=
  frames ← mapM frame payloads; Some (concat frames).

(** What [_handleData] passes to [this.emit('error', ...)]. *)
Inductive FrameError :=
  | FrameTooLarge (size : Z)
  | InvalidJSON (message : string).

(** The receiving side of a [Connection]: the bytes not yet consumed and
    the announced size of the frame being received. *)
Record Framer := {
  buffer : list Byte.byte;
  expectedFrameSize : option Z
}.

Definition fresh : Framer := {| buffer := []; expectedFrameSize := None |}.

Section HandleData.

(** The type of parsed messages and
    [JSON.parse(framePayload.toString('utf8'))]. *)
Variable Msg : Type.
Variable JSON_parse : list Byte.byte -> outcome Msg.

(** The events [_handleData] emits, in order. *)
Inductive Event :=
  | EvMessage (message : Msg)
  | EvError (error : FrameError).

(** The [while] loop of [_handleData]; every round that goes on has
    consumed a frame of four bytes or more, so [fuel] above the length of
    the buffer is never used up. *)
Fixpoint frames (fuel : nat) (c : Framer) : Framer * list Event :=
  match fuel with
  | O => (c, [])
  | S fuel =>
      if Memory.blen (buffer c) <? FRAME_HEADER_SIZE then (c, [])
      else
        let extract (size : Z) :=
          let c := {| buffer := buffer c; expectedFrameSize := Some size |} in
          let totalFrameSize := FRAME_HEADER_SIZE + size in
          if Memory.blen (buffer c) <? totalFrameSize then (c, [])
          else
            let framePayload :=
              Memory.slice (buffer c) FRAME_HEADER_SIZE totalFrameSize in
            let c :=
              {| buffer := Memory.slice (buffer c) totalFrameSize
                             (Memory.blen (buffer c));
                 expectedFrameSize := None |} in
            match JSON_parse framePayload with
            | Return message =>
                let '(c', events) := frames fuel c in
                (c', EvMessage message :: events)
            | Throw e => (c, [EvError (InvalidJSON e)])
            end in
        match expectedFrameSize c with
        | None =>
            let size := readUInt32BE (buffer c) in
            if size >? MAX_FRAME_SIZE
            then ({| buffer := buffer c; expectedFrameSize := Some size |},
                  [EvError (FrameTooLarge size)])
            else extract size
        | Some size => extract size
        end
  end.

(** [_handleData(data)] *)
Definition _handleData (data : list Byte.byte) (c : Framer)
  : Framer * list Event :=
  let c := {| buffer := buffer c ++ data;
              expectedFrameSize := expectedFrameSize c |} in
  frames (S (length (buffer c))) c.

(** The socket's [data] events, one chunk after the other. *)
Fixpoint feed (chunks : list (list Byte.byte)) (c : Framer)
  : Framer * list Event :=
  match chunks with
  | [] => (c, [])
  | data :: chunks =>
      let '(c1, events1) := _handleData data c in
      let '(c2, events2) := feed chunks c1 in
      (c2, events1 ++ events2)
  end.

End HandleData.

Arguments EvMessage {Msg} message.
Arguments EvError {Msg} error.

End Framing.

(** * Memory manager: locks *)

Module Locks.

(** [LockModes] *)
Definition READ : string := "read".
Definition WRITE : string := "write".
Definition EXCLUSIVE : string := "exclusive".

(** The lock object [lockMemoryBlock] stores. *)
Record Lock := {
  blockId : string;
  mode : string;
  acquired : Z;
  timeout : Z;
  lockId : string
}.

(** What the lock methods of the memory manager read and write:
    [this.locks] and [this.stats.totalLocks], and the timers that
    [lockMemoryBlock] has armed with [setTimeout] and that have not fired
    yet, each with the time at which it is due and the key it was armed
    for. *)
Record LockTable := {
  locks : gmap string Lock;
  totalLocks : Z;
  timers : list (Z * string)
}.

(** [`${block_id}:${mode}`] *)
Definition lockKey (block_id mode : string) : string :=
  block_id +:+ ":" +:+ mode.

(** [async lockMemoryBlock(block_id, mode, timeout)]; [uuid] is the value
    of [uuidv4()]. *)
Definition lockMemoryBlock (now : Z) (uuid : string)
    (block_id mode : string) (timeout : Z) : M LockTable string :=
  throw_if (bool_decide (block_id = ""%string)) "block_id is required" ;;;
  t <- get ;;
  throw_if (bool_decide (is_Some (locks t !! lockKey block_id mode)))
    ("Memory block '" +:+ block_id +:+ "' already locked in " +:+ mode
     +:+ " mode") ;;;
  let lock := {| blockId := block_id; mode := mode; acquired := now;
                 timeout := timeout; lockId := uuid |} in
  modify (fun t =>
    {| locks := <[lockKey block_id mode := lock]> (locks t);
       totalLocks := totalLocks t + 1;
       timers := timers t ++ [(now + timeout, lockKey block_id mode)] |}) ;;;
  ret (lockId lock).

(** The callback [lockMemoryBlock] hands to [setTimeout]:
    [if (this.locks.has(lockKey)) this.locks.delete(lockKey)]. *)
Definition lock_timer (lockKey : string) : M LockTable unit :=
  modify (fun t =>
    {| locks := delete lockKey (locks t);
       totalLocks := totalLocks t; timers := timers t |}).

(** The event loop at time [now]: the timers that are due fire in the
    order in which they were armed. *)
Definition run_timers (now : Z) : M LockTable unit :=
  t <- get ;;
  let due := filter (fun timer => timer.1 <= now) (timers t) in
  modify (fun t =>
    {| locks := locks t; totalLocks := totalLocks t;
       timers := filter (fun timer => ~ timer.1 <= now) (timers t) |}) ;;;
  for_each due (fun timer => lock_timer timer.2).

(** [async unlockMemoryBlock(block_id, mode)]; the timer of the lock is
    not cleared. *)
Definition unlockMemoryBlock (block_id mode : string) : M LockTable bool :=
  throw_if (bool_decide (block_id = ""%string)) "block_id is required" ;;;
  t <- get ;;
  match locks t !! lockKey block_id mode with
  | None =>
      throw ("No " +:+ mode +:+ " lock found for memory block '"
             +:+ block_id +:+ "'")
  | Some _ =>
      modify (fun t =>
        {| locks := delete (lockKey block_id mode) (locks t);
           totalLocks := totalLocks t; timers := timers t |}) ;;;
      ret true
  end.

(** [async tryLockMemoryBlock(block_id, mode, timeout)] *)
Definition tryLockMemoryBlock (now : Z) (uuid : string)
    (block_id mode : string) (timeout : Z) : M LockTable (option string) :=
  try_catch
    (lockId <- lockMemoryBlock now uuid block_id mode timeout ;;
     ret (Some lockId))
    (fun _ => ret None).

(** [_cleanupExpiredLocks()] at time [now] *)
Definition _cleanupExpiredLocks (now : Z) : M LockTable unit :=
  modify (fun t =>
    {| locks := filter (fun kl => ~ (now - acquired kl.2 > timeout kl.2))
                  (locks t);
       totalLocks := totalLocks t; timers := timers t |}).

(** No lock is held and no timer is armed. *)
Definition no_locks : LockTable :=
  {| locks := ∅; totalLocks := 0; timers := [] |}.

End Locks.

(** * Pool manager: removing pools, and the membership indexes *)

Module PoolAdmin.
Import Protocol State Pools.

(** Modelled from the spec: [persistence.removePool(name)] of the
    persistence layer ([persistence.js] is not among the sources), the
    delete by primary key of section 4.1. *)
Definition persistence_removePool (name : string) : M World unit :=
  modify (set_persistence (set_pool_rows (delete name))).

(** [this.defaultPools] *)
Definition defaultPools : list string := ["default"%string; "system"%string].

(** [getPoolMembers(pool_name)] for a non-empty [pool_name] *)
Definition getPoolMembers (pool_name : string) (w : World) : list string :=
  default [] (poolMembership (poolManager w) !! pool_name).

(** The loop of [removePool] over [this.appPoolMembership.entries()]:
    the pool leaves every app's set, and a set left empty is deleted. *)
Definition leave_all (name : string) (m : gmap string (list string))
  : gmap string (list string) :=
  omap (fun poolSet =>
          let poolSet := set_delete name poolSet in
          if bool_decide (poolSet = []) then None else Some poolSet) m.

(** [async removePool(name)].  [pool.cleanup()] destroys the memory
    blocks listed in the pool instance and clears its maps; the instance
    is dropped right after, and no pool of this model lists memory
    blocks. *)
Definition removePool (name : string) : M World bool :=
  throw_if (bool_decide (name = ""%string)) "Pool name is required" ;;;
  pm <- gets poolManager ;;
  match pools pm !! name with
  | None => ret false
  | Some _ =>
      throw_if (includes defaultPools name)
        ("Cannot delete default pool '" +:+ name +:+ "'") ;;;
      throw_if (match poolMembership pm !! name with
                | Some members => negb (bool_decide (members = []))
                | None => false
                end)
        ("Pool '" +:+ name
         +:+ "' has active members. Remove all members first.") ;;;
      persistence_removePool name ;;;
      modify (set_poolManager (fun pm =>
        set_appPoolMembership (leave_all name)
          (set_poolMembership (delete name)
             (set_poolMetadata (delete name)
                (set_pools (delete name) pm))))) ;;;
      ret true
  end.

(** The calls of the pool manager that touch pools and memberships. *)
Inductive PoolCall :=
  | CreatePool (now : Z) (name type : string) (encrypted : bool)
      (properties metadata : PoolProperties)
  | GetPool (name : string)
  | HasPool (poolName : string)
  | AddAppToPool (app_id pool_name : string)
  | RemoveAppFromPool (app_id pool_name : string)
  | RemovePool (name : string).

(** The state a call leaves behind, whether it returns or throws. *)
Definition after (c : PoolCall) (w : World) : World :=
  match c with
  | CreatePool now name type encrypted properties metadata =>
      fst (createPool now name type encrypted properties metadata w)
  | GetPool name => fst (getPool name w)
  | HasPool poolName => fst (hasPool poolName w)
  | AddAppToPool app_id pool_name => fst (addAppToPool app_id pool_name w)
  | RemoveAppFromPool app_id pool_name =>
      fst (removeAppFromPool app_id pool_name w)
  | RemovePool name => fst (removePool name w)
  end.

(** The membership indexes agree: an app lists a pool exactly when the
    pool lists the app, a loaded pool instance has the members the index
    gives it, only loaded pools have members, and no app is kept with an
    empty set of pools. *)
Definition members_agree (w : World) : Prop :=
  let pm := poolManager w in
  (forall a p, p ∈ default [] (appPoolMembership pm !! a)
               <-> a ∈ default [] (poolMembership pm !! p)) /\
  (forall p pool a, pools pm !! p = Some pool ->
     (a ∈ pool_members pool <-> a ∈ default [] (poolMembership pm !! p))) /\
  (forall p a, a ∈ default [] (poolMembership pm !! p) ->
     is_Some (pools pm !! p)) /\
  (forall a, appPoolMembership pm !! a <> Some []).

End PoolAdmin.

(** * App registry: removing an app *)

Module RegistryAdmin.
Import Protocol State Registry.

(** [async removeApp(app_id)]; the [catch] logs and rethrows.
    [listeners] are the handlers subscribed to the registry's
    [app_removed] event. *)
Definition removeApp (listeners : string -> M World unit) (app_id : string)
  : M World bool :=
  w <- get ;;
  match getApp app_id w with
  | None => ret false
  | Some registration =>
      for_each (reg_pools registration) (fun poolName =>
        Pools.removeAppFromPool app_id poolName ;;; ret tt) ;;;
      modify (remove_mappings app_id (reg_triggers registration)) ;;;
      modify (set_appRegistry (set_apps (delete app_id))) ;;;
      match reg_connection registration with
      | Some c => modify (set_appRegistry (set_connections (delete c)))
      | None => ret tt
      end ;;;
      modify (set_appRegistry (set_rehydrationCache (delete app_id))) ;;;
      modify (set_appRegistry (set_lastSeenApps (delete app_id))) ;;;
      PersistenceLayer.removeApp app_id ;;;
      listeners app_id ;;;
      ret true
  end.

(** The registration object after [updateApp] has assigned the [updates]
    to it. *)
Definition updated (updates : Updates) (r : AppRegistration)
  : AppRegistration :=
  let r := match upd_pools updates with
           | Some pools => reg_with_pools pools r
           | None => r
           end in
  let r := match upd_triggers updates with
           | Some triggers => reg_with_triggers triggers r
           | None => r
           end in
  match upd_metadata updates with
  | Some metadata => reg_with_meta (metadata ∪ reg_meta r) r
  | None => r
  end.

(** What [updateApp] of [app_id] leaves alone: the connection objects, the
    index from connection ids to apps, and [registration.connection]. *)
Definition bound_connection (app_id : string) (w : World) :=
  (conns w, connections (appRegistry w),
   reg_connection <$> getApp app_id w).

End RegistryAdmin.

(** * Trigger router: expiry and selection *)

Module RouterAdmin.
Import Protocol State Router.

(** [TriggerRecord.isExpired()] at time [now] *)
Definition isExpired (now : Z) (record : TriggerRecord) : bool :=
  now - tr_created record >? tr_ttl record.

(** [_cleanupExpiredRecords()] at time [now], the body of the cleanup
    interval; its test, [now - record.created > record.ttl], is that of
    [isExpired]. *)
Definition _cleanupExpiredRecords (now : Z) : M World unit :=
  w <- get ;;
  let expiredRecords :=
    filter (fun record => isExpired now record = true)
      (rec_values (table w)) in
  for_each expiredRecords _timeoutTriggerRecord.

(** The [n]th of the timers pending on a record outside the table fires:
    the callback [() => this._timeoutTriggerRecord(triggerRecord)] that
    [_setTriggerTimeout] armed runs. *)
Definition fire_detached (n : nat) : M World unit :=
  w <- get ;;
  match detachedTimers (triggerRouter w) !! n with
  | Some triggerRecord =>
      modify (set_triggerRouter (set_detachedTimers (delete n))) ;;;
      _timeoutTriggerRecord triggerRecord
  | None => ret tt
  end.

(** [n] calls of [_selectRoundRobin(handlers)] in a row, with what they
    selected. *)
Fixpoint select_in_turn (n : nat) (handlers : list AppRegistration)
  : M World (list (option AppRegistration)) :=
  match n with
  | O => ret []
  | S n =>
      selected <- _selectRoundRobin handlers ;;
      rest <- select_in_turn n handlers ;;
      ret (selected :: rest)
  end.

(** The counter [_selectRoundRobin] keeps for a list of handlers:
    [this.roundRobinCounters.get(triggerName)], 0 before the first
    selection. *)
Definition cursor (handlers : list AppRegistration) (w : World) : Z :=
  default 0
    (roundRobinCounters (triggerRouter w)
       !! str_or (head handlers ≫= (fun h => head (reg_triggers h)))
            "default").

(** The registrations of [A] and [B] in [Scenarios.two_apps]. *)
Definition A_and_B : list AppRegistration :=
  omap (fun appId => Registry.getApp appId Scenarios.two_apps) ["A"; "B"]%string.

(** [Scenarios.two_apps] with a socket of connection [c] whose [write]
    throws. *)
Definition stalled (c : Z) : World :=
  set_conns (alter (fun conn =>
    {| conn_isActive := conn_isActive conn; conn_writable := false;
       conn_sent := conn_sent conn |}) c) Scenarios.two_apps.

End RouterAdmin.

(** * Part II: properties *)

(** ** Stateful calls *)

Module CallFacts.

(** Inversion of the monadic steps. *)
Lemma bind_Return {S A B} (c : M S A) (k : A -> M S B) s s' b :
  bind c k s = (s', Return b) ->
  exists s1 a, c s = (s1, Return a) /\ k a s1 = (s', Return b).
Proof.
  unfold bind. destruct (c s) as [s1 [a|e]]; intros H; [eauto | discriminate].
Qed.

Lemma throw_if_Return {S} cond message (s s' : S) u :
  throw_if cond message s = (s', Return u) -> cond = false /\ s' = s.
Proof. destruct cond; cbn; intros H; inversion H; auto. Qed.

Lemma throw_if_bind {S A} cond message (k : M S A) s :
  bind (throw_if cond message) (fun _ => k) s
    = if cond then (s, Throw message) else k s.
Proof. unfold bind, throw_if. by destruct cond. Qed.

Lemma gets_bind {S A B} (f : S -> A) (k : A -> M S B) s :
  bind (gets f) k s = k (f s) s.
Proof. reflexivity. Qed.

Lemma get_bind {S B} (k : S -> M S B) (s : S) : bind get k s = k s s.
Proof. reflexivity. Qed.

Lemma ret_bind {S A B} (a : A) (k : A -> M S B) s : bind (ret a) k s = k a s.
Proof. reflexivity. Qed.

Lemma modify_bind {S B} (f : S -> S) (k : M S B) s :
  bind (modify f) (fun _ => k) s = k (f s).
Proof. reflexivity. Qed.

Lemma bind_assoc {S A B C} (c : M S A) (k : A -> M S B) (h : B -> M S C) s :
  bind (bind c k) h s = bind c (fun a => bind (k a) h) s.
Proof. unfold bind. destruct (c s) as [s1 [a|e]]; reflexivity. Qed.

Lemma bind_Throw {S A B} (c : M S A) (k : A -> M S B) s s' e :
  bind c k s = (s', Throw e) ->
  c s = (s', Throw e) \/
  exists s1 a, c s = (s1, Return a) /\ k a s1 = (s', Throw e).
Proof.
  unfold bind. destruct (c s) as [s1 [a|e']]; intros H; [eauto|].
  inversion H; subst. by left.
Qed.

(** *** Frame conditions

    [preserves R c]: whatever [c] returns or throws, the state it leaves
    is related by [R] to the state it started from. *)
Definition preserves {S A} (R : S -> S -> Prop) (c : M S A) : Prop :=
  forall s s' o, c s = (s', o) -> R s s'.

(** [same f]: the part [f] of the state is unchanged. *)
Definition same {S B} (f : S -> B) : S -> S -> Prop :=
  fun s s' => f s' = f s.

#[global] Instance same_preorder {S B} (f : S -> B) : PreOrder (same f).
Proof.
  split; [intros s; reflexivity|].
  intros s1 s2 s3 H1 H2. unfold same in *. congruence.
Qed.

Section Preserves.
Context {S : Type} (R : S -> S -> Prop) `{!PreOrder R}.

Lemma preserves_ret {A} (a : A) : preserves R (ret a).
Proof. intros s s' o [= <- _]. reflexivity. Qed.

Lemma preserves_throw {A} e : preserves R (@throw S A e).
Proof. intros s s' o [= <- _]. reflexivity. Qed.

Lemma preserves_get : preserves R get.
Proof. intros s s' o [= <- _]. reflexivity. Qed.

Lemma preserves_gets {A} (f : S -> A) : preserves R (gets f).
Proof. intros s s' o [= <- _]. reflexivity. Qed.

Lemma preserves_throw_if cond e : preserves R (throw_if cond e).
Proof. destruct cond; [apply preserves_throw | apply preserves_ret]. Qed.

Lemma preserves_modify f : (forall s, R s (f s)) -> preserves R (modify f).
Proof. intros Hf s s' o [= <- _]. apply Hf. Qed.

Lemma preserves_bind {A B} (c : M S A) (k : A -> M S B) :
  preserves R c -> (forall a, preserves R (k a)) -> preserves R (bind c k).
Proof.
  intros Hc Hk s s' o. unfold bind.
  destruct (c s) as [s1 [a|e]] eqn:Hcs; intros H.
  - etrans; [eapply Hc, Hcs | eapply Hk, H].
  - inversion H; subst. eapply Hc, Hcs.
Qed.

Lemma preserves_try_catch {A} (c : M S A) h :
  preserves R c -> (forall e, preserves R (h e)) ->
  preserves R (try_catch c h).
Proof.
  intros Hc Hh s s' o. unfold try_catch.
  destruct (c s) as [s1 [a|e]] eqn:Hcs; intros H.
  - inversion H; subst. eapply Hc, Hcs.
  - etrans; [eapply Hc, Hcs | eapply Hh, H].
Qed.

Lemma preserves_for_each {A} (l : list A) body :
  (forall x, preserves R (body x)) -> preserves R (for_each l body).
Proof.
  intros Hb. induction l as [|x l IH]; cbn.
  - apply preserves_ret.
  - apply preserves_bind; [apply Hb | by intros _].
Qed.

End Preserves.

(** Decompose a computation along its binds and case distinctions. *)
Ltac preserves_step :=
  lazymatch goal with
  | |- preserves _ (bind _ _) =>
      apply preserves_bind; try exact _; [|intros ?]
  | |- preserves _ (ret _) => apply preserves_ret; exact _
  | |- preserves _ (throw _) => apply preserves_throw; exact _
  | |- preserves _ get => apply preserves_get; exact _
  | |- preserves _ (gets _) => apply preserves_gets; exact _
  | |- preserves _ (throw_if _ _) => apply preserves_throw_if; exact _
  | |- preserves _ (try_catch _ _) =>
      apply preserves_try_catch; try exact _; [|intros ?]
  | |- preserves _ (for_each _ _) =>
      apply preserves_for_each; try exact _; intros ?
  | |- preserves _ (modify _) =>
      apply preserves_modify; intros ?; try reflexivity
  | |- preserves _ (match ?x with _ => _ end) => destruct x
  | |- preserves _ (let _ := _ in _) => cbv zeta
  end.

Ltac solve_preserves := repeat preserves_step.

End CallFacts.

(** ** The memory manager *)

Module MemoryFacts.
Import CallFacts Memory MemoryFixtures.

(** *** Writes *)

(** A write that returns has copied the data inside the buffer and has
    bumped the version by one. *)
Lemma write_Return now fs_ok offset data b b' r :
  write now fs_ok offset data b = (b', Return r) ->
  exists buf,
    buffer b = Some buf /\
    0 <= offset /\ offset + blen data <= blen buf /\
    buffer b' = Some (copy_into data buf offset) /\
    version (config b') = version (config b) + 1.
Proof.
  unfold write. cbn.
  destruct (buffer b) as [buf|] eqn:Hbuf; [|discriminate].
  destruct (offset + blen data >? blen buf) eqn:Hbound; [discriminate|].
  destruct (offset <? 0) eqn:Hneg; [discriminate|].
  destruct (negb (usesMmap b) && negb fs_ok); [discriminate|].
  intros H. inversion H; subst; clear H. cbn.
  exists buf. repeat split; lia.
Qed.

(** A write that throws leaves the version alone. *)
Lemma write_Throw now fs_ok offset data b b' e :
  write now fs_ok offset data b = (b', Throw e) ->
  version (config b') = version (config b).
Proof.
  unfold write. cbn.
  destruct (buffer b) as [buf|]; [|by intros [= <- _]].
  destruct (offset + blen data >? blen buf); [by intros [= <- _]|].
  destruct (offset <? 0); [by intros [= <- _]|].
  destruct (negb (usesMmap b) && negb fs_ok); [by intros [= <- _]|].
  discriminate.
Qed.

(** A read never touches the configuration. *)
Lemma read_config now offset len b b' o :
  read now offset len b = (b', o) -> config b' = config b.
Proof.
  unfold read. cbn. destruct (buffer b) as [buf|]; [|by intros [= <- _]].
  destruct (_ >? _); by intros [= <- _].
Qed.

Lemma write_all_version now ws : forall b b' n,
  write_all now ws b = (b', n) ->
  version (config b') = version (config b) + n /\ 0 <= n.
Proof.
  induction ws as [|[[offset data] fs_ok] ws IH]; intros b b' n; cbn.
  - intros [= <- <-]. lia.
  - destruct (write now fs_ok offset data b) as [b1 o] eqn:Hw.
    destruct (write_all now ws b1) as [b2 k] eqn:Hws.
    intros [= <- <-]. destruct (IH _ _ _ Hws) as [Hv Hk].
    destruct o as [r|e]; cbn.
    + apply write_Return in Hw as (buf & _ & _ & _ & _ & Hv1). lia.
    + apply write_Throw in Hw. lia.
Qed.

(** *** Compare-and-swap *)

Lemma swap_if_equal_success now fs_ok offset expected new_value b b' r :
  swap_if_equal now fs_ok offset expected new_value b = (b', Return r) ->
  success r = true ->
  version (config b') = version (config b) + 1.
Proof.
  unfold swap_if_equal. intros H Hs.
  apply bind_Return in H as (b1 & cur & Hread & H).
  apply read_config in Hread.
  destruct (negb (equals cur expected)).
  - inversion H; subst. discriminate.
  - apply bind_Return in H as (b2 & w & Hwrite & H).
    inversion H; subst.
    apply write_Return in Hwrite as (buf & _ & _ & _ & _ & Hv).
    rewrite Hv, Hread. reflexivity.
Qed.

Lemma on_block_Return {A} block_id block (method : M MemoryBlock A) m m' a :
  on_block block_id block method m = (m', Return a) ->
  exists block', method block = (block', Return a) /\
                 blocks m' !! block_id = Some block'.
Proof.
  unfold on_block. destruct (method block) as [block' o].
  intros [= <- ->]. exists block'. split; [done|].
  cbn. apply lookup_insert_eq.
Qed.

Lemma attach_Return persistence initialize now block_id m m0 block :
  attachMemoryBlock persistence initialize now block_id m
    = (m0, Return block) ->
  blocks m0 !! block_id = Some block.
Proof.
  unfold attachMemoryBlock. intros H.
  apply bind_Return in H as (m1 & u & Hid & H).
  apply throw_if_Return in Hid as [_ ->].
  apply bind_Return in H as (m2 & m3 & Hget & H).
  inversion Hget; subst; clear Hget.
  destruct (blocks m3 !! block_id) as [b|] eqn:Hb.
  - inversion H; subst. done.
  - destruct persistence as [g|]; [|discriminate].
    destruct (g block_id) as [metadata|]; [|discriminate].
    cbn in H. inversion H; subst. cbn. apply lookup_insert_eq.
Qed.

(** Attaching a block a second time returns the registered object and
    leaves the manager as it is. *)
Lemma attach_registered persistence initialize now block_id m block :
  blocks m !! block_id = Some block ->
  block_id <> ""%string ->
  attachMemoryBlock persistence initialize now block_id m
    = (m, Return block).
Proof.
  intros Hb Hne. unfold attachMemoryBlock, bind, throw_if.
  rewrite bool_decide_eq_false_2 by done. cbn. by rewrite Hb.
Qed.

Lemma attach_nonempty persistence initialize now block_id m m0 block :
  attachMemoryBlock persistence initialize now block_id m
    = (m0, Return block) ->
  block_id <> ""%string.
Proof.
  unfold attachMemoryBlock. intros H.
  apply bind_Return in H as (m1 & u & Hid & _).
  apply throw_if_Return in Hid as [Hid _].
  by apply bool_decide_eq_false_1 in Hid.
Qed.

Lemma compareAndSwap_success persistence initialize now fs_ok block_id
    offset expected new_value m m0 block m' r :
  attachMemoryBlock persistence initialize now block_id m
    = (m0, Return block) ->
  compareAndSwap persistence initialize now fs_ok block_id offset expected
    new_value m = (m', Return r) ->
  success r = true ->
  exists block',
    blocks m' !! block_id = Some block' /\
    version (config block') = version (config block) + 1.
Proof.
  intros Hatt Hcas Hs. unfold compareAndSwap in Hcas.
  apply bind_Return in Hcas as (m1 & b1 & Hatt' & Hcas).
  rewrite Hatt in Hatt'. inversion Hatt'; subst; clear Hatt'.
  apply on_block_Return in Hcas as (block' & Hswap & Hlook).
  exists block'. split; [done|].
  eapply swap_if_equal_success; eauto.
Qed.

Lemma writeMemoryBlock_Return persistence initialize now fs_ok block_id
    offset data m m0 block m' w :
  attachMemoryBlock persistence initialize now block_id m
    = (m0, Return block) ->
  writeMemoryBlock persistence initialize now fs_ok block_id offset data m
    = (m', Return w) ->
  exists block',
    blocks m' !! block_id = Some block' /\
    version (config block') = version (config block) + 1.
Proof.
  intros Hatt Hw. unfold writeMemoryBlock in Hw.
  apply bind_Return in Hw as (m1 & b1 & Hatt' & Hw).
  rewrite Hatt in Hatt'. inversion Hatt'; subst; clear Hatt'.
  apply bind_Return in Hw as (m2 & u & Hmod & Hw).
  apply on_block_Return in Hw as (block' & Hwrite & Hlook).
  exists block'. split; [done|].
  by apply write_Return in Hwrite as (buf & _ & _ & _ & _ & Hv).
Qed.

(** C7.  Each write that returns adds exactly one to the block's version,
    so after any sequence of writes the version has grown by the number
    of those that returned (and strictly if one did); a compare-and-swap
    that succeeds performs one write and adds one; a write followed by a
    successful compare-and-swap adds two. *)
Theorem C7_version_counts_successful_writes :
  (forall now fs_ok offset data b b' r,
      write now fs_ok offset data b = (b', Return r) ->
      version (config b') = version (config b) + 1)
  /\ (forall now ws b b' n,
      write_all now ws b = (b', n) ->
      version (config b') = version (config b) + n /\
      (0 < n -> version (config b) < version (config b')))
  /\ (forall persistence initialize now fs_ok block_id offset expected
             new_value m m0 block m' r,
      attachMemoryBlock persistence initialize now block_id m
        = (m0, Return block) ->
      compareAndSwap persistence initialize now fs_ok block_id offset
        expected new_value m = (m', Return r) ->
      success r = true ->
      exists block',
        blocks m' !! block_id = Some block' /\
        version (config block') = version (config block) + 1)
  /\ (forall persistence initialize now fs_ok block_id offset data offset'
             expected new_value m m0 block m1 w m2 r,
      attachMemoryBlock persistence initialize now block_id m
        = (m0, Return block) ->
      writeMemoryBlock persistence initialize now fs_ok block_id offset
        data m = (m1, Return w) ->
      compareAndSwap persistence initialize now fs_ok block_id offset'
        expected new_value m1 = (m2, Return r) ->
      success r = true ->
      exists block2,
        blocks m2 !! block_id = Some block2 /\
        version (config block2) = version (config block) + 2).
Proof.
  split; [|split; [|split]].
  - intros now fs_ok offset data b b' r H.
    by apply write_Return in H as (buf & _ & _ & _ & _ & Hv).
  - intros now ws b b' n H. apply write_all_version in H. lia.
  - intros. eapply compareAndSwap_success; eauto.
  - intros persistence initialize now fs_ok block_id offset data offset'
      expected new_value m m0 block m1 w m2 r Hatt Hw Hcas Hs.
    pose proof (attach_nonempty _ _ _ _ _ _ _ Hatt) as Hne.
    destruct (writeMemoryBlock_Return _ _ _ _ _ _ _ _ _ _ _ _ Hatt Hw)
      as (block1 & Hlook1 & Hv1).
    pose proof (attach_registered persistence initialize now _ _ _ Hlook1 Hne)
      as Hatt1.
    destruct (compareAndSwap_success _ _ _ _ _ _ _ _ _ _ _ _ _
                Hatt1 Hcas Hs) as (block2 & Hlook2 & Hv2).
    exists block2. split; [done | lia].
Qed.

(** The compare-and-swap scenario: block [m] of 16 bytes, ["hello"]
    written at offset 0, then swapped for ["world"]. *)
Lemma C7_witness :
  exists block2,
    blocks (fst (compareAndSwap None (fun _ => (zeros 16, false)) 5 true
                   "m" 0 hello world
                   (fst (writeMemoryBlock None (fun _ => (zeros 16, false))
                           5 true "m" 0 hello
                           (manager_m _getDefaultPermissions (zeros 16))))))
      !! "m"%string = Some block2 /\
    version (config block2)
      = version (config (block_m _getDefaultPermissions (zeros 16))) + 2.
Proof.
  destruct C7_version_counts_successful_writes as (_ & _ & _ & H).
  eapply (H None (fun _ => (zeros 16, false)) 5 true "m"%string 0 hello 0
            hello world (manager_m _getDefaultPermissions (zeros 16))).
  - vm_compute. reflexivity.
  - vm_compute. reflexivity.
  - vm_compute. reflexivity.
  - vm_compute. reflexivity.
Defined.

(** *** Permission checks *)

(** The bytes a read returns and the effect of a write do not depend on
    the block's permission map. *)
Lemma read_ignores_permissions now offset len p b :
  snd (read now offset len (with_permissions p b))
    = snd (read now offset len b).
Proof.
  unfold read. cbn. destruct (buffer b) as [buf|]; [|done].
  by destruct (_ >? _).
Qed.

Lemma write_ignores_permissions now fs_ok offset data p b :
  snd (write now fs_ok offset data (with_permissions p b))
    = snd (write now fs_ok offset data b) /\
  buffer (fst (write now fs_ok offset data (with_permissions p b)))
    = buffer (fst (write now fs_ok offset data b)).
Proof.
  unfold write. cbn. destruct (buffer b) as [buf|]; [|done].
  destruct (_ >? _); [done|]. destruct (_ <? _); [done|].
  by destruct (negb (usesMmap b) && negb fs_ok).
Qed.

(** The message handler does refuse an app that the permission map does
    not list: [validateAccess] runs before the block is touched. *)
Lemma handleMemoryMessage_denied persistence initialize now fs_ok block_id
    operation app_id m block p :
  blocks m !! block_id = Some block ->
  block_id <> ""%string ->
  permissions (config block) = Some p ->
  (let allowed :=
     default [] (perm_get p
       match operation with OpRead _ _ => READ | OpWrite _ _ => WRITE end) in
   includes allowed "*" = false /\ includes allowed app_id = false) ->
  handleMemoryMessage persistence initialize now fs_ok block_id operation
    app_id m = (m, Throw "Access denied").
Proof.
  intros Hb Hne Hp [Hstar Happ].
  unfold handleMemoryMessage, validateAccess, checkPermission,
    getBlockPermissions, getMemoryBlock, bind, throw_if, get, ret, throw.
  rewrite bool_decide_eq_false_2 by done.
  destruct operation; cbn; rewrite Hb; cbn; rewrite Hp; cbn;
    cbn in Hstar, Happ; by rewrite Hstar, Happ.
Qed.

(** C6 (the code does not do this).  A block whose [read] and [write]
    lists hold only ["owner"] is read and written all the same:
    [MemoryBlock.read] and [MemoryBlock.write] call [_checkAccess] and
    drop its answer, and [MemoryManager.readMemoryBlock],
    [writeMemoryBlock] and [compareAndSwap] make no check of their own. *)
Theorem C6_block_access_unchecked :
  let b := block_m owner_only (hello ++ zeros 11) in
  _checkAccess READ b = false /\
  _checkAccess WRITE b = false /\
  snd (read 5 (Some 0) (Some 5) b) = Return hello /\
  snd (write 5 true 0 world b) = Return true /\
  buffer (fst (write 5 true 0 world b)) = Some (world ++ zeros 11) /\
  snd (readMemoryBlock None (fun _ => (zeros 16, false)) 5 "m" (Some 0)
         (Some 5) (manager_m owner_only (hello ++ zeros 11)))
    = Return hello.
Proof. vm_compute. repeat split; reflexivity. Qed.

(** *** Boundary behaviour *)

Lemma copy_into_nil buf offset : 0 <= offset -> copy_into [] buf offset = buf.
Proof.
  intros _. unfold copy_into. rewrite take_nil. cbn.
  rewrite Nat.add_0_r. apply take_drop.
Qed.

Lemma slice_empty_at_end buf : slice buf (blen buf) (blen buf) = [].
Proof. unfold slice. by rewrite Z.leb_refl. Qed.

(** C8, as the claim has it, fails: a zero-byte write is counted as a
    write.  Block [m] starts at version 1 and is at version 2 after
    writing no bytes at offset 0. *)
Lemma C8_zero_byte_write_bumps_version :
  let b := block_m _getDefaultPermissions (zeros 16) in
  snd (write 5 true 0 [] b) = Return true /\
  version (config b) = 1 /\
  version (config (fst (write 5 true 0 [] b))) = 2 /\
  version (config (fst (write 5 true 0 [] b))) <> version (config b).
Proof. vm_compute. repeat split; congruence. Qed.

(** C8, amended.  On an initialised block whose buffer holds [s] bytes:
    a read at offset [s] without a length returns no bytes; a write of
    one or more bytes at offset [s] throws and changes neither the bytes
    nor the version; a write of zero bytes at an offset within the block
    (when the backing file can be written) returns, leaves the bytes as
    they are, and adds one to the version. *)
Theorem C8_boundary_reads_and_writes now fs_ok b buf data offset :
  buffer b = Some buf ->
  data <> [] ->
  0 <= offset <= blen buf ->
  usesMmap b = true \/ fs_ok = true ->
  snd (read now (Some (blen buf)) None b) = Return []
  /\ (snd (write now fs_ok (blen buf) data b)
        = Throw "Write beyond buffer bounds"
      /\ buffer (fst (write now fs_ok (blen buf) data b)) = Some buf
      /\ version (config (fst (write now fs_ok (blen buf) data b)))
           = version (config b))
  /\ (snd (write now fs_ok offset [] b) = Return true
      /\ buffer (fst (write now fs_ok offset [] b)) = Some buf
      /\ version (config (fst (write now fs_ok offset [] b)))
           = version (config b) + 1).
Proof.
  intros Hbuf Hdata Hoff Hio. split; [|split].
  - unfold read. cbn. rewrite Hbuf. cbn.
    rewrite Z.sub_diag. cbn. rewrite Z.add_0_r.
    replace (blen buf >? blen buf) with false by (symmetry; lia).
    by rewrite slice_empty_at_end.
  - unfold write. cbn. rewrite Hbuf.
    assert (0 < blen data) as Hpos.
    { unfold blen. destruct data; [done | cbn; lia]. }
    replace (blen buf + blen data >? blen buf) with true
      by (symmetry; lia).
    cbn. by rewrite Hbuf.
  - unfold write. cbn. rewrite Hbuf.
    change (blen []) with 0. rewrite Z.add_0_r.
    replace (offset >? blen buf) with false by (symmetry; lia).
    replace (offset <? 0) with false by (symmetry; lia).
    rewrite copy_into_nil by lia.
    assert (negb (usesMmap b) && negb fs_ok = false) as ->.
    { destruct Hio as [-> | ->]; [done | by rewrite andb_false_r]. }
    done.
Qed.

Lemma C8_witness :
  let b := block_m _getDefaultPermissions (zeros 16) in
  snd (read 5 (Some 16) None b) = Return []
  /\ (snd (write 5 true 16 hello b) = Throw "Write beyond buffer bounds"
      /\ buffer (fst (write 5 true 16 hello b)) = Some (zeros 16)
      /\ version (config (fst (write 5 true 16 hello b)))
           = version (config b))
  /\ (snd (write 5 true 3 [] b) = Return true
      /\ buffer (fst (write 5 true 3 [] b)) = Some (zeros 16)
      /\ version (config (fst (write 5 true 3 [] b)))
           = version (config b) + 1).
Proof.
  apply (C8_boundary_reads_and_writes 5 true
           (block_m _getDefaultPermissions (zeros 16)) (zeros 16) hello 3).
  - reflexivity.
  - discriminate.
  - vm_compute. split; discriminate.
  - right. reflexivity.
Defined.

End MemoryFacts.

(** ** The pool manager *)

Module PoolFacts.
Import CallFacts Protocol State Pools ServerFixtures.

(** Validating a configuration reads nothing and writes nothing. *)
Lemma _validatePoolConfig_state {S} config (s s' : S) o :
  _validatePoolConfig config s = (s', o) -> s' = s.
Proof.
  unfold _validatePoolConfig.
  repeat (rewrite throw_if_bind;
          match goal with |- context [if ?c then _ else _] =>
            destruct c end; [by intros [= <- _]|]).
  unfold throw_if. destruct (_ && _); by intros [= <- _].
Qed.

Lemma _prepareEncryptedPool_state poolName poolConfig w w' o :
  _prepareEncryptedPool poolName poolConfig w = (w', o) -> w' = w.
Proof.
  unfold _prepareEncryptedPool.
  destruct (negb (pc_encrypted poolConfig)); [by intros [= <- _]|].
  rewrite gets_bind. destruct (security (poolManager w)) as [sec|].
  - destruct (prepareEncryptedPool sec poolName poolConfig) as [[k a]|e];
      by intros [= <- _].
  - by intros [= <- _].
Qed.

(** C10.  [createPool] called with the encrypted flag set, or with type
    ['encrypted'] (which sets the flag), throws, and the server state
    (the pool maps, the memberships and the persisted rows) is left as it
    was. *)
Theorem C10_encrypted_createPool_throws now name type encrypted properties
    metadata w :
  encrypted = true \/ type = ENCRYPTED ->
  exists e,
    createPool now name type encrypted properties metadata w
      = (w, Throw e).
Proof.
  intros Henc. unfold createPool.
  rewrite throw_if_bind. destruct (bool_decide (name = "")); [by eauto|].
  rewrite gets_bind, throw_if_bind.
  destruct (bool_decide (is_Some _)); [by eauto|].
  rewrite throw_if_bind. destruct (negb (validatePoolType type)); [by eauto|].
  assert ((if bool_decide (type = ENCRYPTED) && negb encrypted
           then true else encrypted) = true) as ->.
  { destruct Henc as [-> | ->]; [by rewrite andb_false_r|].
    rewrite bool_decide_eq_true_2 by done. by destruct encrypted. }
  set (poolConfig := spread _ metadata).
  unfold bind at 1.
  destruct (_validatePoolConfig poolConfig w) as [w1 [u|e]] eqn:Hval;
    apply _validatePoolConfig_state in Hval as ->; [|by eauto].
  unfold bind.
  destruct (_prepareEncryptedPool name poolConfig w) as [w1 [c|e]] eqn:Hprep;
    apply _prepareEncryptedPool_state in Hprep as ->; by eauto.
Qed.

Lemma C10_witness :
  exists e,
    createPool 7 "vault" ENCRYPTED false no_properties no_properties
      started_world = (started_world, Throw e).
Proof.
  apply (C10_encrypted_createPool_throws 7 "vault" ENCRYPTED false
           no_properties no_properties started_world).
  right. reflexivity.
Defined.

End PoolFacts.

(** ** Frame conditions of the pool manager, the registry and the router *)

Module Frames.
Import CallFacts Protocol State.

(** The pool manager never touches the registry, the router or the
    connections. *)
Lemma getPool_registry name : preserves (same appRegistry) (Pools.getPool name).
Proof. unfold Pools.getPool, PersistenceLayer.getPool, Pools.load_pool. solve_preserves. Qed.

End Frames.

(** ** The in-flight table *)

Module TableFacts.
Import CallFacts Protocol State Router Invariants.

Lemma rec_get_elem_of id r (t : records) :
  rec_get id t = Some r -> (id, r) ∈ t.
Proof.
  induction t as [|[k r'] t IH]; cbn; [done|].
  case_bool_decide as Hk.
  - intros [= ->]. subst. apply elem_of_cons. by left.
  - intros H. apply elem_of_cons. right. by apply IH.
Qed.

Lemma rec_get_NoDup id r (t : records) :
  NoDup t.*1 -> (id, r) ∈ t -> rec_get id t = Some r.
Proof.
  induction t as [|[k r'] t IH]; cbn.
  - intros _ H. by apply elem_of_nil in H.
  - intros Hnd H. apply NoDup_cons in Hnd as [Hk Hnd].
    apply elem_of_cons in H as [[= -> ->]|H].
    + by rewrite bool_decide_eq_true_2.
    + case_bool_decide as Heq.
      * subst. exfalso. apply Hk. apply list_elem_of_fmap.
        by exists (id, r).
      * by apply IH.
Qed.

Lemma rec_get_delete_eq id (t : records) : rec_get id (rec_delete id t) = None.
Proof.
  unfold rec_delete. induction t as [|[k r] t IH]; [done|].
  rewrite filter_cons. cbn. destruct (decide (k <> id)) as [Hne|Heq]; [|done].
  cbn. by rewrite bool_decide_eq_false_2.
Qed.

Lemma rec_get_delete_ne id id' (t : records) :
  id <> id' -> rec_get id (rec_delete id' t) = rec_get id t.
Proof.
  intros Hne. unfold rec_delete.
  induction t as [|[k r] t IH]; [done|].
  rewrite filter_cons. cbn. destruct (decide (k <> id')) as [Hk|Hk].
  - cbn. by rewrite IH.
  - apply dec_stable in Hk. subst k.
    rewrite bool_decide_eq_false_2 by done. done.
Qed.

Lemma rec_get_delete_None id id' (t : records) :
  rec_get id t = None -> rec_get id (rec_delete id' t) = None.
Proof.
  intros H. destruct (decide (id = id')) as [->|Hne].
  - apply rec_get_delete_eq.
  - by rewrite rec_get_delete_ne.
Qed.

Lemma wf_table_spec (t : records) :
  wf_table t = true ->
  NoDup t.*1 /\ forall k r, (k, r) ∈ t -> tr_id r = Some k.
Proof.
  unfold wf_table. intros [Hnd Hall]%andb_prop.
  apply bool_decide_eq_true in Hnd. split; [done|].
  intros k r Hin. rewrite forallb_forall in Hall.
  apply list_elem_of_In in Hin. specialize (Hall _ Hin).
  by apply bool_decide_eq_true in Hall.
Qed.

Lemma rec_get_set id id' r (t : records) :
  rec_get id' (rec_set id r t)
    = if bool_decide (id = id') then Some r else rec_get id' t.
Proof.
  induction t as [|[k r0] t IH]; cbn.
  - done.
  - destruct (decide (k = id)) as [->|Hk].
    + rewrite bool_decide_eq_true_2 by done. cbn.
      by case_bool_decide.
    + rewrite (bool_decide_eq_false_2 (k = id)) by done. cbn.
      rewrite IH. case_bool_decide as Hk'; [|done].
      subst. by rewrite bool_decide_eq_false_2 by congruence.
Qed.

Lemma rec_get_alter f id id' (t : records) :
  rec_get id' (rec_alter f id t)
    = if bool_decide (id' = id) then f <$> rec_get id' t else rec_get id' t.
Proof.
  unfold rec_alter. induction t as [|[k r] t IH]; cbn.
  - by case_bool_decide.
  - destruct (decide (k = id)) as [->|Hk].
    + rewrite bool_decide_eq_true_2 by done. cbn.
      destruct (decide (id = id')) as [->|Hne].
      * by rewrite !bool_decide_eq_true_2.
      * rewrite (bool_decide_eq_false_2 (id = id')) by done.
        rewrite IH. by rewrite bool_decide_eq_false_2 by congruence.
    + rewrite (bool_decide_eq_false_2 (k = id)) by done. cbn.
      destruct (decide (k = id')) as [->|Hne].
      * rewrite bool_decide_eq_true_2 by done.
        by rewrite bool_decide_eq_false_2.
      * rewrite (bool_decide_eq_false_2 (k = id')) by done. apply IH.
Qed.

#[global] Instance ttl_kept_preorder : PreOrder ttl_kept.
Proof.
  split.
  - intros t id r H. eauto.
  - intros t1 t2 t3 H12 H23 id r H.
    destruct (H23 _ _ H) as (r2 & H2 & Httl2).
    destruct (H12 _ _ H2) as (r1 & H1 & Httl1).
    exists r1. split; [done | congruence].
Qed.

Lemma ttl_kept_delete id (t : records) : ttl_kept t (rec_delete id t).
Proof.
  intros id' r H. destruct (decide (id' = id)) as [->|Hne].
  - by rewrite rec_get_delete_eq in H.
  - rewrite rec_get_delete_ne in H by done. eauto.
Qed.

Lemma ttl_kept_alter f id (t : records) :
  (forall r, tr_ttl (f r) = tr_ttl r) -> ttl_kept t (rec_alter f id t).
Proof.
  intros Hf id' r. rewrite rec_get_alter. case_bool_decide; [|by eauto].
  destruct (rec_get id' t) as [r0|]; [|done].
  intros [= <-]. eauto.
Qed.

End TableFacts.

(** ** Connections *)

Module TransportFacts.
Import CallFacts Protocol State Invariants.

#[global] Instance sent_grows_preorder : PreOrder sent_grows.
Proof.
  split.
  - intros w c. repeat split. exists []. by rewrite app_nil_r.
  - intros w1 w2 w3 H12 H23 c.
    destruct (H12 c) as (Ha1 & Hl1 & l1 & Hs1).
    destruct (H23 c) as (Ha2 & Hl2 & l2 & Hs2).
    split; [congruence|]. split; [congruence|].
    exists (l1 ++ l2). rewrite Hs2, Hs1. by rewrite app_assoc.
Qed.

(** A change that leaves the connection table alone. *)
Lemma sent_grows_same_conns w w' : conns w' = conns w -> sent_grows w w'.
Proof.
  intros H c. unfold Transport.isActive, live, sent. rewrite H.
  repeat split. exists []. by rewrite app_nil_r.
Qed.

Lemma sent_grows_push c message conn w :
  conns w !! c = Some conn ->
  sent_grows w (set_conns <[c := Transport.push_sent message conn]> w).
Proof.
  intros Hc c'. unfold Transport.isActive, live, sent. cbn.
  destruct (decide (c = c')) as [<-|Hne].
  - rewrite lookup_insert_eq, Hc. cbn. split; [done|]. split; [done|].
    by eexists.
  - rewrite lookup_insert_ne by done. split; [done|]. split; [done|].
    exists []. by rewrite app_nil_r.
Qed.

(** [send] returns [true] exactly on a live connection, and then the
    message is the last one written to it. *)
Lemma send_spec c message w :
  exists w',
    Transport.send c message w = (w', Return (live c w)) /\
    sent_grows w w' /\
    persistence w' = persistence w /\ poolManager w' = poolManager w /\
    appRegistry w' = appRegistry w /\ triggerRouter w' = triggerRouter w /\
    sent c w' = if live c w then sent c w ++ [message] else sent c w.
Proof.
  unfold Transport.send, live, sent.
  destruct (conns w !! c) as [conn|] eqn:Hc.
  - destruct (conn_isActive conn && conn_writable conn) eqn:Hlive.
    + eexists. split; [reflexivity|].
      split; [by apply sent_grows_push|].
      cbn. by rewrite lookup_insert_eq.
    + eexists. split; [reflexivity|]. rewrite Hc.
      split; [reflexivity|]. done.
  - eexists. split; [reflexivity|]. rewrite Hc.
    split; [reflexivity|]. done.
Qed.

Lemma send_preserves_sent_grows c message :
  preserves sent_grows (Transport.send c message).
Proof.
  intros w w' o H. destruct (send_spec c message w) as (w1 & Hs & Hg & _).
  rewrite Hs in H. by inversion H; subst.
Qed.

Lemma send_same {B} (f : World -> B) c message :
  (forall g w, f (set_conns g w) = f w) ->
  preserves (same f) (Transport.send c message).
Proof.
  intros Hf w w' o. unfold Transport.send.
  destruct (conns w !! c) as [conn|]; [|by intros [= <- _]].
  destruct (_ && _); intros [= <- _]; [apply Hf | done].
Qed.

Lemma live_active c w : live c w = true -> Transport.isActive c w = true.
Proof.
  unfold live, Transport.isActive. destruct (conns w !! c); [|done].
  by intros [? _]%andb_prop.
Qed.

End TransportFacts.

(** ** Timeouts and disconnection in the router *)

Module TimeoutFacts.
Import CallFacts Protocol State Router Invariants TableFacts TransportFacts.

(** The state a timeout leaves behind. *)
Lemma _timeoutTriggerRecord_spec r w :
  exists w',
    _timeoutTriggerRecord r w = (w', Return tt) /\
    table w' = match tr_id r with
               | Some id => rec_delete id (table w)
               | None => table w
               end /\
    timeoutTriggers (stats (triggerRouter w'))
      = timeoutTriggers (stats (triggerRouter w)) + 1 /\
    sent_grows w w' /\
    poolManager w' = poolManager w /\ appRegistry w' = appRegistry w /\
    persistence w' = persistence w /\
    (forall c, tr_originConnection r = Some c -> live c w = true ->
       sent c w' = sent c w
                   ++ [createTimeoutError (Trigger (tr_originalMessage r))]).
Proof.
  unfold _timeoutTriggerRecord. rewrite get_bind.
  set (err := createTimeoutError _).
  assert (exists w1,
    (match tr_originConnection r with
     | Some c => if Transport.isActive c w
                 then Transport.send c err ;;; ret tt else ret tt
     | None => ret tt
     end) w = (w1, Return tt) /\ sent_grows w w1 /\
    persistence w1 = persistence w /\ poolManager w1 = poolManager w /\
    appRegistry w1 = appRegistry w /\ triggerRouter w1 = triggerRouter w /\
    (forall c, tr_originConnection r = Some c -> live c w = true ->
       sent c w1 = sent c w ++ [err])) as (w1 & Hsend & Hg & Hp & Hpm & Hr & Ht & Hd).
  { destruct (tr_originConnection r) as [c|].
    - destruct (Transport.isActive c w) eqn:Hact.
      + destruct (send_spec c err w) as (w1 & Hs & Hg & Hp & Hpm & Hr & Ht & Hsent).
        exists w1. unfold bind. rewrite Hs. split_and!; try done.
        intros c' [= <-] Hlive. by rewrite Hsent, Hlive.
      + exists w. split_and!; try done.
        intros c' [= <-] Hlive. apply live_active in Hlive. congruence.
    - exists w. split_and!; done. }
  unfold bind at 1. rewrite Hsend. rewrite modify_bind.
  unfold _cleanupTriggerRecord.
  destruct (tr_id r) as [id|]; eexists; (split; [reflexivity|]); cbn;
    unfold table in *; cbn; rewrite ?Ht; split_and!; try done;
    (etrans; [exact Hg | by apply sent_grows_same_conns]).
Qed.

(** Removing the keys of a list of records, one after the other. *)
Lemma rec_get_after_deletes id (rs : list TriggerRecord) : forall t,
  (forall r, r ∈ rs -> tr_id r <> Some id) ->
  rec_get id
    (foldl (fun t r => match tr_id r with
                       | Some k => rec_delete k t
                       | None => t
                       end) t rs) = rec_get id t.
Proof.
  induction rs as [|r rs IH]; intros t Hrs; cbn; [done|].
  rewrite IH by (intros r' Hr'; apply Hrs; by apply elem_of_cons; right).
  assert (tr_id r <> Some id) as Hr by (apply Hrs, elem_of_cons; by left).
  destruct (tr_id r) as [k|]; [|done].
  apply rec_get_delete_ne. congruence.
Qed.

Lemma rec_get_deleted id (rs : list TriggerRecord) : forall t r,
  r ∈ rs -> tr_id r = Some id ->
  rec_get id
    (foldl (fun t r => match tr_id r with
                       | Some k => rec_delete k t
                       | None => t
                       end) t rs) = None.
Proof.
  induction rs as [|r0 rs IH]; intros t r Hin Hid.
  - by apply elem_of_nil in Hin.
  - cbn. apply elem_of_cons in Hin as [->|Hin].
    + rewrite Hid.
      assert (forall rs t, rec_get id t = None ->
                rec_get id (foldl (fun t r => match tr_id r with
                       | Some k => rec_delete k t
                       | None => t
                       end) t rs) = None) as Hkeep.
      { clear. induction rs as [|r rs IH]; intros t Ht; cbn; [done|].
        apply IH. destruct (tr_id r); [|done].
        by apply rec_get_delete_None. }
      apply Hkeep, rec_get_delete_eq.
    + by eapply IH.
Qed.

(** Timing out a list of records, as the loop of
    [_handleAppDisconnection] does. *)
Lemma for_each_timeout_spec (rs : list TriggerRecord) : forall w,
  exists w',
    for_each rs _timeoutTriggerRecord w = (w', Return tt) /\
    table w' = foldl (fun t r => match tr_id r with
                                 | Some k => rec_delete k t
                                 | None => t
                                 end) (table w) rs /\
    timeoutTriggers (stats (triggerRouter w'))
      = timeoutTriggers (stats (triggerRouter w)) + Z.of_nat (length rs) /\
    sent_grows w w' /\
    poolManager w' = poolManager w /\ appRegistry w' = appRegistry w /\
    persistence w' = persistence w /\
    (forall r c, r ∈ rs -> tr_originConnection r = Some c ->
       live c w = true ->
       createTimeoutError (Trigger (tr_originalMessage r)) ∈ sent c w').
Proof.
  induction rs as [|r rs IH]; intros w.
  - exists w. cbn. split_and!; try done; try lia.
    intros r c Hin. by apply elem_of_nil in Hin.
  - destruct (_timeoutTriggerRecord_spec r w)
      as (w1 & Hrun & Ht & Hn & Hg & Hpm & Hr & Hp & Hd).
    destruct (IH w1) as (w2 & Hrun2 & Ht2 & Hn2 & Hg2 & Hpm2 & Hr2 & Hp2 & Hd2).
    exists w2. cbn [for_each]. unfold bind. rewrite Hrun, Hrun2.
    split; [done|]. split; [by rewrite Ht2, Ht|].
    split; [rewrite Hn2, Hn; cbn [length]; lia|].
    split; [by etrans|]. split; [congruence|]. split; [congruence|].
    split; [congruence|].
    intros r' c Hin Hc Hlive. apply elem_of_cons in Hin as [->|Hin].
    + destruct (Hg2 c) as (_ & _ & more & Hs). rewrite Hs, (Hd c Hc Hlive).
      apply elem_of_app. left. apply elem_of_app. right.
      by apply list_elem_of_singleton.
    + apply (Hd2 r' c Hin Hc). destruct (Hg c) as (_ & -> & _). done.
Qed.


(** C2, as the claim has it, fails.  [B] (connection 2) has a trigger in
    flight that was dispatched to [A]; [A] disconnects.  The record stays
    in the table and nothing is sent to [B], whose connection is live. *)
Lemma C2_dispatched_record_survives_disconnect :
  (exists r, rec_get Scenarios.T1 (table Scenarios.echo_routed) = Some r /\
             tr_dispatchedTo r = Some "A"%string /\
             tr_originConnection r = Some 2) /\
  live 2 Scenarios.echo_routed = true /\
  is_Some (rec_get Scenarios.T1
             (table (Scenarios.disconnect 1 Scenarios.echo_routed))) /\
  sent 2 (Scenarios.disconnect 1 Scenarios.echo_routed)
    = sent 2 Scenarios.echo_routed.
Proof.
  split; [eexists; vm_compute; split_and!; reflexivity|].
  split; [vm_compute; reflexivity|]. split; [vm_compute; eauto|].
  vm_compute. reflexivity.
Qed.

(** C2, amended.  When [appId] disconnects, every in-flight record whose
    [originAppId] or [origin] property is [appId] is timed out: it is
    removed from the table, an error with code [TIMEOUT] correlated to
    the original message is written to the record's origin connection if
    that connection is live, and the timeout counter goes up by the
    number of such records.  Every other record, whoever it was
    dispatched to, stays in the table as it is. *)
Theorem C2_disconnect_times_out_origin_records appId w id r :
  wf_table (table w) = true ->
  rec_get id (table w) = Some r ->
  from_app appId r = true ->
  exists w',
    _handleAppDisconnection appId w = (w', Return tt) /\
    rec_get id (table w') = None /\
    (forall c, tr_originConnection r = Some c -> live c w = true ->
       Error {| em_correlation_id := tm_id (tr_originalMessage r);
                em_in_reply_to := None;
                em_error := "Request timeout";
                em_error_code := "TIMEOUT" |} ∈ sent c w') /\
    timeoutTriggers (stats (triggerRouter w'))
      = timeoutTriggers (stats (triggerRouter w))
        + Z.of_nat (length (filter (fun r => from_app appId r = true)
                              (rec_values (table w)))) /\
    (forall id' r', rec_get id' (table w) = Some r' ->
       from_app appId r' = false ->
       rec_get id' (table w') = Some r').
Proof.
  intros Hwf Hget Hfrom.
  apply wf_table_spec in Hwf as [Hnd Hids].
  unfold _handleAppDisconnection. rewrite get_bind. cbv zeta.
  set (pending := filter _ (rec_values (table w))).
  destruct (for_each_timeout_spec pending w)
    as (w' & Hrun & Ht & Hn & Hg & _ & _ & _ & Hd).
  exists w'. split; [done|].
  assert (r ∈ pending) as Hin.
  { apply list_elem_of_filter. split; [done|].
    apply list_elem_of_fmap. exists (id, r). split; [done|].
    by apply rec_get_elem_of. }
  split.
  { rewrite Ht. eapply rec_get_deleted; [exact Hin|].
    apply Hids. by apply rec_get_elem_of. }
  split.
  { intros c Hc Hlive. apply (Hd r c Hin Hc Hlive). }
  split; [done|].
  intros id' r' Hget' Hfrom'. rewrite Ht.
  rewrite rec_get_after_deletes; [done|].
  intros r0 Hr0 Hid0.
  apply list_elem_of_filter in Hr0 as [Hfrom0 Hr0].
  apply list_elem_of_fmap in Hr0 as ([k0 r0'] & -> & Hin0). cbn in *.
  pose proof (Hids _ _ Hin0) as Hk0. rewrite Hid0 in Hk0.
  injection Hk0 as <-.
  pose proof (rec_get_NoDup _ _ _ Hnd Hin0) as Hget0.
  rewrite Hget' in Hget0. injection Hget0 as ->. congruence.
Qed.

Lemma C2_witness :
  exists w',
    _handleAppDisconnection "B" Scenarios.echo_tagged = (w', Return tt) /\
    rec_get Scenarios.T1 (table w') = None /\
    (forall c,
       tr_originConnection
         (set_dispatched "A" 3
            (assign {| ru_dispatchedTo := None; ru_completed := None;
                       ru_originAppId := Some "B"%string;
                       ru_origin := None |}
               (set_timeoutId true
                  (new_record 3
                     (set_origin "B"
                        (Scenarios.trigger Scenarios.T1 "echo" None None))
                     (Some 2) (Some "default"%string) ["A"%string]
                     (Some 3) (Some 30000))))) = Some c ->
       live c Scenarios.echo_tagged = true ->
       Error {| em_correlation_id := Some Scenarios.T1;
                em_in_reply_to := None;
                em_error := "Request timeout";
                em_error_code := "TIMEOUT" |} ∈ sent c w') /\
    timeoutTriggers (stats (triggerRouter w'))
      = timeoutTriggers (stats (triggerRouter Scenarios.echo_tagged))
        + Z.of_nat (length (filter (fun r => from_app "B" r = true)
                              (rec_values (table Scenarios.echo_tagged)))) /\
    (forall id' r', rec_get id' (table Scenarios.echo_tagged) = Some r' ->
       from_app "B" r' = false ->
       rec_get id' (table w') = Some r').
Proof.
  apply (C2_disconnect_times_out_origin_records "B" Scenarios.echo_tagged
           Scenarios.T1).
  - vm_compute. reflexivity.
  - vm_compute. reflexivity.
  - vm_compute. reflexivity.
Defined.

End TimeoutFacts.

(** ** Handling a trigger request *)

Module RequestFacts.
Import CallFacts Protocol State Router Invariants TableFacts TransportFacts.

Lemma getPool_frame name : preserves (same outside_pools) (Pools.getPool name).
Proof.
  unfold Pools.getPool, PersistenceLayer.getPool, Pools.load_pool.
  solve_preserves.
Qed.

Lemma validateRouting_frame origin destination triggerName :
  preserves (same id) (validateRouting origin destination triggerName).
Proof. unfold validateRouting. solve_preserves. Qed.

Lemma routeTrigger_frame m : preserves (same outside_routing) (routeTrigger m).
Proof.
  unfold routeTrigger, selectDestination, _selectRoundRobin, validateRouting,
    count_short_circuit.
  solve_preserves.
Qed.


(** Without a candidate, routing throws and changes nothing. *)
Lemma routeTrigger_no_candidates m w :
  (forall name, truthy (tm_trigger m) = Some name ->
     candidates name (str_or (tm_pool m) "default") (tm_destination m) w
       = []) ->
  exists e, routeTrigger m w = (w, Throw e).
Proof.
  intros Hnone. unfold routeTrigger.
  destruct (truthy (tm_trigger m)) as [name|] eqn:Hname; [|by eexists].
  specialize (Hnone name eq_refl). unfold candidates in Hnone.
  destruct (truthy (tm_destination m)) as [d|] eqn:Hd.
  - rewrite get_bind.
    destruct (Registry.getApp d w) as [app|] eqn:Happ; [|by eexists].
    rewrite ?Happ in Hnone. cbn in Hnone.
    rewrite throw_if_bind. unfold Registry.getAppTriggers. rewrite Happ.
    destruct (includes (reg_triggers app) name); [|by eexists].
    cbn [negb]. rewrite throw_if_bind.
    destruct (Pools.validatePoolMembership d _ w); [|by eexists].
    cbn [negb]. rewrite throw_if_bind.
    destruct (Registry.isActive app w); [|by eexists].
    cbn in Hnone. by destruct (decide _) as [_|Hn] in Hnone.
  - rewrite get_bind. cbv zeta. rewrite throw_if_bind, Hnone.
    rewrite bool_decide_eq_true_2 by done. by eexists.
Qed.


(** The candidates depend on the registry, the connections and the pool
    memberships only. *)
Lemma candidates_frame triggerName poolName destination w w' :
  conns w' = conns w ->
  appRegistry w' = appRegistry w ->
  appPoolMembership (poolManager w') = appPoolMembership (poolManager w) ->
  candidates triggerName poolName destination w'
    = candidates triggerName poolName destination w.
Proof.
  intros Hc Hr Hm.
  unfold candidates, findTriggerHandlers, Registry.getTriggersHandlers,
    Registry.getApp, Registry.isActive, Transport.isActive,
    Pools.validatePoolMembership.
  by rewrite Hc, Hr, Hm.
Qed.

(** Without a candidate the [try] block throws, before a record is
    created and before anything is sent. *)
Lemma accept_trigger_no_candidates now m c w :
  (forall name, truthy (tm_trigger m) = Some name ->
     candidates name (str_or (tm_pool m) "default") (tm_destination m) w
       = []) ->
  exists w1 e,
    accept_trigger now m c w = (w1, Throw e) /\
    outside_pools w1 = outside_pools w.
Proof.
  intros Hnone. unfold accept_trigger.
  rewrite get_bind, throw_if_bind.
  destruct (_ >=? _); [by eexists _, _|].
  destruct (Registry.getAppByConnection c w) as [originApp|];
    [|by eexists _, _].
  unfold bind at 1.
  destruct (Pools.getPool _ w) as [w1 [pool|e]] eqn:Hgp;
    pose proof (getPool_frame _ _ _ _ Hgp) as Hf; [|by eexists _, _].
  rewrite throw_if_bind. destruct (negb _); [by eexists _, _|].
  rewrite get_bind, throw_if_bind. destruct (negb _); [by eexists _, _|].
  unfold bind at 1.
  destruct (routeTrigger_no_candidates
              (set_origin (reg_appId originApp) m) w1) as [e He].
  { intros name Hname. cbn in *. injection Hf as Hc _ Hr _ _ Hm.
    rewrite (candidates_frame _ _ _ _ _ Hc Hr Hm). by apply Hnone. }
  rewrite He. by eexists _, _.
Qed.

(** C5, as the claim has it, fails on the error code.  [B] calls the
    trigger ["ghost"], which nobody handles; the error [B] receives
    carries the code [TRIGGER_ROUTING_ERROR], not [NOT_FOUND]. *)
Lemma C5_no_handler_error_code :
  candidates "ghost" "default" None Scenarios.two_apps = [] /\
  sent 2 (fst (handleTriggerRequest 3
                 (Scenarios.trigger Scenarios.T1 "ghost" None None) 2
                 Scenarios.two_apps))
    = sent 2 Scenarios.two_apps
      ++ [Error {| em_correlation_id := Some Scenarios.T1;
                   em_in_reply_to := None;
                   em_error := "No handlers found for trigger";
                   em_error_code := "TRIGGER_ROUTING_ERROR" |}] /\
  "TRIGGER_ROUTING_ERROR"%string <> "NOT_FOUND"%string.
Proof.
  split; [vm_compute; reflexivity|]. split; [vm_compute; reflexivity|].
  discriminate.
Qed.

(** C5, amended.  When a trigger request has no candidate handler, the
    caller's connection, if live, is sent an error correlated to the
    request with code [TRIGGER_ROUTING_ERROR]; the request is counted as
    a failed trigger, and the in-flight table is as it was. *)
Theorem C5_no_candidate_is_a_routing_error now m c w :
  (forall name, truthy (tm_trigger m) = Some name ->
     candidates name (str_or (tm_pool m) "default") (tm_destination m) w
       = []) ->
  exists w' e,
    handleTriggerRequest now m c w = (w', Return tt) /\
    sent c w'
      = (if live c w
         then sent c w
              ++ [Error {| em_correlation_id := tm_id m;
                           em_in_reply_to := None;
                           em_error := e;
                           em_error_code := "TRIGGER_ROUTING_ERROR" |}]
         else sent c w) /\
    failedTriggers (stats (triggerRouter w'))
      = failedTriggers (stats (triggerRouter w)) + 1 /\
    table w' = table w.
Proof.
  intros Hnone. unfold handleTriggerRequest. rewrite modify_bind.
  set (w0 := bump set_totalTriggers w).
  destruct (accept_trigger_no_candidates now m c w0) as (w1 & e & Hacc & Hf).
  { intros name Hname. rewrite <- (Hnone name Hname).
    by apply candidates_frame. }
  assert (failedTriggers (stats (triggerRouter w0))
          = failedTriggers (stats (triggerRouter w))) as Hfail0 by done.
  assert (table w0 = table w) as Htab0 by done.
  assert (conns w0 = conns w) as Hconns0 by done.
  clearbody w0.
  unfold try_catch. rewrite Hacc.
  destruct (send_spec c (createError (Trigger m) e "TRIGGER_ROUTING_ERROR") w1)
    as (w2 & Hsend & Hg & Hp & Hpm & Hr & Ht & Hsent).
  unfold bind. rewrite Hsend. cbn.
  injection Hf as Hc _ _ Hrt _ _.
  eexists _, e. split; [reflexivity|].
  assert (live c w1 = live c w) as Hlive.
  { unfold live. by rewrite Hc, Hconns0. }
  assert (sent c w1 = sent c w) as Hs1.
  { unfold sent. by rewrite Hc, Hconns0. }
  split.
  { unfold sent at 1. cbn. fold (sent c w2).
    rewrite Hsent, Hlive, Hs1. done. }
  split.
  { cbn. rewrite Ht, Hrt. by rewrite Hfail0. }
  unfold table in *. cbn. by rewrite Ht, Hrt.
Qed.

Lemma C5_witness :
  exists w' e,
    handleTriggerRequest 3 (Scenarios.trigger Scenarios.T1 "ghost" None None)
      2 Scenarios.two_apps = (w', Return tt) /\
    sent 2 w'
      = (if live 2 Scenarios.two_apps
         then sent 2 Scenarios.two_apps
              ++ [Error {| em_correlation_id := Some Scenarios.T1;
                           em_in_reply_to := None;
                           em_error := e;
                           em_error_code := "TRIGGER_ROUTING_ERROR" |}]
         else sent 2 Scenarios.two_apps) /\
    failedTriggers (stats (triggerRouter w'))
      = failedTriggers (stats (triggerRouter Scenarios.two_apps)) + 1 /\
    table w' = table Scenarios.two_apps.
Proof.
  apply (C5_no_candidate_is_a_routing_error 3
           (Scenarios.trigger Scenarios.T1 "ghost" None None) 2
           Scenarios.two_apps).
  intros name [= <-]. vm_compute. reflexivity.
Defined.


(** *** The record a request creates *)

Lemma truthy_Some x v : truthy x = Some v -> x = Some v.
Proof.
  unfold truthy. destruct x as [s|]; [|done].
  by case_bool_decide; intros [= <-].
Qed.

Lemma createTriggerRecord_Return now idopt origin destination pool handlers
    created ttl msg conn w w' record :
  createTriggerRecord now idopt origin destination pool handlers created ttl
    msg conn w = (w', Return record) ->
  exists id,
    idopt = Some id /\
    rec_get id (table w) = None /\
    record = new_record now msg conn pool handlers
               (Some (num_or created now))
               (Some (num_or ttl (defaultTTL (triggerRouter w)))) /\
    w' = set_table (rec_set id record) w.
Proof.
  unfold createTriggerRecord.
  destruct (truthy idopt) as [id|] eqn:Hid; [|discriminate].
  apply truthy_Some in Hid. rewrite throw_if_bind.
  destruct (bool_decide (origin = "")); [discriminate|].
  rewrite get_bind, throw_if_bind.
  case_bool_decide as Hhas; [discriminate|].
  intros [= <- <-]. exists id. split_and!; try done.
  destruct (rec_get id (table w)); [|done]. exfalso. apply Hhas. eauto.
Qed.

Lemma createTriggerRecord_Throw now idopt origin destination pool handlers
    created ttl msg conn w w' e :
  createTriggerRecord now idopt origin destination pool handlers created ttl
    msg conn w = (w', Throw e) -> w' = w.
Proof.
  unfold createTriggerRecord.
  destruct (truthy idopt) as [id|]; [|by intros [= <- _]].
  rewrite throw_if_bind.
  destruct (bool_decide (origin = "")); [by intros [= <- _]|].
  rewrite get_bind, throw_if_bind.
  case_bool_decide; [by intros [= <- _]|]. discriminate.
Qed.

(** Dispatching and arming the timer keep the records' TTLs. *)
Lemma same_table_ttl_kept w w' : table w' = table w ->
  ttl_kept (table w) (table w').
Proof. intros ->. reflexivity. Qed.

#[global] Instance keeps_ttl_preorder : PreOrder keeps_ttl.
Proof.
  split.
  - intros w. split; reflexivity.
  - intros w1 w2 w3 [H12 D12] [H23 D23]. split; [by etrans | congruence].
Qed.

Lemma keeps_ttl_same_router w w' :
  triggerRouter w' = triggerRouter w -> keeps_ttl w w'.
Proof. intros H. unfold keeps_ttl, table. rewrite H. split; reflexivity. Qed.

Lemma send_keeps_ttl c message : preserves keeps_ttl (Transport.send c message).
Proof.
  intros w w' o H. destruct (send_spec c message w) as (w1 & Hs & _ & _ & _ & _ & Ht & _).
  rewrite Hs in H. inversion H; subst. by apply keeps_ttl_same_router.
Qed.

Ltac keeps_ttl_modify :=
  split; [|reflexivity]; unfold table; cbn;
  first [ reflexivity | apply ttl_kept_delete | by apply ttl_kept_alter ].

Lemma _dispatchTrigger_keeps_ttl now record handler :
  preserves keeps_ttl (_dispatchTrigger now record handler).
Proof.
  unfold _dispatchTrigger, _cleanupTriggerRecord, Registry.send.
  solve_preserves; try apply send_keeps_ttl; keeps_ttl_modify.
Qed.

Lemma _setTriggerTimeout_keeps_ttl record :
  preserves keeps_ttl (_setTriggerTimeout record).
Proof. unfold _setTriggerTimeout. solve_preserves; keeps_ttl_modify. Qed.

Lemma keeps_ttl_outside_routing w w' :
  outside_routing w' = outside_routing w -> keeps_ttl w w'.
Proof.
  intros [= _ _ _ _ Ht Hd _ _ _ _ _]. unfold keeps_ttl. rewrite Ht, Hd.
  split; reflexivity.
Qed.

Lemma keeps_ttl_outside_pools w w' :
  outside_pools w' = outside_pools w -> keeps_ttl w w'.
Proof. intros [= _ _ _ Ht _ _]. by apply keeps_ttl_same_router. Qed.

Lemma num_or_chain ttl D :
  D <> 0 ->
  num_or (Some (num_or (Some (num_or ttl D)) D)) 30000 = num_or ttl D.
Proof.
  intros HD.
  assert (num_or ttl D <> 0) as Hx.
  { unfold num_or. destruct ttl as [v|]; [|done].
    destruct (v =? 0) eqn:Hv; [done | lia]. }
  assert (forall x d, x <> 0 -> num_or (Some x) d = x) as Hsome.
  { intros x d Hne. unfold num_or.
    destruct (x =? 0) eqn:H0; [lia | done]. }
  rewrite (Hsome _ D) by done. by rewrite Hsome.
Qed.

(** A record found in the table after the [try] block either was there
    before, with the same TTL, or is the record of this request. *)
Lemma accept_trigger_ttl now m c w w' o :
  accept_trigger now m c w = (w', o) ->
  defaultTTL (triggerRouter w) <> 0 ->
  defaultTTL (triggerRouter w') = defaultTTL (triggerRouter w) /\
  forall id r,
    rec_get id (table w') = Some r ->
    (exists r0, rec_get id (table w) = Some r0 /\ tr_ttl r0 = tr_ttl r)
    \/ (tm_id m = Some id /\ rec_get id (table w) = None /\
        tr_ttl r = num_or (tm_ttl m) (defaultTTL (triggerRouter w))).
Proof.
  intros Hacc HD.
  assert (forall w1, keeps_ttl w w1 ->
            defaultTTL (triggerRouter w1) = defaultTTL (triggerRouter w) /\
            forall id r, rec_get id (table w1) = Some r ->
              (exists r0, rec_get id (table w) = Some r0 /\
                          tr_ttl r0 = tr_ttl r)
              \/ (tm_id m = Some id /\ rec_get id (table w) = None /\
                  tr_ttl r = num_or (tm_ttl m) (defaultTTL (triggerRouter w))))
    as Hkept.
  { intros w1 [Hk Hd]. split; [done|]. intros id r Hr. left. by apply Hk. }
  revert Hacc. unfold accept_trigger.
  rewrite get_bind, throw_if_bind.
  destruct (_ >=? _); [intros [= <- _]; by apply Hkept|].
  destruct (Registry.getAppByConnection c w) as [originApp|];
    [|intros [= <- _]; by apply Hkept].
  unfold bind at 1.
  destruct (Pools.getPool _ w) as [w1 [pool|e]] eqn:Hgp;
    pose proof (keeps_ttl_outside_pools _ _ (getPool_frame _ _ _ _ Hgp)) as K1;
    [|intros [= <- _]; by apply Hkept].
  rewrite throw_if_bind.
  destruct (negb _); [intros [= <- _]; by apply Hkept|].
  rewrite get_bind, throw_if_bind.
  destruct (negb _); [intros [= <- _]; by apply Hkept|].
  unfold bind at 1.
  set (m' := set_origin (reg_appId originApp) m).
  destruct (routeTrigger m' w1) as [w2 [rr|e]] eqn:Hrt;
    pose proof (keeps_ttl_outside_routing _ _
                  (routeTrigger_frame _ _ _ _ Hrt)) as K2;
    [|intros [= <- _]; apply Hkept; by etrans].
  assert (keeps_ttl w w2) as K02 by (by etrans).
  rewrite get_bind. unfold bind at 1.
  destruct (createTriggerRecord _ _ _ _ _ _ _ _ _ _ w2)
    as [w3 [record|e]] eqn:Hct.
  2:{ apply createTriggerRecord_Throw in Hct as ->.
      intros [= <- _]. by apply Hkept. }
  apply createTriggerRecord_Return in Hct as (id0 & Hid & Hfresh & Hrec & ->).
  cbn in Hid.
  intros Hrest.
  assert (keeps_ttl (set_table (rec_set id0 record) w2) w') as K3.
  { revert Hrest. unfold bind at 1.
    destruct (_dispatchTrigger _ _ _ _) as [w4 [u|e]] eqn:Hd;
      pose proof (_dispatchTrigger_keeps_ttl _ _ _ _ _ _ Hd) as K4.
    - intros Hst. apply _setTriggerTimeout_keeps_ttl in Hst. by etrans.
    - by intros [= <- _]. }
  destruct K02 as [Hk02 Hd02]. destruct K3 as [Hk3 Hd3].
  split; [cbn in Hd3; congruence|].
  intros id r Hr. destruct (Hk3 _ _ Hr) as (r3 & Hr3 & Httl3).
  unfold table in Hr3. cbn in Hr3. fold (table w2) in Hr3.
  rewrite rec_get_set in Hr3. case_bool_decide as Hid0.
  - subst id0. injection Hr3 as <-. right. split; [done|]. split.
    + destruct (rec_get id (table w)) as [rw|] eqn:Hw; [|done].
      exfalso.
      assert (ttl_kept (table w2) (table w)) as Hback.
      { destruct (keeps_ttl_outside_pools _ _ (getPool_frame _ _ _ _ Hgp)).
        pose proof (getPool_frame _ _ _ _ Hgp) as [= _ _ _ Ht1 _ _].
        pose proof (routeTrigger_frame _ _ _ _ Hrt) as [= _ _ _ _ Ht2 _ _ _ _ _ _].
        unfold table in *. rewrite Ht2, Ht1. reflexivity. }
      destruct (Hback _ _ Hw) as (r2 & Hr2 & _). congruence.
    + rewrite <- Httl3, Hrec. cbn. rewrite Hd02.
      by apply num_or_chain.
  - left. destruct (Hk02 _ _ Hr3) as (r0 & Hr0 & Httl0).
    exists r0. split; [done | congruence].
Qed.

(** C3, as the claim has it, fails.  The default TTL is 30000 and no
    maximum is configured anywhere; [B] sends a trigger with [ttl] 60000
    and the record is created with a TTL of 60000, which is above the
    default and so is not a minimum that includes it. *)
Lemma C3_ttl_above_default_is_kept :
  defaultTTL (triggerRouter Scenarios.two_apps) = 30000 /\
  tr_ttl <$> rec_get Scenarios.T1
               (table (fst (handleTriggerRequest 3
                              (Scenarios.trigger Scenarios.T1 "echo" None
                                 (Some 60000)) 2 Scenarios.two_apps)))
    = Some 60000 /\
  Z.min 60000 30000 <> 60000.
Proof.
  split; [vm_compute; reflexivity|]. split; [vm_compute; reflexivity|].
  discriminate.
Qed.

(** C3, amended.  The record a trigger request leaves in the in-flight
    table under a fresh id is the record of that request, and its TTL is
    the message's [ttl] when that is present and not zero, and the
    router's default TTL otherwise; nothing clamps it. *)
Theorem C3_record_ttl_is_message_ttl_or_default now m c w id r :
  defaultTTL (triggerRouter w) <> 0 ->
  rec_get id (table w) = None ->
  rec_get id (table (fst (handleTriggerRequest now m c w))) = Some r ->
  tm_id m = Some id /\
  tr_ttl r = num_or (tm_ttl m) (defaultTTL (triggerRouter w)).
Proof.
  intros HD Hfresh. unfold handleTriggerRequest. rewrite modify_bind.
  set (w0 := bump set_totalTriggers w).
  assert (defaultTTL (triggerRouter w0) = defaultTTL (triggerRouter w))
    as HD0 by done.
  assert (table w0 = table w) as Ht0 by done.
  clearbody w0. unfold try_catch.
  destruct (accept_trigger now m c w0) as [w1 [u|e]] eqn:Hacc;
    destruct (accept_trigger_ttl _ _ _ _ _ _ Hacc) as [_ Hrec];
    try congruence.
  - cbn. intros Hr. destruct (Hrec _ _ Hr) as [(r0 & Hr0 & _)|(Hid & _ & Httl)].
    + congruence.
    + by rewrite <- HD0.
  - destruct (send_spec c (createError (Trigger m) e "TRIGGER_ROUTING_ERROR")
                w1) as (w2 & Hsend & _ & _ & _ & _ & Ht & _).
    unfold bind. rewrite Hsend. cbn. rewrite Ht.
    fold (table w1). intros Hr.
    destruct (Hrec _ _ Hr) as [(r0 & Hr0 & _)|(Hid & _ & Httl)].
    + congruence.
    + by rewrite <- HD0.
Qed.

Lemma C3_witness :
  tm_id (Scenarios.trigger Scenarios.T1 "echo" None (Some 60000))
    = Some Scenarios.T1 /\
  tr_ttl (set_timeoutId true
            (set_dispatched "A" 3
               (new_record 3
                  (set_origin "B"
                     (Scenarios.trigger Scenarios.T1 "echo" None
                        (Some 60000)))
                  (Some 2) (Some "default"%string) ["A"%string]
                  (Some 3) (Some 60000))))
    = num_or (tm_ttl (Scenarios.trigger Scenarios.T1 "echo" None
                        (Some 60000)))
        (defaultTTL (triggerRouter Scenarios.two_apps)).
Proof.
  apply (C3_record_ttl_is_message_ttl_or_default 3
           (Scenarios.trigger Scenarios.T1 "echo" None (Some 60000)) 2
           Scenarios.two_apps Scenarios.T1).
  - vm_compute. discriminate.
  - vm_compute. reflexivity.
  - vm_compute. reflexivity.
Defined.

End RequestFacts.

(** ** Routing a response *)

Module ResponseFacts.
Import CallFacts Protocol State Router Invariants TableFacts TransportFacts.

(** When the original trigger named no destination, the response goes to
    the connection the trigger came from, if it is live. *)
Lemma _routeResponse_to_origin record message c w :
  truthy (tm_destination (tr_originalMessage record)) = None ->
  tr_originConnection record = Some c ->
  live c w = true ->
  exists w',
    _routeResponse record message w = (w', Return tt) /\
    sent c w' = sent c w ++ [message].
Proof.
  intros Hdest Hc Hlive. unfold _routeResponse.
  rewrite get_bind, Hdest, ret_bind, Hc, throw_if_bind.
  rewrite (live_active _ _ Hlive). cbn [negb].
  destruct (send_spec c message w) as (w' & Hsend & _ & _ & _ & _ & _ & Hsent).
  unfold bind. rewrite Hsend, Hlive. cbn.
  exists w'. split; [done|]. by rewrite Hsent, Hlive.
Qed.

(** If the origin's connection is no longer active, routing to it throws
    and nothing is sent. *)
Lemma _routeResponse_origin_gone record message c w :
  truthy (tm_destination (tr_originalMessage record)) = None ->
  tr_originConnection record = Some c ->
  Transport.isActive c w = false ->
  exists e, _routeResponse record message w = (w, Throw e).
Proof.
  intros Hdest Hc Hact. unfold _routeResponse.
  rewrite get_bind, Hdest, ret_bind, Hc, throw_if_bind, Hact. by eexists.
Qed.

(** An [error] message that carries its correlation id in
    [correlation_id] only is not routed at all. *)
Lemma _handleError_needs_in_reply_to message w :
  em_in_reply_to message = None -> _handleError message w = (w, Return tt).
Proof. intros H. unfold _handleError. by rewrite H. Qed.

(** C1 (the code does not do this).  The echo scenario: [B], on
    connection 2, triggers ["echo"] with destination ["A"]; [A], on
    connection 1, responds.  The record's origin connection is 2 and it
    is live, yet the response is written to connection 1, the
    destination's own connection, and [B] receives nothing. *)
Theorem C1_response_sent_to_destination :
  (exists record,
     rec_get Scenarios.T1 (table Scenarios.echo_to_A) = Some record /\
     tr_originConnection record = Some 2 /\
     tm_destination (tr_originalMessage record) = Some "A"%string) /\
  live 2 Scenarios.echo_to_A = true /\
  reg_connection <$> Registry.getApp "A" Scenarios.echo_to_A
    = Some (Some 1) /\
  sent 2 (fst (handleTriggerResponse
                 (Scenarios.response "r1" Scenarios.T1) Scenarios.echo_to_A))
    = sent 2 Scenarios.echo_to_A /\
  sent 1 (fst (handleTriggerResponse
                 (Scenarios.response "r1" Scenarios.T1) Scenarios.echo_to_A))
    = sent 1 Scenarios.echo_to_A
      ++ [Response (Scenarios.response "r1" Scenarios.T1)].
Proof.
  split; [eexists; vm_compute; split_and!; reflexivity|].
  split_and!; vm_compute; reflexivity.
Qed.

End ResponseFacts.

(** ** Disconnection in the registry *)

Module DisconnectFacts.
Import CallFacts Protocol State Invariants TransportFacts TimeoutFacts.
Import Registry.

Lemma set_delete_not_elem x (l : list string) : x ∉ set_delete x l.
Proof. unfold set_delete. intros [H _]%list_elem_of_filter. done. Qed.

(** Removing one mapping of an app: the app is no longer listed under
    that trigger, and is listed nowhere it was not listed before. *)
Lemma _removeTriggerMapping_absent appId t w :
  appId ∉ default [] (triggerMappings
                        (appRegistry (_removeTriggerMapping appId t w)) !! t).
Proof.
  unfold _removeTriggerMapping. cbn.
  destruct (triggerMappings (appRegistry w) !! t) as [l|] eqn:Hl.
  - case_bool_decide as Hempty.
    + rewrite lookup_delete_eq. cbn. apply not_elem_of_nil.
    + rewrite lookup_insert_eq. cbn. apply set_delete_not_elem.
  - rewrite Hl. cbn. apply not_elem_of_nil.
Qed.

Lemma _removeTriggerMapping_keeps_absent appId t t' w :
  appId ∉ default [] (triggerMappings (appRegistry w) !! t') ->
  appId ∉ default [] (triggerMappings
                        (appRegistry (_removeTriggerMapping appId t w)) !! t').
Proof.
  intros Habs. destruct (decide (t' = t)) as [->|Hne].
  - apply _removeTriggerMapping_absent.
  - unfold _removeTriggerMapping. cbn.
    destruct (triggerMappings (appRegistry w) !! t) as [l|]; [|done].
    case_bool_decide.
    + by rewrite lookup_delete_ne.
    + by rewrite lookup_insert_ne.
Qed.

Lemma remove_mappings_absent appId triggers : forall w t,
  t ∈ triggers \/
  appId ∉ default [] (triggerMappings (appRegistry w) !! t) ->
  appId ∉ default [] (triggerMappings
                        (appRegistry (remove_mappings appId triggers w)) !! t).
Proof.
  unfold remove_mappings.
  induction triggers as [|t0 ts IH]; intros w t H; cbn.
  - destruct H as [H|H]; [by apply elem_of_nil in H | done].
  - apply IH. destruct H as [[->|H]%elem_of_cons|H].
    + right. apply _removeTriggerMapping_absent.
    + by left.
    + right. by apply _removeTriggerMapping_keeps_absent.
Qed.

(** Only the trigger index changes. *)
Lemma remove_mappings_frame appId triggers : forall w,
  conns (remove_mappings appId triggers w) = conns w /\
  persistence (remove_mappings appId triggers w) = persistence w /\
  poolManager (remove_mappings appId triggers w) = poolManager w /\
  triggerRouter (remove_mappings appId triggers w) = triggerRouter w /\
  apps (appRegistry (remove_mappings appId triggers w))
    = apps (appRegistry w) /\
  connections (appRegistry (remove_mappings appId triggers w))
    = connections (appRegistry w) /\
  rehydrationCache (appRegistry (remove_mappings appId triggers w))
    = rehydrationCache (appRegistry w) /\
  lastSeenApps (appRegistry (remove_mappings appId triggers w))
    = lastSeenApps (appRegistry w).
Proof.
  unfold remove_mappings.
  induction triggers as [|t ts IH]; intros w; cbn; [done|].
  destruct (IH (_removeTriggerMapping appId t w))
    as (-> & -> & -> & -> & -> & -> & -> & ->). done.
Qed.

(** C9, as the claim has it, fails on the pool memberships: after [A]
    disconnects it is still a member of pool [default], in both
    directions of the index. *)
Lemma C9_pool_membership_survives_disconnect :
  Registry.getApp "A" (Scenarios.disconnect 1 Scenarios.two_apps) = None /\
  Pools.validatePoolMembership "A" "default"
    (Scenarios.disconnect 1 Scenarios.two_apps) = true /\
  poolMembership (poolManager (Scenarios.disconnect 1 Scenarios.two_apps))
    !! "default"%string = Some ["A"%string; "B"%string].
Proof. split_and!; vm_compute; reflexivity. Qed.

(** C9, amended.  When the connection bound to [appId] disconnects, the
    registration's pools, triggers and metadata are kept in the
    rehydration cache, the app is removed from the trigger index under
    every trigger of its registration, and the binding is dropped; the
    pool manager, and with it the app's pool memberships, is left as it
    was. *)
Theorem C9_disconnect_keeps_cache_and_pools c w appId registration :
  connections (appRegistry w) !! c = Some appId ->
  appId <> ""%string ->
  apps (appRegistry w) !! appId = Some registration ->
  exists w',
    handleDisconnection Router._handleAppDisconnection c w
      = (w', Return tt) /\
    rehydrationCache (appRegistry w') !! appId
      = Some {| ce_pools := reg_pools registration;
                ce_triggers := reg_triggers registration;
                ce_meta := reg_meta registration;
                ce_lastRegistered := Some (reg_registered registration) |} /\
    (forall t, t ∈ reg_triggers registration ->
       appId ∉ default [] (triggerMappings (appRegistry w') !! t)) /\
    apps (appRegistry w') !! appId = None /\
    connections (appRegistry w') !! c = None /\
    poolManager w' = poolManager w.
Proof.
  intros Hconn Hne Happ. unfold handleDisconnection.
  rewrite get_bind, Hconn. unfold truthy.
  rewrite bool_decide_eq_false_2 by done.
  unfold getApp. rewrite Happ.
  rewrite bind_assoc, modify_bind, bind_assoc, modify_bind.
  set (w1 := cache_registration appId (cache_of registration)
               (remove_mappings appId (reg_triggers registration) w)).
  unfold Router._handleAppDisconnection. rewrite bind_assoc, get_bind.
  cbv zeta.
  destruct (for_each_timeout_spec
              (filter (fun record => Router.from_app appId record = true)
                 (Router.rec_values (Router.table w1))) w1)
    as (w2 & Hrun & _ & _ & _ & Hpm & Hreg & _ & _).
  unfold bind at 1. rewrite Hrun. rewrite modify_bind.
  eexists. split; [reflexivity|]. cbn. rewrite Hreg, Hpm.
  destruct (remove_mappings_frame appId (reg_triggers registration) w)
    as (_ & _ & Hpm1 & _ & _ & _ & _ & _).
  split_and!.
  - subst w1. cbn. by rewrite lookup_insert_eq.
  - intros t Ht. subst w1. cbn.
    apply (remove_mappings_absent appId (reg_triggers registration) w t).
    by left.
  - by rewrite lookup_delete_eq.
  - by rewrite lookup_delete_eq.
  - subst w1. cbn. exact Hpm1.
Qed.

Lemma C9_witness :
  exists w',
    handleDisconnection Router._handleAppDisconnection 1 Scenarios.two_apps
      = (w', Return tt) /\
    rehydrationCache (appRegistry w') !! "A"%string
      = Some {| ce_pools := ["default"%string];
                ce_triggers := ["echo"%string];
                ce_meta := ∅;
                ce_lastRegistered := Some 1 |} /\
    (forall t, t ∈ ["echo"%string] ->
       "A"%string ∉ default [] (triggerMappings (appRegistry w') !! t)) /\
    apps (appRegistry w') !! "A"%string = None /\
    connections (appRegistry w') !! 1 = None /\
    poolManager w' = poolManager Scenarios.two_apps.
Proof.
  apply (C9_disconnect_keeps_cache_and_pools 1 Scenarios.two_apps "A"
           {| reg_appId := "A"; reg_connection := Some 1;
              reg_pools := ["default"%string];
              reg_triggers := ["echo"%string]; reg_meta := ∅;
              reg_protocolVersion := Some "0.1.0"%string;
              reg_registered := 1; reg_rehydrated := false;
              reg_originalRegistration := None |}).
  - vm_compute. reflexivity.
  - discriminate.
  - vm_compute. reflexivity.
Defined.

End DisconnectFacts.

(** ** Joining pools *)

Module JoinFacts.
Import CallFacts Protocol State Invariants TransportFacts.
Import Pools.

#[global] Instance pool_stable_preorder : PreOrder pool_stable.
Proof.
  split.
  - intros w. split; [done|]. by intros q Hq.
  - intros w1 w2 w3 [Hs12 H12] [Hs23 H23]. split; [congruence|].
    intros q Hq. destruct (H12 q Hq) as [Hq2 Hm2].
    destruct (H23 q Hq2) as [Hq3 Hm3]. split; [done | congruence].
Qed.

Lemma pool_stable_same w w' : poolManager w' = poolManager w -> pool_stable w w'.
Proof. intros H. unfold pool_stable. rewrite H. split; [done|]. by intros q Hq. Qed.

Lemma joinable_stable appId poolName w w' :
  pool_stable w w' -> joinable appId poolName w -> joinable appId poolName w'.
Proof.
  intros [Hsec Hst] (Ha & Hp & Hpool & md & Hmd & Hacc).
  destruct (Hst _ Hpool) as [Hpool' Hmd'].
  split; [done|]. split; [done|]. split; [done|].
  exists md. split; [congruence|].
  unfold access_ok in *. by rewrite Hsec.
Qed.

Lemma hasPool_loaded poolName w :
  is_Some (pools (poolManager w) !! poolName) ->
  hasPool poolName w = (w, Return true).
Proof.
  intros [pool Hpool]. unfold hasPool. rewrite gets_bind. by rewrite Hpool.
Qed.

Lemma getPool_loaded poolName w :
  poolName <> ""%string ->
  is_Some (pools (poolManager w) !! poolName) ->
  getPool poolName w
    = (w, Return (poolMetadata (poolManager w) !! poolName)).
Proof.
  intros Hne [pool Hpool]. unfold getPool.
  rewrite throw_if_bind, bool_decide_eq_false_2 by done.
  rewrite gets_bind. by rewrite Hpool.
Qed.

Lemma hasPool_state poolName w w' o : hasPool poolName w = (w', o) -> w' = w.
Proof.
  unfold hasPool. rewrite gets_bind.
  destruct (pools (poolManager w) !! poolName); by intros [= <- _].
Qed.

(** [getPool] loads a pool only where none is loaded. *)
Lemma getPool_Return poolName w w' r :
  getPool poolName w = (w', Return r) ->
  pool_stable w w' /\
  (is_Some r ->
     is_Some (pools (poolManager w') !! poolName) /\
     poolMetadata (poolManager w') !! poolName = r).
Proof.
  unfold getPool. rewrite throw_if_bind.
  destruct (bool_decide (poolName = "")); [discriminate|].
  rewrite gets_bind.
  destruct (pools (poolManager w) !! poolName) as [pool|] eqn:Hpool.
  - intros [= <- <-]. split; [reflexivity|]. intros _. by rewrite Hpool.
  - unfold PersistenceLayer.getPool. rewrite gets_bind.
    destruct (pool_rows (persistence w) !! poolName) as [p|].
    + unfold load_pool. rewrite modify_bind. intros [= <- <-].
      split.
      * split; [done|]. intros q Hq. cbn.
        assert (q <> poolName) as Hne by (intros ->; rewrite Hpool in Hq; by destruct Hq).
        by rewrite !lookup_insert_ne.
      * intros _. cbn. by rewrite !lookup_insert_eq.
    + intros [= <- <-]. split; [reflexivity|]. by intros [? ?].
Qed.

Lemma getPool_Throw poolName w w' e :
  getPool poolName w = (w', Throw e) -> w' = w.
Proof.
  unfold getPool. rewrite throw_if_bind.
  destruct (bool_decide (poolName = "")); [by intros [= <- _]|].
  rewrite gets_bind.
  destruct (pools (poolManager w) !! poolName) as [pool|]; [discriminate|].
  unfold PersistenceLayer.getPool. rewrite gets_bind.
  destruct (pool_rows (persistence w) !! poolName) as [p|]; discriminate.
Qed.

(** [_checkPoolAccess] for joining is the test [access_ok]. *)
Lemma _checkPoolAccess_state appId poolName perm w w' o :
  _checkPoolAccess appId poolName perm w = (w', o) -> w' = w.
Proof.
  revert w' o.
  assert (preserves (same id) (_checkPoolAccess appId poolName perm)) as H.
  { unfold _checkPoolAccess. solve_preserves. }
  intros w' o Hrun. exact (H _ _ _ Hrun).
Qed.

Lemma _checkPoolAccess_ok appId poolName w metadata :
  poolMetadata (poolManager w) !! poolName = Some metadata ->
  access_ok (poolManager w) metadata appId poolName = true ->
  _checkPoolAccess appId poolName READ w = (w, Return true).
Proof.
  intros Hmd Hacc. unfold _checkPoolAccess. rewrite gets_bind, Hmd.
  cbv zeta. unfold access_ok in Hacc.
  apply andb_prop in Hacc as [Henc Hpol].
  assert (forall k : M World bool,
            bind (if pc_encrypted metadata
                  then match security (poolManager w) with
                       | Some sec =>
                           throw_if (negb (checkPoolAccess sec appId poolName READ))
                             "Access denied to encrypted pool: insufficient encryption keys"
                       | None =>
                           throw_if
                             (negb (includes
                                      (default []
                                         (policy_get
                                            (default _getDefaultPolicies
                                               (pc_policies metadata)) ADMIN))
                                      appId))
                             "Access denied to encrypted pool: admin permission required"
                       end
                  else ret tt) (fun _ => k) w = k w) as ->.
  { intros k. destruct (pc_encrypted metadata); [|done].
    destruct (security (poolManager w)); by rewrite throw_if_bind, Henc. }
  rewrite throw_if_bind.
  apply orb_prop in Hpol as [-> | ->]; [done|].
  by rewrite andb_false_r.
Qed.


Lemma addAppToPool_frame appId poolName :
  preserves (same outside_membership) (addAppToPool appId poolName).
Proof.
  unfold addAppToPool, hasPool, getPool, _checkPoolAccess, load_pool,
    PersistenceLayer.getPool.
  solve_preserves.
Qed.

(** The membership update at the end of [addAppToPool]. *)
Lemma join_update_stable appId poolName w :
  pool_stable w
    (set_poolManager (fun pm =>
       set_pools (alter (add_member appId) poolName)
         (set_poolMembership
            (fun m => <[poolName := set_add appId (default [] (m !! poolName))]> m)
            (set_appPoolMembership
               (fun m => <[appId := set_add poolName (default [] (m !! appId))]> m)
               pm))) w).
Proof.
  split; [done|]. intros q Hq. cbn. split; [|done].
  rewrite lookup_alter. case_decide; [|done]. subst.
  destruct Hq as [x ->]. by eexists.
Qed.





Lemma join_all_frame appId (ps : list string) :
  preserves (same outside_membership)
    (for_each ps (fun poolName => addAppToPool appId poolName ;;; ret tt)).
Proof.
  apply preserves_for_each; [exact _|]. intros p.
  apply preserves_bind; [exact _| |intros ?; apply preserves_ret; exact _].
  apply addAppToPool_frame.
Qed.

End JoinFacts.

(** ** Handshakes and rehydration *)

Module HandshakeFacts.
Import CallFacts Protocol State Invariants TransportFacts JoinFacts.
Import Registry.

Lemma set_add_elem x (l : list string) : x ∈ set_add x l.
Proof.
  unfold set_add, includes. case_bool_decide; [done|].
  apply elem_of_app. right. by apply list_elem_of_singleton.
Qed.

Lemma set_add_keeps x y (l : list string) : x ∈ l -> x ∈ set_add y l.
Proof.
  intros H. unfold set_add. destruct (includes l y); [done|].
  apply elem_of_app. by left.
Qed.

Lemma _addTriggerMapping_keeps appId t0 t w :
  appId ∈ default [] (triggerMappings (appRegistry w) !! t) ->
  appId ∈ default [] (triggerMappings
                        (appRegistry (_addTriggerMapping appId t0 w)) !! t).
Proof.
  intros H. unfold _addTriggerMapping. cbn.
  destruct (decide (t = t0)) as [->|Hne].
  - rewrite lookup_insert_eq. cbn. by apply set_add_keeps.
  - by rewrite lookup_insert_ne.
Qed.

Lemma _addTriggerMapping_indexed appId t w :
  appId ∈ default [] (triggerMappings
                        (appRegistry (_addTriggerMapping appId t w)) !! t).
Proof.
  unfold _addTriggerMapping. cbn. rewrite lookup_insert_eq. cbn.
  apply set_add_elem.
Qed.

(** After [add_mappings] the app is indexed under each of the triggers. *)
Lemma add_mappings_indexed appId triggers : forall w t,
  t ∈ triggers \/
  appId ∈ default [] (triggerMappings (appRegistry w) !! t) ->
  appId ∈ default [] (triggerMappings
                        (appRegistry (add_mappings appId triggers w)) !! t).
Proof.
  unfold add_mappings.
  induction triggers as [|t0 ts IH]; intros w t H; cbn.
  - destruct H as [H|H]; [by apply elem_of_nil in H | done].
  - apply IH. destruct H as [[->|H]%elem_of_cons|H].
    + right. apply _addTriggerMapping_indexed.
    + by left.
    + right. by apply _addTriggerMapping_keeps.
Qed.

(** Only the trigger index changes. *)
Lemma add_mappings_frame appId triggers : forall w,
  conns (add_mappings appId triggers w) = conns w /\
  persistence (add_mappings appId triggers w) = persistence w /\
  poolManager (add_mappings appId triggers w) = poolManager w /\
  triggerRouter (add_mappings appId triggers w) = triggerRouter w /\
  apps (appRegistry (add_mappings appId triggers w)) = apps (appRegistry w) /\
  connections (appRegistry (add_mappings appId triggers w))
    = connections (appRegistry w) /\
  rehydrationCache (appRegistry (add_mappings appId triggers w))
    = rehydrationCache (appRegistry w) /\
  lastSeenApps (appRegistry (add_mappings appId triggers w))
    = lastSeenApps (appRegistry w).
Proof.
  unfold add_mappings.
  induction triggers as [|t ts IH]; intros w; cbn; [done|].
  destruct (IH (_addTriggerMapping appId t w))
    as (-> & -> & -> & -> & -> & -> & -> & ->). done.
Qed.

(** [_hasRehydrationData] looks into the cache, then into the store. *)
Lemma _hasRehydrationData_spec app_id w :
  _hasRehydrationData app_id w
    = (w, Return (bool_decide
                    (is_Some (rehydrationCache (appRegistry w) !! app_id))
                  || bool_decide
                       (is_Some (app_rows (persistence w) !! app_id)))).
Proof.
  unfold _hasRehydrationData, try_catch. rewrite get_bind.
  destruct (rehydrationCache (appRegistry w) !! app_id) as [entry|].
  - unfold ret. by rewrite bool_decide_eq_true_2 by eauto.
  - unfold PersistenceLayer.getApp. rewrite gets_bind. unfold ret.
    rewrite (bool_decide_eq_false_2 (is_Some None)); [done|].
    by intros [? ?].
Qed.


Lemma _persistAppRegistration_spec now registration w :
  _persistAppRegistration now registration w
    = (set_persistence (set_app_rows (insert (reg_appId registration)
         {| row_pools := reg_pools registration;
            row_triggers := reg_triggers registration;
            row_meta := reg_meta registration;
            row_protocolVersion := reg_protocolVersion registration;
            row_registered := Some now |})) w, Return tt).
Proof. reflexivity. Qed.



#[global] Instance cache_grows_preorder : PreOrder cache_grows.
Proof.
  split.
  - by intros w a Ha.
  - intros w1 w2 w3 H12 H23 a Ha. by apply H23, H12.
Qed.




(** The registry's handling of a disconnection, with the router
    listening, leaves the store and the pool manager alone and keeps the
    cache entries. *)
Lemma _handleAppDisconnection_frame appId :
  preserves (same (fun w => (persistence w, poolManager w, appRegistry w)))
    (Router._handleAppDisconnection appId).
Proof.
  unfold Router._handleAppDisconnection, Router._timeoutTriggerRecord,
    Router._cleanupTriggerRecord.
  solve_preserves. by apply send_same.
Qed.












End HandshakeFacts.

(** ** Frames *)

Module FramingFacts.
Import Framing.

Local Abbreviation blen := Memory.blen.

Lemma Z_of_byte_of_Z n : Z_of_byte (byte_of_Z n) = n mod 256.
Proof.
  unfold Z_of_byte, byte_of_Z.
  assert (0 <= n mod 256 < 256) as Hr by (apply Z.mod_pos_bound; lia).
  destruct (Byte.of_N (Z.to_N (n mod 256))) as [y|] eqn:Hy; cbn.
  - apply Byte.to_of_N in Hy. rewrite Hy. lia.
  - apply Byte.of_N_None_iff in Hy. lia.
Qed.

Lemma readUInt32BE_uint32BE n rest :
  0 <= n < 2 ^ 32 -> readUInt32BE (uint32BE n ++ rest) = n.
Proof.
  intros Hn. unfold uint32BE, readUInt32BE. cbn [app].
  rewrite !Z_of_byte_of_Z.
  change (2 ^ 32) with 4294967296 in Hn.
  change (2 ^ 24) with 16777216. change (2 ^ 16) with 65536.
  change (2 ^ 8) with 256.
  Z.to_euclidean_division_equations. lia.
Qed.

Lemma uint32BE_length n : blen (uint32BE n) = 4.
Proof. reflexivity. Qed.

Lemma slice_inside (buf : list Byte.byte) a b :
  0 <= a <= b -> b <= blen buf ->
  Memory.slice buf a b = take (Z.to_nat (b - a)) (drop (Z.to_nat a) buf).
Proof.
  intros Ha Hb. unfold Memory.slice, Memory.clamp_index.
  replace (a <? 0) with false by (symmetry; lia).
  replace (b <? 0) with false by (symmetry; lia).
  rewrite !Z.min_l by lia.
  destruct (b <=? a) eqn:Hba; [|done].
  replace (b - a) with 0 by lia. done.
Qed.

Lemma blen_app (l k : list Byte.byte) : blen (l ++ k) = blen l + blen k.
Proof. unfold Memory.blen. rewrite length_app. lia. Qed.

Lemma blen_nonneg (l : list Byte.byte) : 0 <= blen l.
Proof. unfold Memory.blen. lia. Qed.

(** The payload and the rest of a buffer that starts with a whole
    frame. *)
Lemma slice_payload h (p rest : list Byte.byte) :
  blen h = 4 ->
  Memory.slice (h ++ p ++ rest) FRAME_HEADER_SIZE
    (FRAME_HEADER_SIZE + blen p) = p.
Proof.
  intros Hh. pose proof (blen_nonneg p). pose proof (blen_nonneg rest).
  rewrite slice_inside;
    [|unfold FRAME_HEADER_SIZE; lia
     |rewrite !blen_app; unfold FRAME_HEADER_SIZE; lia].
  unfold FRAME_HEADER_SIZE.
  replace (Z.to_nat 4) with (length h) by (unfold Memory.blen in Hh; lia).
  rewrite drop_app_length.
  replace (Z.to_nat (4 + blen p - 4)) with (length p)
    by (unfold Memory.blen; lia).
  by rewrite take_app_length.
Qed.

Lemma slice_rest h (p rest : list Byte.byte) :
  blen h = 4 ->
  Memory.slice (h ++ p ++ rest) (FRAME_HEADER_SIZE + blen p)
    (blen (h ++ p ++ rest)) = rest.
Proof.
  intros Hh. pose proof (blen_nonneg p). pose proof (blen_nonneg rest).
  rewrite slice_inside;
    [|rewrite !blen_app; unfold FRAME_HEADER_SIZE; lia|lia].
  rewrite app_assoc.
  replace (Z.to_nat (FRAME_HEADER_SIZE + blen p)) with (length (h ++ p))
    by (rewrite length_app; unfold FRAME_HEADER_SIZE, Memory.blen in *; lia).
  rewrite drop_app_length. apply take_ge.
  rewrite !blen_app. unfold FRAME_HEADER_SIZE, Memory.blen in *. lia.
Qed.

Lemma prefix_app_ge {A} (l x y : list A) :
  l `prefix_of` x ++ y -> (length x <= length l)%nat ->
  exists l', l = x ++ l' /\ l' `prefix_of` y.
Proof.
  intros [k Hk] Hlen.
  assert (take (length x) l = x) as Hx.
  { rewrite <- (take_app_le l k) by done.
    rewrite <- Hk. by rewrite take_app_length. }
  exists (drop (length x) l). split.
  - by rewrite <- Hx at 1; rewrite take_drop.
  - exists k. apply (app_inv_head x).
    rewrite Hk, app_assoc. f_equal.
    by rewrite <- Hx at 1; rewrite take_drop.
Qed.

Section Reassembly.

Context {Msg : Type} (JSON_parse : list Byte.byte -> outcome Msg).

(** A payload with the message it parses to, within the size limit. *)
Local Abbreviation ok := (fun pm : list Byte.byte * Msg =>
  blen pm.1 <= MAX_FRAME_SIZE /\ JSON_parse pm.1 = Return pm.2).

Local Abbreviation wire := (fun items : list (list Byte.byte * Msg) =>
  concat (map (fun pm => uint32BE (blen pm.1) ++ pm.1) items)).

(** What is left in the framer when [items] are still to come. *)
Local Abbreviation pending :=
  (fun (c : Framer) (items : list (list Byte.byte * Msg)) =>
     match items with
     | [] => buffer c = [] /\ expectedFrameSize c = None
     | pm :: _ =>
         blen (buffer c) < 4 + blen pm.1 /\
         expectedFrameSize c
           = if 4 <=? blen (buffer c) then Some (blen pm.1) else None
     end).

(** One round of the loop on a buffer that holds a header whose size is
    known or acceptable. *)
Lemma frames_step fuel b e n :
  4 <= blen b ->
  e = Some n \/ (e = None /\ readUInt32BE b = n /\ n <= MAX_FRAME_SIZE) ->
  frames Msg JSON_parse (S fuel) {| buffer := b; expectedFrameSize := e |}
  = if blen b <? FRAME_HEADER_SIZE + n
    then ({| buffer := b; expectedFrameSize := Some n |}, [])
    else
      match JSON_parse (Memory.slice b FRAME_HEADER_SIZE
                          (FRAME_HEADER_SIZE + n)) with
      | Return message =>
          let '(c', events) :=
            frames Msg JSON_parse fuel
              {| buffer := Memory.slice b (FRAME_HEADER_SIZE + n) (blen b);
                 expectedFrameSize := None |} in
          (c', EvMessage message :: events)
      | Throw err =>
          ({| buffer := Memory.slice b (FRAME_HEADER_SIZE + n) (blen b);
              expectedFrameSize := None |}, [EvError (InvalidJSON err)])
      end.
Proof.
  intros Hlen He. cbn [frames buffer expectedFrameSize].
  replace (blen b <? FRAME_HEADER_SIZE) with false
    by (symmetry; unfold FRAME_HEADER_SIZE; lia).
  destruct He as [->|(-> & Hn & Hmax)]; [done|].
  rewrite Hn. by replace (n >? MAX_FRAME_SIZE) with false by (symmetry; lia).
Qed.

Lemma frames_prefix items :
  Forall ok items ->
  forall fuel b e,
    b `prefix_of` wire items ->
    (length b < fuel)%nat ->
    (e = None \/
     exists pm rest, items = pm :: rest /\ e = Some (blen pm.1) /\
                     4 <= blen b) ->
    exists items1 items2 c',
      items = items1 ++ items2 /\
      b = wire items1 ++ buffer c' /\
      pending c' items2 /\
      frames Msg JSON_parse fuel {| buffer := b; expectedFrameSize := e |}
        = (c', map EvMessage items1.*2).
Proof.
  induction 1 as [|[p m] items [Hsize Hparse] Hitems IH];
    intros fuel b e Hpre Hfuel He.
  - apply prefix_nil_inv in Hpre as ->.
    destruct He as [->|(pm & rest & [=] & _)].
    exists [], [], fresh. destruct fuel; [lia|]. done.
  - cbn [fst snd] in Hsize, Hparse.
    destruct fuel as [|fuel]; [lia|].
    pose proof (blen_nonneg p) as Hp0.
    destruct (blen b <? FRAME_HEADER_SIZE) eqn:Hshort.
    + cbn [frames buffer expectedFrameSize]. rewrite Hshort.
      assert (e = None) as ->.
      { destruct He as [->|(pm & rest & _ & _ & Hge)]; [done|].
        unfold FRAME_HEADER_SIZE in Hshort. lia. }
      exists [], ((p, m) :: items),
        {| buffer := b; expectedFrameSize := None |}.
      split; [done|]. split; [done|]. split; [|done]. cbn.
      unfold FRAME_HEADER_SIZE in Hshort.
      split; [lia|]. by replace (4 <=? blen b) with false by (symmetry; lia).
    + unfold FRAME_HEADER_SIZE in Hshort.
      cbn [map concat fst] in Hpre. rewrite <- app_assoc in Hpre.
      destruct (prefix_app_ge _ _ _ Hpre) as (b1 & -> & Hpre1).
      { cbn. unfold Memory.blen in Hshort. lia. }
      assert (0 <= blen p < 2 ^ 32) as Hrange.
      { unfold MAX_FRAME_SIZE in Hsize. change (2 ^ 32) with 4294967296. lia. }
      rewrite (frames_step _ _ _ (blen p)).
      2:{ lia. }
      2:{ destruct He as [->|(pm & rest & [= <- _] & -> & _)]; [|by left].
          right. rewrite readUInt32BE_uint32BE by done. done. }
      destruct (blen (uint32BE (blen p) ++ b1)
                <? FRAME_HEADER_SIZE + blen p) eqn:Hpart.
      * exists [], ((p, m) :: items),
          {| buffer := uint32BE (blen p) ++ b1;
             expectedFrameSize := Some (blen p) |}.
        split; [done|]. split; [done|]. split; [|done].
        cbn [buffer expectedFrameSize fst].
        unfold FRAME_HEADER_SIZE in Hpart. split; [lia|].
        rewrite blen_app, uint32BE_length.
        pose proof (blen_nonneg b1).
        by replace (4 <=? 4 + blen b1) with true by (symmetry; lia).
      * destruct (prefix_app_ge _ _ _ Hpre1) as (b2 & -> & Hpre2).
        { rewrite blen_app, uint32BE_length in Hpart.
          unfold FRAME_HEADER_SIZE, Memory.blen in Hpart. lia. }
        rewrite slice_payload, slice_rest by apply uint32BE_length.
        rewrite Hparse.
        destruct (IH fuel b2 None Hpre2) as
          (items1 & items2 & c' & -> & -> & Hpend & ->); [|by left|].
        { cbn in Hfuel. rewrite !length_app in Hfuel. cbn in Hfuel. lia. }
        exists ((p, m) :: items1), items2, c'.
        split; [done|]. split; [|split; [done|done]].
        cbn [map concat fst]. by rewrite <- !app_assoc.
Qed.

Lemma frame_in_range (p : list Byte.byte) :
  blen p < 2 ^ 32 -> frame p = Some (uint32BE (blen p) ++ p).
Proof.
  intros Hp. pose proof (blen_nonneg p). unfold frame, writeUInt32BE.
  replace (0 <=? blen p) with true by (symmetry; lia).
  by replace (blen p <? 2 ^ 32) with true by (symmetry; lia).
Qed.

Lemma stream_wire items :
  Forall ok items -> stream items.*1 = Some (wire items).
Proof.
  unfold stream. induction 1 as [|[p m] items [Hsize _] _ IH]; [done|].
  cbn [fmap list_fmap fst mapM]. cbn [fst] in Hsize.
  rewrite frame_in_range
    by (unfold MAX_FRAME_SIZE in Hsize; change (2 ^ 32) with 4294967296; lia).
  cbn [mbind option_bind].
  destruct (mapM frame items.*1) as [fs|]; [|done].
  cbn in IH |- *. by inversion IH.
Qed.

(** A chunk that continues the stream of [items]. *)
Lemma _handleData_prefix items data c :
  Forall ok items ->
  pending c items ->
  buffer c ++ data `prefix_of` wire items ->
  exists items1 items2 c',
    items = items1 ++ items2 /\
    buffer c ++ data = wire items1 ++ buffer c' /\
    pending c' items2 /\
    _handleData Msg JSON_parse data c = (c', map EvMessage items1.*2).
Proof.
  intros Hok Hpend Hpre. unfold _handleData. cbn [buffer expectedFrameSize].
  apply frames_prefix; [done|done|lia|].
  destruct items as [|pm rest].
  - left. by destruct Hpend.
  - destruct Hpend as [_ ->].
    destruct (4 <=? blen (buffer c)) eqn:Hge; [|by left].
    right. exists pm, rest. split; [done|]. split; [done|].
    rewrite blen_app. pose proof (blen_nonneg data). lia.
Qed.

Lemma feed_stream chunks : forall items c,
  Forall ok items ->
  pending c items ->
  buffer c ++ concat chunks = wire items ->
  feed Msg JSON_parse chunks c = (fresh, map EvMessage items.*2).
Proof.
  induction chunks as [|data chunks IH]; intros items c Hok Hpend Hall.
  - cbn [concat] in Hall. cbn [feed]. rewrite app_nil_r in Hall.
    destruct items as [|[p m] rest].
    + destruct c as [b e]. cbn in Hpend. by destruct Hpend as [-> ->].
    + destruct Hpend as [Hlt _]. exfalso. rewrite Hall in Hlt.
      cbn [map concat fst] in Hlt. rewrite !blen_app in Hlt.
      rewrite uint32BE_length in Hlt.
      pose proof (blen_nonneg
        (concat (map (fun pm => uint32BE (blen pm.1) ++ pm.1) rest))).
      lia.
  - cbn [concat] in Hall. rewrite app_assoc in Hall.
    destruct (_handleData_prefix items data c Hok Hpend)
      as (items1 & items2 & c' & -> & Hsplit & Hpend' & Hrun).
    { exists (concat chunks). by rewrite Hall. }
    apply Forall_app in Hok as [_ Hok2].
    cbn [feed]. rewrite Hrun.
    rewrite (IH items2 c' Hok2 Hpend').
    + by rewrite fmap_app, map_app.
    + rewrite Hsplit, map_app, concat_app, <- app_assoc in Hall.
      by apply app_inv_head in Hall.
Qed.

(** Frames written by [send] for payloads within the size limit come out
    of [_handleData] as the parsed messages, one event per frame and in
    order, however the bytes are cut into chunks; the connection is left
    with an empty buffer. *)
Theorem frames_reassembled_from_any_chunking
    (items : list (list Byte.byte * Msg)) (chunks : list (list Byte.byte)) :
  Forall (fun pm => blen pm.1 <= MAX_FRAME_SIZE /\
                    JSON_parse pm.1 = Return pm.2) items ->
  stream items.*1 = Some (concat chunks) ->
  feed Msg JSON_parse chunks fresh = (fresh, map EvMessage items.*2).
Proof.
  intros Hok Hstream. rewrite stream_wire in Hstream by done.
  apply feed_stream; [done| |by inversion Hstream].
  destruct items as [|[p m] rest]; [done|].
  cbn [buffer expectedFrameSize fresh fst]. change (blen []) with 0.
  pose proof (blen_nonneg p). split; [lia|done].
Qed.

(** The size limit is checked only in the round that reads the header.
    When the first chunk holds the header of a frame above the limit, the
    call reports the frame as too large and keeps the announced size; once
    the payload is there, the next call delivers the message. *)
Theorem oversize_frame_is_delivered_by_the_next_chunk
    (p : list Byte.byte) (m : Msg) (a d more : list Byte.byte) :
  MAX_FRAME_SIZE < blen p < 2 ^ 32 ->
  JSON_parse p = Return m ->
  4 <= blen a ->
  stream [p] = Some (a ++ d) ->
  exists c1 events,
    _handleData Msg JSON_parse a fresh
      = (c1, [EvError (FrameTooLarge (blen p))]) /\
    snd (_handleData Msg JSON_parse (d ++ more) c1)
      = EvMessage m :: events.
Proof.
  intros Hsize Hparse Ha Hframe.
  unfold stream in Hframe. cbn [mapM] in Hframe.
  rewrite frame_in_range in Hframe by lia.
  cbn [mbind option_bind mret option_ret concat] in Hframe.
  rewrite app_nil_r in Hframe. injection Hframe as Hframe.
  destruct (prefix_app_ge a (uint32BE (blen p)) p) as (a1 & -> & _).
  { exists d. exact Hframe. }
  { cbn. unfold Memory.blen in Ha. lia. }
  pose proof (blen_nonneg p) as Hp0.
  eexists {| buffer := uint32BE (blen p) ++ a1;
             expectedFrameSize := Some (blen p) |}, _.
  split.
  - unfold _handleData. cbn [buffer expectedFrameSize fresh app frames length].
    replace (blen (uint32BE (blen p) ++ a1) <? FRAME_HEADER_SIZE) with false
      by (symmetry; unfold FRAME_HEADER_SIZE; lia).
    rewrite readUInt32BE_uint32BE by lia.
    by replace (blen p >? MAX_FRAME_SIZE) with true by (symmetry; lia).
  - unfold _handleData. cbn [buffer expectedFrameSize].
    rewrite app_assoc.
    replace ((uint32BE (blen p) ++ a1) ++ d) with (uint32BE (blen p) ++ p)
      by exact Hframe.
    rewrite <- !app_assoc.
    rewrite (frames_step _ _ _ (blen p)); [| |by left].
    2:{ rewrite blen_app, uint32BE_length.
        pose proof (blen_nonneg (p ++ more)). lia. }
    replace (blen (uint32BE (blen p) ++ p ++ more)
             <? FRAME_HEADER_SIZE + blen p) with false.
    2:{ symmetry. rewrite !blen_app, uint32BE_length.
        pose proof (blen_nonneg more). unfold FRAME_HEADER_SIZE. lia. }
    rewrite slice_payload by apply uint32BE_length. rewrite Hparse.
    match goal with
    | |- context [frames ?M ?P ?n ?c] =>
        rewrite (surjective_pairing (frames M P n c))
    end.
    reflexivity.
Qed.

(** A frame whose payload does not parse ends the call: the error is
    emitted, the frame is dropped, and the bytes behind it stay in the
    buffer, to be looked at when the next chunk arrives. *)
Theorem invalid_frame_ends_the_call
    (p : list Byte.byte) (err : string) (rest : list Byte.byte) f :
  blen p <= MAX_FRAME_SIZE ->
  JSON_parse p = Throw err ->
  frame p = Some f ->
  _handleData Msg JSON_parse (f ++ rest) fresh
    = ({| buffer := rest; expectedFrameSize := None |},
       [EvError (InvalidJSON err)])
  /\ forall data,
       _handleData Msg JSON_parse data
         {| buffer := rest; expectedFrameSize := None |}
       = _handleData Msg JSON_parse (rest ++ data) fresh.
Proof.
  intros Hsize Hparse Hframe. split; [|done].
  pose proof (blen_nonneg p) as Hp0.
  rewrite frame_in_range in Hframe
    by (unfold MAX_FRAME_SIZE in Hsize; change (2 ^ 32) with 4294967296; lia).
  assert (f = uint32BE (blen p) ++ p) as -> by congruence.
  unfold _handleData. cbn [buffer expectedFrameSize fresh].
  rewrite app_nil_l, <- app_assoc.
  rewrite (frames_step _ _ _ (blen p)).
  2:{ rewrite blen_app, uint32BE_length.
      pose proof (blen_nonneg (p ++ rest)). lia. }
  2:{ right. split; [done|].
      rewrite readUInt32BE_uint32BE; [done|].
      unfold MAX_FRAME_SIZE in Hsize. change (2 ^ 32) with 4294967296. lia. }
  replace (blen (uint32BE (blen p) ++ p ++ rest)
           <? FRAME_HEADER_SIZE + blen p) with false.
  2:{ symmetry. rewrite !blen_app, uint32BE_length.
      pose proof (blen_nonneg rest). unfold FRAME_HEADER_SIZE. lia. }
  rewrite slice_payload, slice_rest by apply uint32BE_length.
  by rewrite Hparse.
Qed.

End Reassembly.

Lemma frames_reassembled_from_any_chunking_witness :
  feed (list Byte.byte) Return
    [uint32BE 5 ++ take 2 MemoryFixtures.hello;
     drop 2 MemoryFixtures.hello ++ uint32BE 5 ++ MemoryFixtures.world]
    fresh
  = (fresh, map EvMessage [MemoryFixtures.hello; MemoryFixtures.world]).
Proof.
  apply (frames_reassembled_from_any_chunking Return
           [(MemoryFixtures.hello, MemoryFixtures.hello);
            (MemoryFixtures.world, MemoryFixtures.world)]).
  - repeat constructor; vm_compute; discriminate.
  - vm_compute. reflexivity.
Defined.

Lemma oversize_frame_is_delivered_by_the_next_chunk_witness :
  let p := replicate (Z.to_nat 16777217) Byte.x00 in
  exists c1 events,
    _handleData unit (fun _ => Return tt) (uint32BE 16777217) fresh
      = (c1, [EvError (FrameTooLarge (blen p))]) /\
    snd (_handleData unit (fun _ => Return tt) (p ++ []) c1)
      = EvMessage tt :: events.
Proof.
  intros p.
  assert (blen p = 16777217) as Hp.
  { unfold p, Memory.blen. rewrite length_replicate. lia. }
  apply (oversize_frame_is_delivered_by_the_next_chunk (fun _ => Return tt)
           p tt (uint32BE 16777217) p []).
  - rewrite Hp. unfold MAX_FRAME_SIZE. lia.
  - reflexivity.
  - vm_compute. discriminate.
  - unfold stream. cbn [mapM]. rewrite frame_in_range by (rewrite Hp; lia).
    cbn [mbind option_bind mret option_ret concat].
    by rewrite app_nil_r, Hp.
Defined.

Lemma invalid_frame_ends_the_call_witness :
  _handleData unit (fun _ => Throw "Unexpected token h in JSON at position 0")
    ((uint32BE 5 ++ MemoryFixtures.hello) ++ uint32BE 5) fresh
    = ({| buffer := uint32BE 5; expectedFrameSize := None |},
       [EvError (InvalidJSON "Unexpected token h in JSON at position 0")])
  /\ forall data,
       _handleData unit
         (fun _ => Throw "Unexpected token h in JSON at position 0") data
         {| buffer := uint32BE 5; expectedFrameSize := None |}
       = _handleData unit
           (fun _ => Throw "Unexpected token h in JSON at position 0")
           (uint32BE 5 ++ data) fresh.
Proof.
  apply (invalid_frame_ends_the_call
           (fun _ => Throw "Unexpected token h in JSON at position 0")
           MemoryFixtures.hello).
  - vm_compute. discriminate.
  - reflexivity.
  - vm_compute. reflexivity.
Defined.

End FramingFacts.

(** ** Reading back what was written *)

Module BlockFacts.
Import CallFacts Memory.

Lemma blen_ge_0 (l : list Byte.byte) : 0 <= blen l.
Proof. unfold blen. lia. Qed.

(** [copy_into] when the data fits. *)
Lemma copy_into_fits (data buf : list Byte.byte) offset :
  0 <= offset -> offset + blen data <= blen buf ->
  copy_into data buf offset
  = take (Z.to_nat offset) buf ++ data
    ++ drop (Z.to_nat offset + length data) buf.
Proof.
  intros Ho Hfit. unfold copy_into. unfold blen in Hfit. cbv zeta.
  rewrite (take_ge data) by lia. done.
Qed.

Lemma copy_into_length (data buf : list Byte.byte) offset :
  0 <= offset -> offset + blen data <= blen buf ->
  length (copy_into data buf offset) = length buf.
Proof.
  intros Ho Hfit. rewrite copy_into_fits by done. unfold blen in Hfit.
  rewrite !length_app, length_take, length_drop. lia.
Qed.

Lemma slice_copy_into (data buf : list Byte.byte) offset :
  0 <= offset -> offset + blen data <= blen buf ->
  slice (copy_into data buf offset) offset (offset + blen data) = data.
Proof.
  intros Ho Hfit. unfold slice, clamp_index.
  assert (blen (copy_into data buf offset) = blen buf) as ->.
  { unfold blen. by rewrite copy_into_length. }
  pose proof (blen_ge_0 data).
  replace (offset <? 0) with false by (symmetry; lia).
  replace (offset + blen data <? 0) with false by (symmetry; lia).
  rewrite !Z.min_l by lia.
  destruct (offset + blen data <=? offset) eqn:Hempty.
  - assert (blen data = 0) as H0 by lia.
    unfold blen in H0. destruct data; [done|cbn in H0; lia].
  - rewrite copy_into_fits by done. unfold blen in *.
    rewrite drop_app_length'
      by (rewrite length_take; lia).
    replace (Z.to_nat (offset + Z.of_nat (length data) - offset))
      with (length data) by lia.
    by rewrite take_app_length.
Qed.

(** After a write that returns, reading the written range gives the
    data back. *)
Theorem write_then_read_returns_the_data
    now now' fs_ok offset data b b' r :
  write now fs_ok offset data b = (b', Return r) ->
  data <> [] ->
  snd (read now' (Some offset) (Some (blen data)) b') = Return data.
Proof.
  intros Hw Hdata.
  apply MemoryFacts.write_Return in Hw as (buf & _ & Ho & Hfit & Hbuf & _).
  unfold read. cbn [default set_lastAccessed buffer]. unfold Datatypes.id.
  rewrite Hbuf.
  assert (blen data <> 0) as Hlen.
  { unfold blen. destruct data; [done|cbn; lia]. }
  unfold num_or. replace (blen data =? 0) with false by (symmetry; lia).
  assert (blen (copy_into data buf offset) = blen buf) as Hsame.
  { unfold blen. by rewrite copy_into_length. }
  rewrite Hsame.
  replace (offset + blen data >? blen buf) with false by (symmetry; lia).
  cbn [snd]. by rewrite slice_copy_into.
Qed.

Lemma write_then_read_returns_the_data_witness :
  snd (read 7 (Some 3) (Some 5)
         (fst (write 5 true 3 MemoryFixtures.hello
                 (MemoryFixtures.block_m _getDefaultPermissions
                    (MemoryFixtures.zeros 16)))))
  = Return MemoryFixtures.hello.
Proof.
  apply (write_then_read_returns_the_data 5 7 true 3 MemoryFixtures.hello
           (MemoryFixtures.block_m _getDefaultPermissions
              (MemoryFixtures.zeros 16)) _ true).
  - vm_compute. reflexivity.
  - discriminate.
Defined.

(** A write that returns keeps the size of the buffer and changes no
    byte outside the range it was given. *)
Theorem write_changes_only_its_range now fs_ok offset data b b' r buf :
  write now fs_ok offset data b = (b', Return r) ->
  buffer b = Some buf ->
  exists buf',
    buffer b' = Some buf' /\
    length buf' = length buf /\
    forall i : nat,
      (i < Z.to_nat offset \/ Z.to_nat offset + length data <= i)%nat ->
      buf' !! i = buf !! i.
Proof.
  intros Hw Hb.
  apply MemoryFacts.write_Return in Hw as (buf0 & Hb0 & Ho & Hfit & Hbuf & _).
  rewrite Hb in Hb0. injection Hb0 as <-.
  exists (copy_into data buf offset). split; [done|].
  split; [by apply copy_into_length|].
  intros i Hi. rewrite copy_into_fits by done. unfold blen in Hfit.
  destruct Hi as [Hi|Hi].
  - rewrite lookup_app_l by (rewrite length_take; lia).
    by rewrite lookup_take_lt.
  - rewrite lookup_app_r by (rewrite length_take; lia).
    rewrite length_take, lookup_app_r by lia.
    rewrite lookup_drop. f_equal. lia.
Qed.

Lemma write_changes_only_its_range_witness :
  exists buf',
    buffer (fst (write 5 true 3 MemoryFixtures.hello
                   (MemoryFixtures.block_m _getDefaultPermissions
                      (MemoryFixtures.zeros 16)))) = Some buf' /\
    length buf' = length (MemoryFixtures.zeros 16) /\
    forall i : nat,
      (i < Z.to_nat 3 \/ Z.to_nat 3 + length MemoryFixtures.hello <= i)%nat ->
      buf' !! i = MemoryFixtures.zeros 16 !! i.
Proof.
  apply (write_changes_only_its_range 5 true 3 MemoryFixtures.hello
           (MemoryFixtures.block_m _getDefaultPermissions
              (MemoryFixtures.zeros 16)) _ true).
  - vm_compute. reflexivity.
  - reflexivity.
Defined.

(** What [read] gives for a range inside the buffer. *)
Lemma read_inside now offset len b buf :
  buffer b = Some buf -> len <> 0 -> offset + len <= blen buf ->
  read now (Some offset) (Some len) b
  = (set_lastAccessed now b, Return (slice buf offset (offset + len))).
Proof.
  intros Hb Hlen Hfit. unfold read.
  cbn [default set_lastAccessed buffer]. unfold Datatypes.id. rewrite Hb.
  unfold num_or. replace (len =? 0) with false by (symmetry; lia).
  by replace (offset + len >? blen buf) with false by (symmetry; lia).
Qed.

Lemma blen_nonzero (data : list Byte.byte) : data <> [] -> blen data <> 0.
Proof. unfold blen. destruct data; [done|cbn; lia]. Qed.

(** When the block is not memory mapped and writing the backing file
    fails, the write throws after the bytes have been copied: the version
    and the events stay as they were, and a read sees the new bytes. *)
Theorem failed_flush_leaves_the_bytes_changed
    now now' offset data b buf :
  buffer b = Some buf ->
  usesMmap b = false ->
  0 <= offset -> offset + blen data <= blen buf ->
  data <> [] ->
  exists b' e,
    write now false offset data b = (b', Throw e) /\
    version (config b') = version (config b) /\
    emitted b' = emitted b /\
    buffer b' = Some (copy_into data buf offset) /\
    snd (read now' (Some offset) (Some (blen data)) b') = Return data.
Proof.
  intros Hb Hmmap Ho Hfit Hdata.
  unfold write. cbn [set_lastAccessed buffer usesMmap set_buffer].
  rewrite Hb, Hmmap.
  replace (offset + blen data >? blen buf) with false by (symmetry; lia).
  replace (offset <? 0) with false by (symmetry; lia).
  cbn [negb andb]. eexists _, _. split; [reflexivity|].
  split; [done|]. split; [done|]. split; [done|].
  rewrite (read_inside _ _ _ _ (copy_into data buf offset)).
  - cbn [snd]. by rewrite slice_copy_into.
  - done.
  - by apply blen_nonzero.
  - replace (blen (copy_into data buf offset)) with (blen buf); [done|].
    unfold blen. by rewrite copy_into_length.
Qed.

Lemma failed_flush_leaves_the_bytes_changed_witness :
  let b := MemoryFixtures.block_m _getDefaultPermissions
             (MemoryFixtures.zeros 16) in
  exists b' e,
    write 5 false 3 MemoryFixtures.hello b = (b', Throw e) /\
    version (config b') = version (config b) /\
    emitted b' = emitted b /\
    buffer b'
      = Some (copy_into MemoryFixtures.hello (MemoryFixtures.zeros 16) 3) /\
    snd (read 7 (Some 3) (Some (blen MemoryFixtures.hello)) b')
      = Return MemoryFixtures.hello.
Proof.
  apply (failed_flush_leaves_the_bytes_changed 5 7 3 MemoryFixtures.hello
           (MemoryFixtures.block_m _getDefaultPermissions
              (MemoryFixtures.zeros 16)) (MemoryFixtures.zeros 16)).
  - reflexivity.
  - reflexivity.
  - lia.
  - vm_compute. discriminate.
  - discriminate.
Defined.

Lemma swap_if_equal_mismatch now fs_ok offset expected new_value b buf :
  buffer b = Some buf ->
  expected <> [] ->
  offset + blen expected <= blen buf ->
  slice buf offset (offset + blen expected) <> expected ->
  swap_if_equal now fs_ok offset expected new_value b
  = (set_lastAccessed now b,
     Return {| success := false;
               bytes := slice buf offset (offset + blen expected) |}).
Proof.
  intros Hb Hexp Hfit Hdiff. unfold swap_if_equal, bind.
  rewrite (read_inside _ _ _ _ buf) by (done || by apply blen_nonzero).
  unfold equals. by rewrite bool_decide_eq_false_2 by done.
Qed.

Lemma swap_if_equal_match now fs_ok offset expected new_value b buf :
  buffer b = Some buf ->
  expected <> [] ->
  0 <= offset ->
  offset + blen expected <= blen buf ->
  slice buf offset (offset + blen expected) = expected ->
  offset + blen new_value <= blen buf ->
  usesMmap b = true \/ fs_ok = true ->
  swap_if_equal now fs_ok offset expected new_value b
  = (push_event {| ev_offset := offset; ev_length := blen new_value |}
       (set_config (bump_version now (config b))
          (set_buffer (copy_into new_value buf offset)
             (set_lastAccessed now (set_lastAccessed now b)))),
     Return {| success := true; bytes := expected |}).
Proof.
  intros Hb Hexp Ho Hfit Hsame Hnew Hio. unfold swap_if_equal, bind.
  rewrite (read_inside _ _ _ _ buf) by (done || by apply blen_nonzero).
  unfold equals. rewrite bool_decide_eq_true_2 by done. cbn [negb].
  unfold write.
  cbn [set_lastAccessed buffer usesMmap set_buffer]. rewrite Hb.
  replace (offset + blen new_value >? blen buf) with false
    by (symmetry; lia).
  replace (offset <? 0) with false by (symmetry; lia).
  assert (negb (usesMmap b) && negb fs_ok = false) as ->.
  { destruct Hio as [-> | ->]; [done | by rewrite andb_false_r]. }
  done.
Qed.

(** [compareAndSwap] on a registered block, for a non-empty [expected]
    inside the buffer: when the bytes at [offset] differ from [expected]
    it reports them and leaves the bytes and the configuration of the
    block alone; when they are equal and the new value fits (and can be
    flushed) it writes the new value and adds one to the version. *)
Theorem compareAndSwap_compares_then_writes
    persistence initialize now fs_ok block_id offset expected new_value
    m b buf :
  blocks m !! block_id = Some b ->
  block_id <> ""%string ->
  buffer b = Some buf ->
  expected <> [] ->
  0 <= offset -> offset + blen expected <= blen buf ->
  (slice buf offset (offset + blen expected) <> expected ->
   exists m' b',
     compareAndSwap persistence initialize now fs_ok block_id offset
       expected new_value m
     = (m', Return {| success := false;
                      bytes := slice buf offset (offset + blen expected) |})
     /\ blocks m' !! block_id = Some b'
     /\ buffer b' = Some buf /\ config b' = config b)
  /\ (slice buf offset (offset + blen expected) = expected ->
      offset + blen new_value <= blen buf ->
      usesMmap b = true \/ fs_ok = true ->
      exists m' b',
        compareAndSwap persistence initialize now fs_ok block_id offset
          expected new_value m
        = (m', Return {| success := true; bytes := expected |})
        /\ blocks m' !! block_id = Some b'
        /\ buffer b' = Some (copy_into new_value buf offset)
        /\ version (config b') = version (config b) + 1).
Proof.
  intros Hblock Hid Hb Hexp Ho Hfit.
  assert (compareAndSwap persistence initialize now fs_ok block_id offset
            expected new_value m
          = on_block block_id b
              (swap_if_equal now fs_ok offset expected new_value) m) as ->.
  { unfold compareAndSwap, bind at 1.
    by rewrite (MemoryFacts.attach_registered _ _ _ _ _ b). }
  unfold on_block. split.
  - intros Hdiff.
    rewrite (swap_if_equal_mismatch _ _ _ _ _ _ buf) by done.
    eexists _, _. split; [reflexivity|].
    cbn [blocks set_blocks]. rewrite lookup_insert_eq. done.
  - intros Hsame Hnew Hio.
    rewrite (swap_if_equal_match _ _ _ _ _ _ buf) by done.
    eexists _, _. split; [reflexivity|].
    cbn [blocks set_blocks]. rewrite lookup_insert_eq. done.
Qed.

Lemma compareAndSwap_compares_then_writes_witness :
  let m := MemoryFixtures.manager_m _getDefaultPermissions
             (MemoryFixtures.hello ++ MemoryFixtures.zeros 11) in
  let b := MemoryFixtures.block_m _getDefaultPermissions
             (MemoryFixtures.hello ++ MemoryFixtures.zeros 11) in
  let buf := MemoryFixtures.hello ++ MemoryFixtures.zeros 11 in
  let expected := MemoryFixtures.hello in
  let new_value := MemoryFixtures.world in
  let cas := compareAndSwap None (fun _ => ([], false)) 5 true "m" 0
               expected new_value m in
  (slice buf 0 (0 + blen expected) <> expected ->
   exists m' b',
     cas = (m', Return {| success := false;
                          bytes := slice buf 0 (0 + blen expected) |})
     /\ blocks m' !! "m"%string = Some b'
     /\ buffer b' = Some buf /\ config b' = config b)
  /\ (slice buf 0 (0 + blen expected) = expected ->
      0 + blen new_value <= blen buf ->
      usesMmap b = true \/ true = true ->
      exists m' b',
        cas = (m', Return {| success := true; bytes := expected |})
        /\ blocks m' !! "m"%string = Some b'
        /\ buffer b' = Some (copy_into new_value buf 0)
        /\ version (config b') = version (config b) + 1).
Proof.
  apply (compareAndSwap_compares_then_writes None (fun _ => ([], false)) 5
           true "m" 0 MemoryFixtures.hello MemoryFixtures.world
           (MemoryFixtures.manager_m _getDefaultPermissions
              (MemoryFixtures.hello ++ MemoryFixtures.zeros 11))
           (MemoryFixtures.block_m _getDefaultPermissions
              (MemoryFixtures.hello ++ MemoryFixtures.zeros 11))
           (MemoryFixtures.hello ++ MemoryFixtures.zeros 11)).
  - vm_compute. reflexivity.
  - discriminate.
  - reflexivity.
  - discriminate.
  - lia.
  - vm_compute. discriminate.
Defined.

End BlockFacts.

(** ** Locks *)

Module LockFacts.
Import CallFacts Locks.

Lemma lockKey_mode_inj block_id mode1 mode2 :
  lockKey block_id mode1 = lockKey block_id mode2 -> mode1 = mode2.
Proof.
  unfold lockKey. intros H.
  apply String.app_inj in H. by apply String.app_inj in H.
Qed.

(** What a lock that is granted does. *)
Lemma lockMemoryBlock_Return now uuid block_id mode timeout t t' r :
  lockMemoryBlock now uuid block_id mode timeout t = (t', Return r) ->
  r = uuid /\
  locks t !! lockKey block_id mode = None /\
  block_id <> ""%string /\
  t' = {| locks := <[lockKey block_id mode :=
                       {| blockId := block_id; mode := mode;
                          acquired := now; timeout := timeout;
                          lockId := uuid |}]> (locks t);
          totalLocks := totalLocks t + 1;
          timers := timers t ++ [(now + timeout, lockKey block_id mode)] |}.
Proof.
  unfold lockMemoryBlock. intros H.
  apply bind_Return in H as (t1 & u & Hid & H).
  apply throw_if_Return in Hid as [Hid ->].
  apply bool_decide_eq_false_1 in Hid.
  rewrite get_bind in H.
  apply bind_Return in H as (t1 & u1 & Hheld & H).
  apply throw_if_Return in Hheld as [Hheld ->].
  apply bool_decide_eq_false_1 in Hheld.
  rewrite modify_bind in H. injection H as <- <-.
  split; [done|]. split; [|done].
  by destruct (locks t !! lockKey block_id mode); [destruct Hheld|].
Qed.

Lemma lockMemoryBlock_free now uuid block_id mode timeout t :
  block_id <> ""%string ->
  locks t !! lockKey block_id mode = None ->
  lockMemoryBlock now uuid block_id mode timeout t
  = ({| locks := <[lockKey block_id mode :=
                     {| blockId := block_id; mode := mode;
                        acquired := now; timeout := timeout;
                        lockId := uuid |}]> (locks t);
        totalLocks := totalLocks t + 1;
        timers := timers t ++ [(now + timeout, lockKey block_id mode)] |},
     Return uuid).
Proof.
  intros Hid Hfree. unfold lockMemoryBlock.
  rewrite throw_if_bind, bool_decide_eq_false_2 by done.
  rewrite get_bind, throw_if_bind, Hfree.
  rewrite bool_decide_eq_false_2 by (by intros [? ?]).
  by rewrite modify_bind.
Qed.

(** The lock table is keyed by block and mode: holding the exclusive lock
    on a block keeps no one from taking a lock of another mode on it. *)
Theorem exclusive_lock_admits_other_modes
    now now' uuid uuid' block_id mode timeout timeout' t t1 r :
  lockMemoryBlock now uuid block_id EXCLUSIVE timeout t = (t1, Return r) ->
  mode <> EXCLUSIVE ->
  locks t !! lockKey block_id mode = None ->
  exists t2,
    lockMemoryBlock now' uuid' block_id mode timeout' t1
      = (t2, Return uuid') /\
    (exists l, locks t2 !! lockKey block_id EXCLUSIVE = Some l /\
               lockId l = uuid) /\
    (exists l, locks t2 !! lockKey block_id mode = Some l /\
               lockId l = uuid').
Proof.
  intros Hlock Hmode Hfree.
  apply lockMemoryBlock_Return in Hlock as (_ & _ & Hid & ->).
  assert (lockKey block_id EXCLUSIVE <> lockKey block_id mode) as Hne.
  { intros H. by apply lockKey_mode_inj in H. }
  eexists. split.
  - apply lockMemoryBlock_free; [done|].
    cbn [locks]. by rewrite lookup_insert_ne.
  - cbn [locks]. split.
    + eexists. rewrite lookup_insert_ne by done.
      by rewrite lookup_insert_eq.
    + eexists. by rewrite lookup_insert_eq.
Qed.

Lemma exclusive_lock_admits_other_modes_witness :
  exists t2,
    lockMemoryBlock 20 "id-2" "m" WRITE 5000
      (fst (lockMemoryBlock 10 "id-1" "m" EXCLUSIVE 5000 no_locks))
      = (t2, Return "id-2"%string) /\
    (exists l, locks t2 !! lockKey "m" EXCLUSIVE = Some l /\
               lockId l = "id-1"%string) /\
    (exists l, locks t2 !! lockKey "m" WRITE = Some l /\
               lockId l = "id-2"%string).
Proof.
  apply (exclusive_lock_admits_other_modes 10 20 "id-1" "id-2" "m" WRITE
           5000 5000 no_locks _ "id-1").
  - vm_compute. reflexivity.
  - discriminate.
  - reflexivity.
Defined.

Lemma unlockMemoryBlock_Return block_id mode t t' r :
  unlockMemoryBlock block_id mode t = (t', Return r) ->
  t' = {| locks := delete (lockKey block_id mode) (locks t);
          totalLocks := totalLocks t; timers := timers t |}.
Proof.
  unfold unlockMemoryBlock. intros H.
  apply bind_Return in H as (t1 & u & Hid & H).
  apply throw_if_Return in Hid as [_ ->].
  rewrite get_bind in H.
  destruct (locks t !! lockKey block_id mode); [|discriminate].
  rewrite modify_bind in H. by injection H as <- _.
Qed.

Lemma fired_timers_spec (due : list (Z * string)) : forall t,
  exists t',
    for_each due (fun timer => lock_timer timer.2) t = (t', Return tt) /\
    timers t' = timers t /\ totalLocks t' = totalLocks t /\
    forall k, locks t' !! k
              = if bool_decide (k ∈ due.*2) then None else locks t !! k.
Proof.
  induction due as [|[time key] due IH]; intros t.
  - exists t. by split_and!.
  - cbn [for_each]. unfold lock_timer at 1. rewrite modify_bind.
    cbn [snd].
    destruct (IH {| locks := delete key (locks t);
                    totalLocks := totalLocks t; timers := timers t |})
      as (t' & -> & Htimers & Htotal & Hlocks).
    exists t'. split_and!; try done. intros k. rewrite Hlocks.
    cbn [fmap list_fmap fst snd locks].
    destruct (decide (k = key)) as [->|Hne].
    + rewrite (bool_decide_eq_true_2 (key ∈ key :: due.*2))
        by apply list_elem_of_here.
      case_bool_decide; [done|]. by rewrite lookup_delete_eq.
    + rewrite lookup_delete_ne by done.
      case_bool_decide as Hin.
      * rewrite bool_decide_eq_true_2; [done|]. by apply list_elem_of_further.
      * rewrite bool_decide_eq_false_2; [done|].
        intros [?|?]%elem_of_cons; done.
Qed.

(** [unlockMemoryBlock] leaves the lock's timer armed, and the timer
    looks at the key only.  When a lock is released and the same block
    and mode are locked again, the first lock's timer, once due, releases
    the second lock, whatever the second lock's own timeout. *)
Theorem stale_timer_releases_a_later_lock
    now1 now2 time uuid1 uuid2 block_id mode timeout1 timeout2
    t t1 t2 t3 r1 r2 :
  lockMemoryBlock now1 uuid1 block_id mode timeout1 t = (t1, Return r1) ->
  unlockMemoryBlock block_id mode t1 = (t2, Return true) ->
  lockMemoryBlock now2 uuid2 block_id mode timeout2 t2 = (t3, Return r2) ->
  now1 + timeout1 <= time ->
  (exists l, locks t3 !! lockKey block_id mode = Some l /\
             lockId l = uuid2 /\ acquired l = now2 /\
             timeout l = timeout2) /\
  locks (fst (run_timers time t3)) !! lockKey block_id mode = None.
Proof.
  intros Hlock1 Hunlock Hlock2 Hdue.
  apply lockMemoryBlock_Return in Hlock1 as (_ & _ & _ & ->).
  apply unlockMemoryBlock_Return in Hunlock as ->.
  apply lockMemoryBlock_Return in Hlock2 as (_ & _ & _ & ->).
  cbn [locks timers totalLocks]. split.
  - eexists. by rewrite lookup_insert_eq.
  - unfold run_timers. rewrite get_bind, modify_bind.
    cbn [locks timers totalLocks].
    match goal with
    | |- context [for_each ?due _ ?s] =>
        destruct (fired_timers_spec due s) as (t' & -> & _ & _ & Hlocks)
    end.
    cbn [fst]. rewrite Hlocks. rewrite bool_decide_eq_true_2; [done|].
    apply list_elem_of_fmap.
    exists (now1 + timeout1, lockKey block_id mode). split; [done|].
    apply list_elem_of_filter. split; [exact Hdue|].
    apply elem_of_app. left. apply elem_of_app. right.
    apply list_elem_of_here.
Qed.

Lemma stale_timer_releases_a_later_lock_witness :
  let t1 := fst (lockMemoryBlock 0 "id-1" "m" EXCLUSIVE 5000 no_locks) in
  let t2 := fst (unlockMemoryBlock "m" EXCLUSIVE t1) in
  let t3 := fst (lockMemoryBlock 4000 "id-2" "m" EXCLUSIVE 5000 t2) in
  (exists l, locks t3 !! lockKey "m" EXCLUSIVE = Some l /\
             lockId l = "id-2"%string /\ acquired l = 4000 /\
             timeout l = 5000) /\
  locks (fst (run_timers 5000 t3)) !! lockKey "m" EXCLUSIVE = None.
Proof.
  apply (stale_timer_releases_a_later_lock 0 4000 5000 "id-1" "id-2" "m"
           EXCLUSIVE 5000 5000 no_locks
           (fst (lockMemoryBlock 0 "id-1" "m" EXCLUSIVE 5000 no_locks))
           (fst (unlockMemoryBlock "m" EXCLUSIVE
                   (fst (lockMemoryBlock 0 "id-1" "m" EXCLUSIVE 5000
                           no_locks))))
           _ "id-1" "id-2").
  - vm_compute. reflexivity.
  - vm_compute. reflexivity.
  - vm_compute. reflexivity.
  - lia.
Defined.

End LockFacts.

(** ** The membership indexes of the pool manager *)

Module PoolAdminFacts.
Import CallFacts Protocol State Pools PoolAdmin.

Lemma elem_of_set_add x y (l : list string) :
  x ∈ set_add y l <-> x = y \/ x ∈ l.
Proof.
  unfold set_add, includes. case_bool_decide as Hin.
  - split; [by right|]. by intros [->|?].
  - rewrite elem_of_app, list_elem_of_singleton. tauto.
Qed.

Lemma elem_of_set_delete x y (l : list string) :
  x ∈ set_delete y l <-> x <> y /\ x ∈ l.
Proof. unfold set_delete. by rewrite list_elem_of_filter. Qed.

Lemma set_add_nonempty y (l : list string) : set_add y l <> [].
Proof.
  intros H. assert (y ∈ set_add y l) as Hy by (apply elem_of_set_add; by left).
  rewrite H in Hy. by apply elem_of_nil in Hy.
Qed.

(** Loading or creating a pool that is not in memory. *)
Lemma agree_load name pool w w' :
  members_agree w ->
  pools (poolManager w) !! name = None ->
  pool_members pool = [] ->
  poolManager w'
  = set_poolMembership (insert name [])
      (set_poolMetadata (insert name (pool_config pool))
         (set_pools (insert name pool) (poolManager w))) ->
  members_agree w'.
Proof.
  intros (Hidx & Hinst & Hmem & Hkept) Hfree Hempty Hpm.
  unfold members_agree. rewrite Hpm. cbn.
  assert (forall a, a ∉ default [] (poolMembership (poolManager w) !! name))
    as Hnone.
  { intros a Ha. apply Hmem in Ha. rewrite Hfree in Ha. by destruct Ha. }
  split_and!.
  - intros a p. destruct (decide (p = name)) as [->|Hne].
    + rewrite lookup_insert_eq. cbn. rewrite Hidx.
      split; [by intros ?%Hnone|by intros ?%elem_of_nil].
    + rewrite lookup_insert_ne by done. apply Hidx.
  - intros p pool0 a. destruct (decide (p = name)) as [->|Hne].
    + rewrite !lookup_insert_eq. intros [= <-]. by rewrite Hempty.
    + rewrite !lookup_insert_ne by done. apply Hinst.
  - intros p a. destruct (decide (p = name)) as [->|Hne].
    + rewrite lookup_insert_eq. by intros ?%elem_of_nil.
    + rewrite !lookup_insert_ne by done. apply Hmem.
  - apply Hkept.
Qed.

(** An app joins a loaded pool. *)
Lemma agree_join app_id pool_name w w' :
  members_agree w ->
  is_Some (pools (poolManager w) !! pool_name) ->
  poolManager w'
  = set_pools (alter (add_member app_id) pool_name)
      (set_poolMembership
         (fun m => <[pool_name :=
                       set_add app_id (default [] (m !! pool_name))]> m)
         (set_appPoolMembership
            (fun m => <[app_id :=
                          set_add pool_name (default [] (m !! app_id))]> m)
            (poolManager w))) ->
  members_agree w'.
Proof.
  intros (Hidx & Hinst & Hmem & Hkept) Hloaded Hpm.
  unfold members_agree. rewrite Hpm. cbn.
  split_and!.
  - intros a p.
    destruct (decide (a = app_id)) as [->|Ha];
      destruct (decide (p = pool_name)) as [->|Hp];
      rewrite ?lookup_insert_eq, ?lookup_insert_ne by done; cbn;
      rewrite ?elem_of_set_add, ?Hidx; intuition congruence.
  - intros p pool a. destruct (decide (p = pool_name)) as [->|Hp].
    + rewrite lookup_alter_eq, lookup_insert_eq. cbn.
      destruct (pools (poolManager w) !! pool_name) as [pool0|] eqn:Hpool;
        [|done].
      cbn. intros [= <-]. cbn. rewrite !elem_of_set_add.
      by rewrite (Hinst pool_name pool0 a Hpool).
    + rewrite lookup_alter_ne, lookup_insert_ne by done. apply Hinst.
  - intros p a. destruct (decide (p = pool_name)) as [->|Hp].
    + intros _. rewrite lookup_alter_eq.
      destruct Hloaded as [pool0 ->]. by eexists.
    + rewrite lookup_alter_ne, lookup_insert_ne by done. apply Hmem.
  - intros a. destruct (decide (a = app_id)) as [->|Ha].
    + rewrite lookup_insert_eq. intros [= H]. by apply set_add_nonempty in H.
    + rewrite lookup_insert_ne by done. apply Hkept.
Qed.

Lemma leave_lookup app_id pool_name (m : gmap string (list string)) a :
  default []
    (match m !! app_id with
     | Some poolSet =>
         let poolSet := set_delete pool_name poolSet in
         if bool_decide (poolSet = []) then delete app_id m
         else <[app_id := poolSet]> m
     | None => m
     end !! a)
  = if bool_decide (a = app_id)
    then set_delete pool_name (default [] (m !! app_id))
    else default [] (m !! a).
Proof.
  case_bool_decide as Ha.
  - subst a. destruct (m !! app_id) as [s|] eqn:Hs; cbv zeta.
    + change (default [] (Some s)) with s. case_bool_decide as Hempty.
      * by rewrite lookup_delete_eq, Hempty.
      * by rewrite lookup_insert_eq.
    + by rewrite Hs.
  - destruct (m !! app_id) as [s|] eqn:Hs; cbv zeta; [|done].
    case_bool_decide.
    + by rewrite lookup_delete_ne.
    + by rewrite lookup_insert_ne.
Qed.

Lemma alter_lookup_default (f : list string -> list string) p
    (m : gmap string (list string)) q :
  f [] = [] ->
  default [] (alter f p m !! q)
  = if bool_decide (q = p) then f (default [] (m !! p))
    else default [] (m !! q).
Proof.
  intros Hf. case_bool_decide as Hq.
  - subst q. rewrite lookup_alter_eq. by destruct (m !! p).
  - by rewrite lookup_alter_ne.
Qed.

(** An app leaves a pool. *)
Lemma agree_leave app_id pool_name w w' :
  members_agree w ->
  poolManager w'
  = set_pools (alter (remove_member app_id) pool_name)
      (set_poolMembership (alter (set_delete app_id) pool_name)
         (set_appPoolMembership
            (fun m =>
               match m !! app_id with
               | Some poolSet =>
                   let poolSet := set_delete pool_name poolSet in
                   if bool_decide (poolSet = []) then delete app_id m
                   else <[app_id := poolSet]> m
               | None => m
               end) (poolManager w))) ->
  members_agree w'.
Proof.
  intros (Hidx & Hinst & Hmem & Hkept) Hpm.
  unfold members_agree. rewrite Hpm. cbn.
  split_and!.
  - intros a p. rewrite leave_lookup, alter_lookup_default by done.
    repeat case_bool_decide; subst;
      rewrite ?elem_of_set_delete, ?Hidx; intuition congruence.
  - intros p pool a. rewrite alter_lookup_default by done.
    case_bool_decide as Hp.
    + subst p. rewrite lookup_alter_eq.
      destruct (pools (poolManager w) !! pool_name) as [pool0|] eqn:Hpool;
        [|done].
      cbn. intros [= <-]. cbn. rewrite !elem_of_set_delete.
      by rewrite (Hinst pool_name pool0 a Hpool).
    + rewrite lookup_alter_ne by done. apply Hinst.
  - intros p a. rewrite alter_lookup_default by done.
    case_bool_decide as Hp.
    + subst p. rewrite elem_of_set_delete. intros [_ Ha].
      apply Hmem in Ha as [pool0 Hpool].
      rewrite lookup_alter_eq, Hpool. by eexists.
    + rewrite lookup_alter_ne by done. apply Hmem.
  - intros a. destruct (decide (a = app_id)) as [->|Ha].
    + destruct (appPoolMembership (poolManager w) !! app_id) as [s|] eqn:Hs.
      * cbn. case_bool_decide.
        -- by rewrite lookup_delete_eq.
        -- rewrite lookup_insert_eq. congruence.
      * by rewrite Hs.
    + destruct (appPoolMembership (poolManager w) !! app_id) as [s|] eqn:Hs;
        cbn; [|apply Hkept].
      case_bool_decide.
      * rewrite lookup_delete_ne by done. apply Hkept.
      * rewrite lookup_insert_ne by done. apply Hkept.
Qed.

Lemma leave_all_lookup name (m : gmap string (list string)) a :
  default [] (leave_all name m !! a)
  = set_delete name (default [] (m !! a)).
Proof.
  unfold leave_all. rewrite lookup_omap.
  destruct (m !! a) as [s|]; cbn -[set_delete]; [|done].
  case_bool_decide as Hempty; cbn -[set_delete]; [by rewrite Hempty|done].
Qed.

(** A pool is removed. *)
Lemma agree_remove name w w' :
  members_agree w ->
  poolManager w'
  = set_appPoolMembership (leave_all name)
      (set_poolMembership (delete name)
         (set_poolMetadata (delete name)
            (set_pools (delete name) (poolManager w)))) ->
  members_agree w'.
Proof.
  intros (Hidx & Hinst & Hmem & Hkept) Hpm.
  unfold members_agree. rewrite Hpm. cbn -[leave_all set_delete].
  split_and!.
  - intros a p. rewrite leave_all_lookup, elem_of_set_delete.
    destruct (decide (p = name)) as [->|Hp].
    + rewrite lookup_delete_eq. cbn.
      split; [by intros [? _]|by intros ?%elem_of_nil].
    + rewrite lookup_delete_ne by done. rewrite Hidx. intuition congruence.
  - intros p pool a. destruct (decide (p = name)) as [->|Hp].
    + by rewrite lookup_delete_eq.
    + rewrite !lookup_delete_ne by done. apply Hinst.
  - intros p a. destruct (decide (p = name)) as [->|Hp].
    + rewrite lookup_delete_eq. by intros ?%elem_of_nil.
    + rewrite !lookup_delete_ne by done. apply Hmem.
  - intros a. unfold leave_all. rewrite lookup_omap.
    destruct (appPoolMembership (poolManager w) !! a) as [s|]; cbn; [|done].
    case_bool_decide; cbn; congruence.
Qed.

Lemma agree_getPool name w :
  members_agree w -> members_agree (fst (getPool name w)).
Proof.
  intros Hw. unfold getPool. rewrite throw_if_bind.
  destruct (bool_decide (name = "")); [done|].
  rewrite gets_bind.
  destruct (pools (poolManager w) !! name) as [pool|] eqn:Hpool; [done|].
  unfold PersistenceLayer.getPool. rewrite gets_bind.
  destruct (pool_rows (persistence w) !! name) as [p|]; [|done].
  unfold load_pool. rewrite modify_bind. cbn [fst ret].
  by eapply (agree_load name {| pool_config := p; pool_members := [] |}).
Qed.

Lemma agree_createPool now name type encrypted properties metadata w :
  members_agree w ->
  members_agree
    (fst (createPool now name type encrypted properties metadata w)).
Proof.
  intros Hw. unfold createPool.
  rewrite throw_if_bind. destruct (bool_decide (name = "")); [done|].
  rewrite gets_bind, throw_if_bind.
  case_bool_decide as Hfree; [done|].
  rewrite throw_if_bind. destruct (negb (validatePoolType type)); [done|].
  set (poolConfig := spread _ metadata).
  unfold bind at 1.
  destruct (_validatePoolConfig poolConfig w) as [w1 [u|e]] eqn:Hval;
    apply PoolFacts._validatePoolConfig_state in Hval as ->; [|done].
  unfold bind at 1.
  destruct (if bool_decide (type = ENCRYPTED) && negb encrypted
            then true else encrypted).
  - unfold bind at 1.
    destruct (_prepareEncryptedPool name poolConfig w) as [w1 [c|e]] eqn:Hprep;
      apply PoolFacts._prepareEncryptedPool_state in Hprep as ->; done.
  - cbn [ret]. unfold PersistenceLayer.createPool.
    rewrite modify_bind, modify_bind. cbn [fst ret].
    eapply (agree_load name {| pool_config := poolConfig;
                               pool_members := [] |}); [done| |done|done].
    destruct (pools (poolManager w) !! name) eqn:Hp; [|done].
    exfalso. apply Hfree. by eexists.
Qed.

Lemma agree_addAppToPool app_id pool_name w :
  members_agree w -> members_agree (fst (addAppToPool app_id pool_name w)).
Proof.
  intros Hw. unfold addAppToPool.
  rewrite throw_if_bind. destruct (bool_decide (app_id = "")); [done|].
  rewrite throw_if_bind. destruct (bool_decide (pool_name = "")); [done|].
  unfold bind at 1.
  destruct (hasPool pool_name w) as [w0 [poolExists|e]] eqn:Hhas;
    apply JoinFacts.hasPool_state in Hhas as ->; [|done].
  rewrite throw_if_bind. destruct (negb poolExists); [done|].
  unfold bind at 1. pose proof (agree_getPool pool_name w Hw) as Hw1.
  destruct (getPool pool_name w) as [w1 [metadata|e]] eqn:Hget; [|done].
  cbn [fst] in Hw1.
  rewrite throw_if_bind. case_bool_decide as Hloaded; [|done]. cbn [negb].
  apply JoinFacts.getPool_Return in Hget as [_ Hget].
  destruct (Hget Hloaded) as [Hpool _].
  unfold bind at 1.
  destruct (_checkPoolAccess app_id pool_name READ w1) as [w2 [b|e]] eqn:Hacc;
    apply JoinFacts._checkPoolAccess_state in Hacc as ->; [|done].
  rewrite modify_bind. cbn [fst ret].
  by eapply agree_join.
Qed.

Lemma agree_removeAppFromPool app_id pool_name w :
  members_agree w ->
  members_agree (fst (removeAppFromPool app_id pool_name w)).
Proof.
  intros Hw. unfold removeAppFromPool.
  rewrite throw_if_bind. destruct (bool_decide (app_id = "")); [done|].
  rewrite throw_if_bind. destruct (bool_decide (pool_name = "")); [done|].
  rewrite modify_bind. cbn [fst ret]. by eapply agree_leave.
Qed.

(** What [removePool] does, case by case. *)
Lemma removePool_cases name w :
  (removePool name w = (w, Return false) /\
   pools (poolManager w) !! name = None)
  \/ (exists e, removePool name w = (w, Throw e))
  \/ (removePool name w
      = (set_poolManager (fun pm =>
           set_appPoolMembership (leave_all name)
             (set_poolMembership (delete name)
                (set_poolMetadata (delete name)
                   (set_pools (delete name) pm))))
           (set_persistence (set_pool_rows (delete name)) w),
         Return true)
      /\ (name ∉ defaultPools)
      /\ default [] (poolMembership (poolManager w) !! name) = []).
Proof.
  unfold removePool. rewrite throw_if_bind.
  destruct (bool_decide (name = "")); [right; left; by eexists|].
  rewrite gets_bind.
  destruct (pools (poolManager w) !! name) as [pool|]; [|by left].
  rewrite throw_if_bind. unfold includes. case_bool_decide as Hdefault;
    [right; left; by eexists|].
  rewrite throw_if_bind.
  destruct (poolMembership (poolManager w) !! name) as [members|] eqn:Hm.
  - case_bool_decide as Hnone; cbn [negb]; [|right; left; by eexists].
    right. right. unfold persistence_removePool.
    rewrite modify_bind, modify_bind. by subst members.
  - right. right. unfold persistence_removePool.
    by rewrite modify_bind, modify_bind.
Qed.

Lemma agree_removePool name w :
  members_agree w -> members_agree (fst (removePool name w)).
Proof.
  intros Hw.
  destruct (removePool_cases name w) as [[-> _]|[[e ->]|[-> _]]]; [done..|].
  cbn [fst]. by eapply agree_remove.
Qed.

Lemma agree_after c w : members_agree w -> members_agree (after c w).
Proof.
  intros Hw. destruct c; cbn [after].
  - by apply agree_createPool.
  - by apply agree_getPool.
  - destruct (hasPool poolName w) as [w' o] eqn:Hhas.
    by apply JoinFacts.hasPool_state in Hhas as ->.
  - by apply agree_addAppToPool.
  - by apply agree_removeAppFromPool.
  - by apply agree_removePool.
Qed.

Lemma agree_new_world : members_agree ServerFixtures.new_world.
Proof.
  unfold members_agree. cbn. split_and!.
  - intros a p. rewrite !lookup_empty. cbn.
    split; by intros ?%elem_of_nil.
  - intros p pool a. by rewrite lookup_empty.
  - intros p a. rewrite lookup_empty. by intros ?%elem_of_nil.
  - intros a. by rewrite lookup_empty.
Qed.

Lemma agree_calls (calls : list PoolCall) : forall w,
  members_agree w -> members_agree (foldl (fun w c => after c w) w calls).
Proof.
  induction calls as [|c calls IH]; intros w Hw; [done|].
  cbn [foldl]. apply IH. by apply agree_after.
Qed.

(** Whatever pools are created, loaded and removed and whatever apps
    join and leave, from the empty pool manager on and whether the calls
    return or throw: an app lists a pool exactly when the pool lists the
    app, a loaded pool instance has the members the index gives it, only
    loaded pools have members, and no app is kept with an empty set of
    pools. *)
Theorem membership_indexes_agree (calls : list PoolCall) :
  members_agree
    (foldl (fun w c => after c w) ServerFixtures.new_world calls).
Proof. apply agree_calls, agree_new_world. Qed.

(** The default pools cannot be removed: [removePool] on ["default"] or
    ["system"] changes nothing and does not return [true]. *)
Theorem default_pools_are_never_removed name w :
  name ∈ defaultPools ->
  fst (removePool name w) = w /\ snd (removePool name w) <> Return true.
Proof.
  intros Hdefault.
  destruct (removePool_cases name w) as [[-> _]|[[e ->]|[_ [Hno _]]]];
    done.
Qed.

Lemma default_pools_are_never_removed_witness :
  fst (removePool "default" ServerFixtures.started_world)
    = ServerFixtures.started_world /\
  snd (removePool "default" ServerFixtures.started_world) <> Return true.
Proof.
  apply (default_pools_are_never_removed "default"
           ServerFixtures.started_world).
  apply list_elem_of_here.
Defined.

(** A pool that [removePool] removed had no member, and afterwards no app
    is a member of it, the pool is not loaded, and it is not found in the
    store either. *)
Theorem removed_pool_has_no_members name w w' :
  members_agree w ->
  removePool name w = (w', Return true) ->
  (forall a, validatePoolMembership a name w = false) /\
  (forall a, validatePoolMembership a name w' = false) /\
  getPoolMembers name w' = [] /\
  hasPool name w' = (w', Return false).
Proof.
  intros (Hidx & _ & _ & _) Hremove.
  destruct (removePool_cases name w) as [[H _]|[[e H]|[H [_ Hnone]]]];
    rewrite H in Hremove; try discriminate.
  injection Hremove as <-.
  split_and!.
  - intros a. unfold validatePoolMembership.
    destruct (_ || _); [done|].
    destruct (appPoolMembership (poolManager w) !! a) as [s|] eqn:Hs; [|done].
    unfold includes. apply bool_decide_eq_false_2. intros Hin.
    assert (name ∈ default [] (appPoolMembership (poolManager w) !! a))
      as Hin' by by rewrite Hs.
    apply Hidx in Hin'. rewrite Hnone in Hin'. by apply elem_of_nil in Hin'.
  - intros a. unfold validatePoolMembership.
    destruct (_ || _); [done|]. cbn -[leave_all].
    pose proof (leave_all_lookup name
                  (appPoolMembership (poolManager w)) a) as Hl.
    destruct (leave_all name (appPoolMembership (poolManager w)) !! a)
      as [s|]; [|done].
    cbn [default from_option id] in Hl. unfold includes.
    apply bool_decide_eq_false_2. rewrite Hl, elem_of_set_delete.
    by intros [? _].
  - unfold getPoolMembers. cbn. by rewrite lookup_delete_eq.
  - unfold hasPool. rewrite gets_bind. cbn.
    rewrite lookup_delete_eq. unfold PersistenceLayer.getPool.
    rewrite gets_bind. cbn. rewrite lookup_delete_eq.
    rewrite bool_decide_eq_false_2; [done|]. by intros [? ?].
Qed.

Lemma removed_pool_has_no_members_witness :
  let w := after (CreatePool 0 "jobs" LOCAL false
                    ServerFixtures.no_properties ServerFixtures.no_properties)
             ServerFixtures.new_world in
  let w' := fst (removePool "jobs" w) in
  (forall a, validatePoolMembership a "jobs" w = false) /\
  (forall a, validatePoolMembership a "jobs" w' = false) /\
  getPoolMembers "jobs" w' = [] /\
  hasPool "jobs" w' = (w', Return false).
Proof.
  apply (removed_pool_has_no_members "jobs"
           (after (CreatePool 0 "jobs" LOCAL false
                     ServerFixtures.no_properties
                     ServerFixtures.no_properties)
              ServerFixtures.new_world)).
  - apply agree_after, agree_new_world.
  - vm_compute. reflexivity.
Defined.

(** A pool that [createPool] returned is loaded and persisted under its
    name with the configuration returned, has no members, and cannot be
    created a second time: any further [createPool] with the name throws
    and changes nothing. *)
Theorem created_pool_is_found
    now name type encrypted properties metadata w w' poolConfig :
  createPool now name type encrypted properties metadata w
    = (w', Return poolConfig) ->
  hasPool name w' = (w', Return true) /\
  getPool name w' = (w', Return (Some poolConfig)) /\
  pool_rows (persistence w') !! name = Some poolConfig /\
  getPoolMembers name w' = [] /\
  forall now' type' encrypted' properties' metadata',
    exists e,
      createPool now' name type' encrypted' properties' metadata' w'
        = (w', Throw e).
Proof.
  unfold createPool. intros H.
  apply bind_Return in H as (w1 & u1 & Hname & H).
  apply throw_if_Return in Hname as [Hname ->].
  apply bool_decide_eq_false_1 in Hname.
  rewrite gets_bind in H.
  apply bind_Return in H as (w1 & u2 & Hfree & H).
  apply throw_if_Return in Hfree as [_ ->].
  apply bind_Return in H as (w1 & u3 & Htype & H).
  apply throw_if_Return in Htype as [_ ->].
  set (cfg := spread _ metadata) in H.
  apply bind_Return in H as (w1 & u4 & Hval & H).
  apply PoolFacts._validatePoolConfig_state in Hval as ->.
  apply bind_Return in H as (w1 & u5 & Henc & H).
  assert (w1 = w) as ->.
  { destruct (if bool_decide (type = ENCRYPTED) && negb encrypted
              then true else encrypted).
    - apply bind_Return in Henc as (? & ? & _ & [=]).
    - by injection Henc as <-. }
  unfold PersistenceLayer.createPool in H.
  rewrite modify_bind, modify_bind in H. injection H as <- <-.
  split_and!.
  - apply JoinFacts.hasPool_loaded. cbn. rewrite lookup_insert_eq. by eexists.
  - rewrite JoinFacts.getPool_loaded; [|done|].
    + cbn. by rewrite lookup_insert_eq.
    + cbn. rewrite lookup_insert_eq. by eexists.
  - cbn. by rewrite lookup_insert_eq.
  - unfold getPoolMembers. cbn. by rewrite lookup_insert_eq.
  - intros now' type' encrypted' properties' metadata'.
    rewrite throw_if_bind, bool_decide_eq_false_2 by done.
    rewrite gets_bind, throw_if_bind.
    rewrite bool_decide_eq_true_2; [by eexists|].
    cbn. rewrite lookup_insert_eq. by eexists.
Qed.

Lemma created_pool_is_found_witness :
  let w' := fst (createPool 7 "jobs" LOCAL false ServerFixtures.no_properties
                   ServerFixtures.no_properties
                   ServerFixtures.started_world) in
  exists poolConfig,
    hasPool "jobs" w' = (w', Return true) /\
    getPool "jobs" w' = (w', Return (Some poolConfig)) /\
    pool_rows (persistence w') !! "jobs"%string = Some poolConfig /\
    getPoolMembers "jobs" w' = [] /\
    forall now' type' encrypted' properties' metadata',
      exists e,
        createPool now' "jobs" type' encrypted' properties' metadata' w'
          = (w', Throw e).
Proof.
  eexists.
  apply (created_pool_is_found 7 "jobs" LOCAL false
           ServerFixtures.no_properties ServerFixtures.no_properties
           ServerFixtures.started_world).
  vm_compute. reflexivity.
Defined.

(** Without a security module an encrypted pool admits only the apps
    listed under its [admin] policy: for any other app [addAppToPool]
    throws and changes nothing, whatever the [read] policy says.  With
    the default policies, whose [admin] list is empty, no app can join. *)
Theorem encrypted_pool_is_closed_without_security
    app_id pool_name w metadata :
  security (poolManager w) = None ->
  is_Some (pools (poolManager w) !! pool_name) ->
  poolMetadata (poolManager w) !! pool_name = Some metadata ->
  pc_encrypted metadata = true ->
  app_id ∉ default []
    (policy_get (default _getDefaultPolicies (pc_policies metadata)) ADMIN) ->
  exists e, addAppToPool app_id pool_name w = (w, Throw e).
Proof.
  intros Hsec Hloaded Hmeta Henc Hadmin. unfold addAppToPool.
  rewrite throw_if_bind. destruct (bool_decide (app_id = "")); [by eexists|].
  rewrite throw_if_bind.
  case_bool_decide as Hname; [by eexists|].
  unfold bind at 1. rewrite JoinFacts.hasPool_loaded by done.
  rewrite throw_if_bind. cbn [negb].
  unfold bind at 1. rewrite JoinFacts.getPool_loaded by done.
  rewrite Hmeta, throw_if_bind.
  rewrite bool_decide_eq_true_2 by (by eexists). cbn [negb].
  unfold bind at 1, _checkPoolAccess.
  rewrite gets_bind, Hmeta, Henc, Hsec.
  rewrite throw_if_bind. unfold includes.
  rewrite bool_decide_eq_false_2 by done. cbn [negb]. by eexists.
Qed.

Lemma encrypted_pool_is_closed_without_security_witness :
  let vault :=
    {| pc_name := "vault"; pc_type := ENCRYPTED; pc_encrypted := true;
       pc_owners := []; pc_policies := None; pc_description := "";
       pc_created := 0; pc_updated := 0; pc_autoCreate := false;
       pc_maxMemoryBlocks := 1000; pc_maxTriggers := 10000;
       pc_security := None |} in
  let w := fst (getPool "vault"
                  (set_persistence (set_pool_rows (insert "vault" vault))
                     ServerFixtures.started_world)) in
  exists e, addAppToPool "A" "vault" w = (w, Throw e).
Proof.
  intros vault w.
  apply (encrypted_pool_is_closed_without_security "A" "vault" w vault).
  - reflexivity.
  - vm_compute. by eexists.
  - vm_compute. reflexivity.
  - reflexivity.
  - vm_compute. by intros ?%elem_of_nil.
Defined.

End PoolAdminFacts.

(** ** Handshakes that fail, and removed apps *)

Module RegistryAdminFacts.
Import CallFacts Protocol State Pools Registry RegistryAdmin Invariants.
Import TransportFacts JoinFacts HandshakeFacts.

(** The [catch] of [processHandshake]. *)
Lemma handshake_error_spec (m : HandshakeMessage) c e w :
  exists w',
    (Transport.send c (createError (Handshake m) e "HANDSHAKE_ERROR") ;;;
     throw e) w = (w', (Throw e : outcome AppRegistration)) /\
    persistence w' = persistence w /\ poolManager w' = poolManager w /\
    appRegistry w' = appRegistry w /\ triggerRouter w' = triggerRouter w /\
    sent_grows w w' /\
    sent c w'
    = if live c w
      then sent c w ++ [createError (Handshake m) e "HANDSHAKE_ERROR"]
      else sent c w.
Proof.
  destruct (send_spec c (createError (Handshake m) e "HANDSHAKE_ERROR") w)
    as (w' & Hsend & Hgrows & Hp & Hpm & Hr & Ht & Hsent).
  exists w'. unfold bind. rewrite Hsend. split; [done|].
  split; [done|]. split; [done|]. split; [done|]. split; [done|].
  split; [exact Hgrows|done].
Qed.

(** A handshake that fails one of the checks made before registration
    registers nothing: the registry, the pools and the store are as they
    were, the call throws, and the connection, when it is open, gets one
    [error] message with code [HANDSHAKE_ERROR]. *)
Theorem rejected_handshake_registers_nothing now m c w :
  validateHandshake m <> Return tt
  \/ _validateAppId (hs_app_id m) = false
  \/ _validatePools (default ["default"%string] (hs_pools m)) = false
  \/ _validateTriggers (default [] (hs_triggers m)) = false ->
  exists w' e,
    processHandshake now m c w = (w', Throw e) /\
    persistence w' = persistence w /\ poolManager w' = poolManager w /\
    appRegistry w' = appRegistry w /\ triggerRouter w' = triggerRouter w /\
    sent c w'
    = if live c w
      then sent c w ++ [createError (Handshake m) e "HANDSHAKE_ERROR"]
      else sent c w.
Proof.
  intros Hbad. unfold processHandshake, try_catch.
  assert (exists e,
    (match validateHandshake m with
     | Return _ => ret tt
     | Throw e => throw e
     end ;;;
     throw_if (negb (_validateAppId (hs_app_id m)))
       "Invalid app_id format" ;;;
     throw_if (negb (_validatePools (default ["default"%string] (hs_pools m))))
       "Invalid pools specification" ;;;
     throw_if (negb (_validateTriggers (default [] (hs_triggers m))))
       "Invalid triggers specification" ;;;
     hasData <- (if bool_decide (default [] (hs_triggers m) = [])
                 then _hasRehydrationData (hs_app_id m) else ret false) ;;
     registration <-
       (if bool_decide (default [] (hs_triggers m) = []) && hasData
        then rehydrateApp now (hs_app_id m) (Some c)
        else registerApp now (hs_app_id m) (default [] (hs_triggers m))
               (default ["default"%string] (hs_pools m))
               (default ∅ (hs_metadata m)) (Some c)) ;;
     Transport.send c
       (createHandshakeAck m
          {| as_app_id := hs_app_id m; as_pools := reg_pools registration;
             as_triggers := reg_triggers registration;
             as_rehydrated :=
               bool_decide (default [] (hs_triggers m) = []) && hasData |}) ;;;
     modify (set_appRegistry (set_lastSeenApps (insert (hs_app_id m) now))) ;;;
     ret registration) w = (w, Throw e)) as [e ->].
  { destruct (validateHandshake m) as [[]|e] eqn:Hv; [|by exists e].
    rewrite ret_bind.
    destruct Hbad as [Hbad|[Hbad|[Hbad|Hbad]]]; [done|..].
    - rewrite throw_if_bind, Hbad. by eexists.
    - rewrite throw_if_bind. destruct (negb _); [by eexists|].
      rewrite throw_if_bind, Hbad. by eexists.
    - rewrite throw_if_bind. destruct (negb _); [by eexists|].
      rewrite throw_if_bind. destruct (negb _); [by eexists|].
      rewrite throw_if_bind, Hbad. by eexists. }
  destruct (handshake_error_spec m c e w)
    as (w' & Hrun & Hp & Hpm & Hr & Ht & _ & Hsent).
  exists w', e. by rewrite Hrun.
Qed.

Lemma rejected_handshake_registers_nothing_witness :
  let m := Scenarios.handshake "h1" "not an id" ["default"%string]
             ["echo"%string] in
  let w := Scenarios.two_connections in
  exists w' e,
    processHandshake 1 m 1 w = (w', Throw e) /\
    persistence w' = persistence w /\ poolManager w' = poolManager w /\
    appRegistry w' = appRegistry w /\ triggerRouter w' = triggerRouter w /\
    sent 1 w'
    = if live 1 w
      then sent 1 w ++ [createError (Handshake m) e "HANDSHAKE_ERROR"]
      else sent 1 w.
Proof.
  apply (rejected_handshake_registers_nothing 1
           (Scenarios.handshake "h1" "not an id" ["default"%string]
              ["echo"%string]) 1 Scenarios.two_connections).
  right. left. vm_compute. reflexivity.
Defined.

Lemma for_each_app {S A} (l1 l2 : list A) (body : A -> M S unit) s :
  for_each (l1 ++ l2) body s
  = (for_each l1 body ;;; for_each l2 body) s.
Proof.
  revert s. induction l1 as [|x l1 IH]; intros s; [done|].
  cbn [app for_each]. rewrite bind_assoc. unfold bind.
  destruct (body x s) as [s1 [u|e]]; [|done].
  specialize (IH s1). unfold bind in IH. exact IH.
Qed.

(** Joining a pool the app can join. *)
Lemma addAppToPool_run appId poolName w :
  joinable appId poolName w ->
  addAppToPool appId poolName w
  = (set_poolManager (fun pm =>
       set_pools (alter (add_member appId) poolName)
         (set_poolMembership
            (fun m => <[poolName :=
                          set_add appId (default [] (m !! poolName))]> m)
            (set_appPoolMembership
               (fun m => <[appId :=
                             set_add poolName (default [] (m !! appId))]> m)
               pm))) w, Return true).
Proof.
  intros (Ha & Hp & Hpool & md & Hmd & Hok). unfold addAppToPool.
  rewrite throw_if_bind, bool_decide_eq_false_2 by done.
  rewrite throw_if_bind, bool_decide_eq_false_2 by done.
  unfold bind at 1. rewrite (hasPool_loaded _ _ Hpool).
  rewrite throw_if_bind. cbn [negb].
  unfold bind at 1. rewrite (getPool_loaded _ _ Hp Hpool), Hmd.
  rewrite throw_if_bind, bool_decide_eq_true_2 by eauto. cbn [negb].
  unfold bind at 1. rewrite (_checkPoolAccess_ok _ _ _ _ Hmd Hok).
  by rewrite modify_bind.
Qed.

Lemma join_all_run appId (ps : list string) : forall w,
  (forall p, p ∈ ps -> joinable appId p w) ->
  exists w',
    for_each ps (fun poolName => addAppToPool appId poolName ;;; ret tt) w
      = (w', Return tt) /\
    conns w' = conns w /\ persistence w' = persistence w /\
    appRegistry w' = appRegistry w /\ triggerRouter w' = triggerRouter w /\
    (forall q, pools (poolManager w) !! q = None ->
               pools (poolManager w') !! q = None) /\
    (forall q, q ∈ default [] (appPoolMembership (poolManager w) !! appId) ->
               q ∈ default [] (appPoolMembership (poolManager w') !! appId)) /\
    (forall p, p ∈ ps -> validatePoolMembership appId p w' = true).
Proof.
  induction ps as [|p ps IH]; intros w Hall.
  - exists w. split_and!; try done. by intros p ?%elem_of_nil.
  - assert (joinable appId p w) as Hp by apply Hall, list_elem_of_here.
    pose proof (addAppToPool_run _ _ _ Hp) as Hadd.
    set (w1 := set_poolManager _ w) in Hadd.
    destruct (IH w1) as (w2 & Hrest & Hc & Hps & Hr & Ht & Hfree & Hmono & Hmem).
    { intros q Hq. apply (joinable_stable _ _ w).
      - apply join_update_stable.
      - by apply Hall, list_elem_of_further. }
    exists w2. cbn [for_each]. unfold bind at 1. unfold bind at 1.
    rewrite Hadd. cbn [ret]. split; [exact Hrest|].
    split; [by rewrite Hc|]. split; [by rewrite Hps|].
    split; [by rewrite Hr|]. split; [by rewrite Ht|].
    split; [|split].
    + intros q Hq. apply Hfree. subst w1. cbn.
      rewrite lookup_alter. case_decide; [subst|]; by rewrite Hq.
    + intros q Hq. apply Hmono. subst w1. cbn.
      destruct (decide (appId = appId)); [|done].
      rewrite lookup_insert_eq. cbn.
      apply PoolAdminFacts.elem_of_set_add. by right.
    + intros q [->|Hq]%elem_of_cons; [|by apply Hmem].
      destruct Hp as (Ha & Hpne & _).
      unfold validatePoolMembership.
      rewrite !bool_decide_eq_false_2 by done. cbn [orb].
      assert (p ∈ default [] (appPoolMembership (poolManager w2) !! appId))
        as Hin.
      { apply Hmono. subst w1. cbn. rewrite lookup_insert_eq. cbn.
        apply PoolAdminFacts.elem_of_set_add. by left. }
      destruct (appPoolMembership (poolManager w2) !! appId) as [s|];
        [|by apply elem_of_nil in Hin].
      unfold includes. by apply bool_decide_eq_true_2.
Qed.

(** Joining a pool that is neither loaded nor stored. *)
Lemma addAppToPool_unknown appId poolName w :
  pools (poolManager w) !! poolName = None ->
  pool_rows (persistence w) !! poolName = None ->
  exists e, addAppToPool appId poolName w = (w, Throw e).
Proof.
  intros Hpool Hrow. unfold addAppToPool.
  rewrite throw_if_bind. destruct (bool_decide (appId = "")); [by eexists|].
  rewrite throw_if_bind. destruct (bool_decide (poolName = ""));
    [by eexists|].
  unfold bind at 1, hasPool. rewrite gets_bind, Hpool.
  unfold PersistenceLayer.getPool. rewrite gets_bind, Hrow.
  cbn [ret]. rewrite throw_if_bind.
  rewrite bool_decide_eq_false_2 by (by intros [? ?]). by eexists.
Qed.

(** The app is registered before it joins its pools.  When a full
    handshake of an app without a live registration names an unknown pool
    behind pools the app can join, the handshake throws and is answered
    with [HANDSHAKE_ERROR], and yet the app stays registered on the
    connection, indexed under its triggers and a member of the pools
    before the unknown one; nothing is persisted. *)
Theorem handshake_failing_on_a_pool_leaves_the_app_registered
    now m c w good bad rest :
  validateHandshake m = Return tt ->
  _validateAppId (hs_app_id m) = true ->
  _validatePools (default ["default"%string] (hs_pools m)) = true ->
  _validateTriggers (default [] (hs_triggers m)) = true ->
  default ["default"%string] (hs_pools m) = good ++ bad :: rest ->
  default [] (hs_triggers m) <> [] ->
  getApp (hs_app_id m) w = None ->
  (forall p, p ∈ good -> joinable (hs_app_id m) p w) ->
  pools (poolManager w) !! bad = None ->
  pool_rows (persistence w) !! bad = None ->
  exists w' e,
    processHandshake now m c w = (w', Throw e) /\
    (exists registration,
       getApp (hs_app_id m) w' = Some registration /\
       reg_triggers registration = default [] (hs_triggers m) /\
       reg_connection registration = Some c) /\
    connections (appRegistry w') !! c = Some (hs_app_id m) /\
    (forall t, t ∈ default [] (hs_triggers m) ->
       hs_app_id m ∈ default [] (triggerMappings (appRegistry w') !! t)) /\
    (forall p, p ∈ good -> validatePoolMembership (hs_app_id m) p w' = true) /\
    (Transport.isActive c w = true ->
     forall t p, t ∈ default [] (hs_triggers m) -> p ∈ good ->
       exists registration,
         registration ∈ Router.findTriggerHandlers t p w' /\
         reg_appId registration = hs_app_id m) /\
    app_rows (persistence w') = app_rows (persistence w) /\
    sent c w'
    = if live c w
      then sent c w ++ [createError (Handshake m) e "HANDSHAKE_ERROR"]
      else sent c w.
Proof.
  intros Hvalid Hid Hpools Htriggers Hsplit Hfull Hfresh Hgood Hbad Hrow.
  unfold processHandshake, try_catch.
  rewrite Hvalid, ret_bind. cbv zeta.
  rewrite Hid, Hpools, Htriggers. cbn [negb]. rewrite !throw_if_bind.
  rewrite (bool_decide_eq_false_2 (default [] (hs_triggers m) = [])) by done.
  rewrite ret_bind. cbn [andb].
  unfold bind at 1, registerApp.
  rewrite Hid, Hpools, Htriggers. cbn [negb]. rewrite !throw_if_bind.
  rewrite get_bind, Hfresh. cbv zeta.
  rewrite modify_bind, modify_bind, modify_bind, modify_bind.
  match goal with
  | |- context [bind (for_each _ _) _ ?s] => set (w1 := s)
  end.
  assert (conns w1 = conns w /\ persistence w1 = persistence w /\
          poolManager w1 = poolManager w) as (Hc1 & Hp1 & Hpm1).
  { subst w1. cbn.
    destruct (add_mappings_frame (hs_app_id m) (default [] (hs_triggers m))
      (set_appRegistry (set_connections <[c:=hs_app_id m]>)
         (set_reg (hs_app_id m)
            {| reg_appId := hs_app_id m; reg_connection := Some c;
               reg_pools := default ["default"%string] (hs_pools m);
               reg_triggers := default [] (hs_triggers m);
               reg_meta := default ∅ (hs_metadata m);
               reg_protocolVersion :=
                 Some (str_or (default ∅ (hs_metadata m)
                                 !! "protocolVersion"%string) "0.1.0");
               reg_registered := now; reg_rehydrated := false;
               reg_originalRegistration := None |} w)))
      as (-> & -> & -> & _). done. }
  assert (exists registration,
            apps (appRegistry w1) !! hs_app_id m = Some registration /\
            reg_triggers registration = default [] (hs_triggers m) /\
            reg_connection registration = Some c /\
            reg_appId registration = hs_app_id m) as Hreg.
  { subst w1. cbn.
    destruct (add_mappings_frame (hs_app_id m) (default [] (hs_triggers m))
      (set_appRegistry (set_connections <[c:=hs_app_id m]>)
         (set_reg (hs_app_id m)
            {| reg_appId := hs_app_id m; reg_connection := Some c;
               reg_pools := default ["default"%string] (hs_pools m);
               reg_triggers := default [] (hs_triggers m);
               reg_meta := default ∅ (hs_metadata m);
               reg_protocolVersion :=
                 Some (str_or (default ∅ (hs_metadata m)
                                 !! "protocolVersion"%string) "0.1.0");
               reg_registered := now; reg_rehydrated := false;
               reg_originalRegistration := None |} w)))
      as (_ & _ & _ & _ & -> & _).
    cbn. rewrite lookup_insert_eq. by eexists. }
  assert (connections (appRegistry w1) !! c = Some (hs_app_id m)) as Hconn.
  { subst w1. cbn.
    destruct (add_mappings_frame (hs_app_id m) (default [] (hs_triggers m))
      (set_appRegistry (set_connections <[c:=hs_app_id m]>)
         (set_reg (hs_app_id m)
            {| reg_appId := hs_app_id m; reg_connection := Some c;
               reg_pools := default ["default"%string] (hs_pools m);
               reg_triggers := default [] (hs_triggers m);
               reg_meta := default ∅ (hs_metadata m);
               reg_protocolVersion :=
                 Some (str_or (default ∅ (hs_metadata m)
                                 !! "protocolVersion"%string) "0.1.0");
               reg_registered := now; reg_rehydrated := false;
               reg_originalRegistration := None |} w)))
      as (_ & _ & _ & _ & _ & -> & _).
    cbn. by rewrite lookup_insert_eq. }
  assert (forall t, t ∈ default [] (hs_triggers m) ->
            hs_app_id m
            ∈ default [] (triggerMappings (appRegistry w1) !! t)) as Hindex.
  { intros t Ht. subst w1. cbn. apply add_mappings_indexed. by left. }
  clearbody w1. rewrite Hsplit.
  destruct (join_all_run (hs_app_id m) good w1)
    as (w2 & Hjoin & Hc2 & Hp2 & Hr2 & Ht2 & Hfree & _ & Hmem).
  { intros p Hp. eapply joinable_stable; [|by apply Hgood].
    by apply pool_stable_same. }
  destruct (addAppToPool_unknown (hs_app_id m) bad w2) as [e Hthrow].
  { apply Hfree. by rewrite Hpm1. }
  { by rewrite Hp2, Hp1. }
  unfold bind at 1. rewrite for_each_app. unfold bind at 1.
  rewrite Hjoin. cbn [for_each]. unfold bind at 1. unfold bind at 1.
  rewrite Hthrow.
  destruct (handshake_error_spec m c e w2)
    as (w3 & Hrun & Hp3 & Hpm3 & Hr3 & Ht3 & Hgrows & Hsent).
  destruct Hreg as (registration & Hlook & Htr & Hcon & Hname).
  assert (forall p, p ∈ good ->
            validatePoolMembership (hs_app_id m) p w3 = true) as Hmem3.
  { intros p Hp. unfold validatePoolMembership. rewrite Hpm3.
    by apply Hmem. }
  exists w3, e. split; [exact Hrun|].
  unfold getApp. rewrite Hr3, Hr2, Hp3, Hp2, Hp1.
  split; [by exists registration|]. split; [done|]. split; [done|].
  split; [exact Hmem3|]. split; [|split; [done|]].
  - intros Hactive t p Ht Hp. exists registration. split; [|done].
    unfold Router.findTriggerHandlers. apply list_elem_of_filter.
    split; [rewrite Hname; by apply Hmem3|].
    unfold getTriggersHandlers. rewrite Hr3, Hr2.
    specialize (Hindex t Ht).
    destruct (triggerMappings (appRegistry w1) !! t) as [appIds|];
      [|by apply elem_of_nil in Hindex].
    apply list_elem_of_filter. split.
    + unfold isActive. rewrite Hcon.
      destruct (Hgrows c) as (-> & _). unfold Transport.isActive.
      rewrite Hc2, Hc1. exact Hactive.
    + apply list_elem_of_omap. exists (hs_app_id m). split; [done|].
      unfold getApp. by rewrite Hr3, Hr2.
  - rewrite Hsent. unfold live, sent. by rewrite Hc2, Hc1.
Qed.

Lemma handshake_failing_on_a_pool_leaves_the_app_registered_witness :
  let m := Scenarios.handshake "h1" "A" ["default"%string; "nope"%string]
             ["echo"%string] in
  let w := Scenarios.two_connections in
  exists w' e,
    processHandshake 1 m 1 w = (w', Throw e) /\
    (exists registration,
       getApp "A" w' = Some registration /\
       reg_triggers registration = ["echo"%string] /\
       reg_connection registration = Some 1) /\
    connections (appRegistry w') !! 1 = Some "A"%string /\
    (forall t, t ∈ ["echo"%string] ->
       "A"%string ∈ default [] (triggerMappings (appRegistry w') !! t)) /\
    (forall p, p ∈ ["default"%string] ->
       validatePoolMembership "A" p w' = true) /\
    (Transport.isActive 1 w = true ->
     forall t p, t ∈ ["echo"%string] -> p ∈ ["default"%string] ->
       exists registration,
         registration ∈ Router.findTriggerHandlers t p w' /\
         reg_appId registration = "A"%string) /\
    app_rows (persistence w') = app_rows (persistence w) /\
    sent 1 w'
    = if live 1 w
      then sent 1 w ++ [createError (Handshake m) e "HANDSHAKE_ERROR"]
      else sent 1 w.
Proof.
  apply (handshake_failing_on_a_pool_leaves_the_app_registered 1
           (Scenarios.handshake "h1" "A" ["default"%string; "nope"%string]
              ["echo"%string])
           1 Scenarios.two_connections ["default"%string] "nope" []).
  - vm_compute. reflexivity.
  - vm_compute. reflexivity.
  - vm_compute. reflexivity.
  - vm_compute. reflexivity.
  - reflexivity.
  - discriminate.
  - vm_compute. reflexivity.
  - intros p ->%list_elem_of_singleton.
    split; [discriminate|]. split; [discriminate|].
    split; [vm_compute; by eexists|].
    eexists. split; vm_compute; reflexivity.
  - vm_compute. reflexivity.
  - vm_compute. reflexivity.
Defined.

(** Leaving pools, one after the other. *)
Lemma leave_all_run appId (ps : list string) : forall w w' u,
  for_each ps (fun poolName => removeAppFromPool appId poolName ;;; ret tt) w
    = (w', Return u) ->
  conns w' = conns w /\ persistence w' = persistence w /\
  appRegistry w' = appRegistry w /\ triggerRouter w' = triggerRouter w /\
  (forall q, q ∈ default [] (appPoolMembership (poolManager w') !! appId) ->
     q ∈ default [] (appPoolMembership (poolManager w) !! appId) /\ q ∉ ps).
Proof.
  induction ps as [|p ps IH]; intros w w' u H.
  - injection H as <- _. split_and!; try done.
    intros q Hq. split; [done|]. by intros ?%elem_of_nil.
  - cbn [for_each] in H.
    apply bind_Return in H as (w1 & u1 & Hleave & H).
    apply bind_Return in Hleave as (w2 & b & Hleave & Hret).
    injection Hret as ->.
    unfold removeAppFromPool in Hleave.
    apply bind_Return in Hleave as (w3 & u3 & Ha & Hleave).
    apply throw_if_Return in Ha as [_ ->].
    apply bind_Return in Hleave as (w3 & u4 & Hp & Hleave).
    apply throw_if_Return in Hp as [_ ->].
    rewrite modify_bind in Hleave. injection Hleave as <- _.
    destruct (IH _ _ _ H) as (Hc & Hps & Hr & Ht & Hmem).
    split; [by rewrite Hc|]. split; [by rewrite Hps|].
    split; [by rewrite Hr|]. split; [by rewrite Ht|].
    intros q Hq. destruct (Hmem q Hq) as [Hq1 Hq2].
    cbn in Hq1. rewrite PoolAdminFacts.leave_lookup in Hq1.
    rewrite bool_decide_eq_true_2 in Hq1 by done.
    apply PoolAdminFacts.elem_of_set_delete in Hq1 as [Hne Hq1].
    split; [done|]. by intros [->|?]%elem_of_cons.
Qed.

(** A full registration of an app that is not registered returns a
    registration that is not marked as rehydrated. *)
Lemma registerApp_fresh_not_rehydrated now app_id triggers pools metadata
    connection w w' registration :
  getApp app_id w = None ->
  registerApp now app_id triggers pools metadata connection w
    = (w', Return registration) ->
  reg_rehydrated registration = false /\ reg_triggers registration = triggers.
Proof.
  intros Hfresh H. unfold registerApp in H.
  apply bind_Return in H as (w1 & u1 & Hv1 & H).
  apply throw_if_Return in Hv1 as [_ ->].
  apply bind_Return in H as (w1 & u2 & Hv2 & H).
  apply throw_if_Return in Hv2 as [_ ->].
  apply bind_Return in H as (w1 & u3 & Hv3 & H).
  apply throw_if_Return in Hv3 as [_ ->].
  rewrite get_bind, Hfresh in H. cbv zeta in H.
  rewrite modify_bind in H.
  apply bind_Return in H as (wa & u4 & _ & H).
  apply bind_Return in H as (wb & u5 & _ & H).
  apply bind_Return in H as (wc & u6 & _ & H).
  apply bind_Return in H as (wd & u7 & _ & H).
  apply bind_Return in H as (we & u8 & _ & H).
  by injection H as _ <-.
Qed.

(** [removeApp] erases the app: after it returned [true] (with the router
    listening) the app is not registered, not cached and not stored, it
    is indexed under none of the triggers and is a member of none of the
    pools it had registered, and a later handshake without triggers is a
    new registration without triggers, not a rehydration. *)
Theorem removed_app_is_forgotten app_id w w' registration :
  getApp app_id w = Some registration ->
  removeApp Router._handleAppDisconnection app_id w = (w', Return true) ->
  getApp app_id w' = None /\
  rehydrationCache (appRegistry w') !! app_id = None /\
  lastSeenApps (appRegistry w') !! app_id = None /\
  app_rows (persistence w') !! app_id = None /\
  (forall t, t ∈ reg_triggers registration ->
     app_id ∉ default [] (triggerMappings (appRegistry w') !! t)) /\
  (forall p, p ∈ reg_pools registration ->
     validatePoolMembership app_id p w' = false) /\
  forall now m c w'' registration',
    hs_app_id m = app_id ->
    default [] (hs_triggers m) = [] ->
    processHandshake now m c w' = (w'', Return registration') ->
    reg_rehydrated registration' = false /\
    reg_triggers registration' = [].
Proof.
  intros Hreg H. unfold removeApp in H.
  rewrite get_bind, Hreg in H.
  apply bind_Return in H as (w1 & u1 & Hleave & H).
  apply leave_all_run in Hleave as (Hc1 & Hp1 & Hr1 & Ht1 & Hmem).
  rewrite modify_bind, modify_bind in H.
  apply bind_Return in H as (w2 & u2 & Hconn & H).
  rewrite modify_bind, modify_bind in H.
  unfold PersistenceLayer.removeApp in H. rewrite modify_bind in H.
  apply bind_Return in H as (w3 & u3 & Hlisten & H).
  injection H as <-.
  pose proof (_handleAppDisconnection_frame _ _ _ _ Hlisten)
    as [= Hp3 Hpm3 Hr3].
  set (wa := set_appRegistry (set_apps (delete app_id))
               (remove_mappings app_id (reg_triggers registration) w1))
    in Hconn.
  assert (persistence w2 = persistence w1 /\
          poolManager w2 = poolManager w1 /\
          apps (appRegistry w2) = delete app_id (apps (appRegistry w1)) /\
          triggerMappings (appRegistry w2)
          = triggerMappings
              (appRegistry (remove_mappings app_id
                              (reg_triggers registration) w1)) /\
          rehydrationCache (appRegistry w2) = rehydrationCache (appRegistry w1)
          /\ lastSeenApps (appRegistry w2) = lastSeenApps (appRegistry w1))
    as (Hp2 & Hpm2 & Happs2 & Hidx2 & Hcache2 & Hseen2).
  { destruct (DisconnectFacts.remove_mappings_frame app_id
                (reg_triggers registration) w1)
      as (_ & Hpa & Hpma & _ & Happs & _ & Hcache & Hseen).
    destruct (reg_connection registration); injection Hconn as <-;
      subst wa; cbn; rewrite ?Hpa, ?Hpma, ?Happs, ?Hcache, ?Hseen; done. }
  clearbody wa.
  assert (app_rows (persistence w3) !! app_id = None /\
          rehydrationCache (appRegistry w3) !! app_id = None) as [Hrow Hcache].
  { rewrite Hp3, Hr3. cbn. by rewrite !lookup_delete_eq. }
  unfold getApp. rewrite Hr3. cbn.
  split; [by rewrite Happs2, lookup_delete_eq|].
  split; [by rewrite lookup_delete_eq|].
  split; [by rewrite lookup_delete_eq|].
  split; [by rewrite Hp3; cbn; rewrite lookup_delete_eq|].
  split; [|split].
  - intros t Ht. rewrite Hidx2.
    apply DisconnectFacts.remove_mappings_absent. by left.
  - intros p Hp. unfold validatePoolMembership. rewrite Hpm3. cbn.
    rewrite Hpm2. destruct (_ || _); [done|].
    specialize (Hmem p).
    destruct (_ !! app_id) as [s|]; [|done].
    unfold includes. apply bool_decide_eq_false_2. intros Hin.
    destruct (Hmem Hin) as [_ Hno]. done.
  - intros now m c w'' registration' Hname Hempty Hhs.
    unfold processHandshake, try_catch in Hhs.
    match type of Hhs with
    | (let (_, _) := ?body w3 in _) = _ =>
        destruct (body w3) as [w4 [r|e]] eqn:Hbody
    end.
    2:{ apply bind_Return in Hhs as (? & ? & _ & Hhs). discriminate. }
    injection Hhs as <- <-.
    apply bind_Return in Hbody as (w5 & u0 & Hval & Hbody).
    assert (w5 = w3) as ->.
    { destruct (validateHandshake m); by inversion Hval. }
    apply bind_Return in Hbody as (w5 & u5 & Hv1 & Hbody).
    apply throw_if_Return in Hv1 as [_ ->].
    apply bind_Return in Hbody as (w5 & u6 & Hv2 & Hbody).
    apply throw_if_Return in Hv2 as [_ ->].
    apply bind_Return in Hbody as (w5 & u7 & Hv3 & Hbody).
    apply throw_if_Return in Hv3 as [_ ->].
    apply bind_Return in Hbody as (w5 & hasData & Hhas & Hbody).
    rewrite Hempty, Hname in Hhas, Hbody.
    rewrite bool_decide_eq_true_2 in Hhas, Hbody by done.
    rewrite _hasRehydrationData_spec in Hhas. injection Hhas as <- <-.
    rewrite Hcache, Hrow in Hbody.
    rewrite !(bool_decide_eq_false_2 (is_Some None)) in Hbody
      by (by intros [? ?]).
    cbn [orb andb] in Hbody.
    apply bind_Return in Hbody as (w6 & reg & Hregister & Hbody).
    apply registerApp_fresh_not_rehydrated in Hregister as [Hre Htr].
    2:{ unfold getApp. rewrite Hr3. cbn. by rewrite Happs2, lookup_delete_eq. }
    apply bind_Return in Hbody as (w7 & b & _ & Hbody).
    apply bind_Return in Hbody as (w8 & u8 & _ & Hbody).
    by injection Hbody as _ <-.
Qed.

Lemma removed_app_is_forgotten_witness :
  let w := Scenarios.A_registered in
  let w' := fst (removeApp Router._handleAppDisconnection "A" w) in
  getApp "A" w' = None /\
  rehydrationCache (appRegistry w') !! "A"%string = None /\
  lastSeenApps (appRegistry w') !! "A"%string = None /\
  app_rows (persistence w') !! "A"%string = None /\
  (forall t, t ∈ ["echo"%string] ->
     "A"%string ∉ default [] (triggerMappings (appRegistry w') !! t)) /\
  (forall p, p ∈ ["default"%string] ->
     validatePoolMembership "A" p w' = false) /\
  forall now m c w'' registration',
    hs_app_id m = "A"%string ->
    default [] (hs_triggers m) = [] ->
    processHandshake now m c w' = (w'', Return registration') ->
    reg_rehydrated registration' = false /\
    reg_triggers registration' = [].
Proof.
  apply (removed_app_is_forgotten "A" Scenarios.A_registered
           (fst (removeApp Router._handleAppDisconnection "A"
                   Scenarios.A_registered))
           {| reg_appId := "A"; reg_connection := Some 1;
              reg_pools := ["default"%string];
              reg_triggers := ["echo"%string]; reg_meta := ∅;
              reg_protocolVersion := Some "0.1.0"%string;
              reg_registered := 1; reg_rehydrated := false;
              reg_originalRegistration := None |}).
  - vm_compute. reflexivity.
  - vm_compute. reflexivity.
Defined.

End RegistryAdminFacts.

(** ** The router's clean-up, responses and round robin *)

Module RouterAdminFacts.
Import CallFacts Protocol State Router RouterAdmin Invariants TableFacts
  TransportFacts TimeoutFacts RequestFacts ResponseFacts.

(** The records a clean-up at [now] selects. *)
Lemma expired_selected now id r (t : records) :
  rec_get id t = Some r -> isExpired now r = true ->
  r ∈ filter (fun record => isExpired now record = true) (rec_values t).
Proof.
  intros Hget Hexp. apply list_elem_of_filter. split; [done|].
  apply list_elem_of_fmap. exists (id, r). split; [done|].
  by apply rec_get_elem_of.
Qed.

(** The clean-up interval removes a record exactly when its age is above
    its TTL: such a record leaves the table and a [TIMEOUT] error is
    written to its origin connection if that connection is live; a record
    whose age is at most its TTL, the TTL itself included, stays as it
    is.  The timeout counter goes up by the number of records removed. *)
Theorem cleanup_removes_exactly_the_expired now w :
  wf_table (table w) = true ->
  exists w',
    _cleanupExpiredRecords now w = (w', Return tt) /\
    (forall id r, rec_get id (table w) = Some r ->
       tr_ttl r < now - tr_created r ->
       rec_get id (table w') = None /\
       forall c, tr_originConnection r = Some c -> live c w = true ->
         Error {| em_correlation_id := tm_id (tr_originalMessage r);
                  em_in_reply_to := None;
                  em_error := "Request timeout";
                  em_error_code := "TIMEOUT" |} ∈ sent c w') /\
    (forall id r, rec_get id (table w) = Some r ->
       now - tr_created r <= tr_ttl r ->
       rec_get id (table w') = Some r) /\
    timeoutTriggers (stats (triggerRouter w'))
      = timeoutTriggers (stats (triggerRouter w))
        + Z.of_nat (length (filter (fun r => isExpired now r = true)
                              (rec_values (table w)))).
Proof.
  intros Hwf. apply wf_table_spec in Hwf as [Hnd Hids].
  unfold _cleanupExpiredRecords. rewrite get_bind. cbv zeta.
  set (expired := filter _ (rec_values (table w))).
  destruct (for_each_timeout_spec expired w)
    as (w' & Hrun & Ht & Hn & Hg & _ & _ & _ & Hd).
  exists w'. split; [done|]. split; [|split; [|done]].
  - intros id r Hget Hage.
    assert (r ∈ expired) as Hin.
    { eapply expired_selected; [exact Hget|]. unfold isExpired. lia. }
    split.
    + rewrite Ht. eapply rec_get_deleted; [exact Hin|].
      apply Hids. by apply rec_get_elem_of.
    + intros c Hc Hlive. apply (Hd r c Hin Hc Hlive).
  - intros id r Hget Hage. rewrite Ht.
    rewrite rec_get_after_deletes; [done|].
    intros r0 Hr0 Hid0.
    apply list_elem_of_filter in Hr0 as [Hexp0 Hr0].
    apply list_elem_of_fmap in Hr0 as ([k0 r0'] & -> & Hin0). cbn in *.
    pose proof (Hids _ _ Hin0) as Hk0. rewrite Hid0 in Hk0.
    injection Hk0 as <-.
    pose proof (rec_get_NoDup _ _ _ Hnd Hin0) as Hget0.
    rewrite Hget in Hget0. injection Hget0 as ->.
    unfold isExpired in Hexp0. lia.
Qed.

Lemma cleanup_removes_exactly_the_expired_witness :
  exists w',
    _cleanupExpiredRecords 30004 Scenarios.echo_routed = (w', Return tt) /\
    (forall id r, rec_get id (table Scenarios.echo_routed) = Some r ->
       tr_ttl r < 30004 - tr_created r ->
       rec_get id (table w') = None /\
       forall c, tr_originConnection r = Some c ->
         live c Scenarios.echo_routed = true ->
         Error {| em_correlation_id := tm_id (tr_originalMessage r);
                  em_in_reply_to := None;
                  em_error := "Request timeout";
                  em_error_code := "TIMEOUT" |} ∈ sent c w') /\
    (forall id r, rec_get id (table Scenarios.echo_routed) = Some r ->
       30004 - tr_created r <= tr_ttl r ->
       rec_get id (table w') = Some r) /\
    timeoutTriggers (stats (triggerRouter w'))
      = timeoutTriggers (stats (triggerRouter Scenarios.echo_routed))
        + Z.of_nat (length (filter (fun r => isExpired 30004 r = true)
                              (rec_values (table Scenarios.echo_routed)))).
Proof.
  apply (cleanup_removes_exactly_the_expired 30004 Scenarios.echo_routed).
  vm_compute. reflexivity.
Defined.

(** A response whose trigger came without a destination: routed to the
    record's origin connection. *)
Lemma _routeResponse_origin_run record message c w :
  truthy (tm_destination (tr_originalMessage record)) = None ->
  tr_originConnection record = Some c ->
  live c w = true ->
  exists w',
    _routeResponse record message w = (w', Return tt) /\
    sent c w' = sent c w ++ [message] /\
    triggerRouter w' = triggerRouter w.
Proof.
  intros Hdest Hc Hlive. unfold _routeResponse.
  rewrite get_bind, Hdest, ret_bind, Hc, throw_if_bind.
  rewrite (live_active _ _ Hlive). cbn [negb].
  destruct (send_spec c message w) as (w' & Hsend & _ & _ & _ & _ & Ht & Hsent).
  unfold bind. rewrite Hsend, Hlive. cbn.
  exists w'. split; [done|]. by rewrite Hsent, Hlive.
Qed.

Lemma reply_id_in_reply_to message id :
  rm_in_reply_to message = Some id -> id <> ""%string ->
  truthy (Some (str_or (rm_in_reply_to message)
                  (str_or (rm_correlation_id message) ""))) = Some id.
Proof.
  intros -> Hid. unfold truthy, str_or.
  by rewrite !(bool_decide_eq_false_2 (id = ""%string)) by done.
Qed.

(** A response to a trigger that named no destination is written to the
    origin connection, the record is removed and the success counter goes
    up by one; any later response to the same trigger finds no record and
    changes nothing, so the origin receives one response at most. *)
Theorem response_is_delivered_once message id r c w :
  rm_in_reply_to message = Some id -> id <> ""%string ->
  rec_get id (table w) = Some r ->
  truthy (tm_destination (tr_originalMessage r)) = None ->
  tr_originConnection r = Some c ->
  live c w = true ->
  exists w',
    handleTriggerResponse message w = (w', Return tt) /\
    sent c w' = sent c w ++ [Response message] /\
    rec_get id (table w') = None /\
    successfulTriggers (stats (triggerRouter w'))
      = successfulTriggers (stats (triggerRouter w)) + 1 /\
    failedTriggers (stats (triggerRouter w'))
      = failedTriggers (stats (triggerRouter w)) /\
    forall again, rm_in_reply_to again = Some id ->
      handleTriggerResponse again w' = (w', Return tt).
Proof.
  intros Hreply Hid Hget Hdest Hc Hlive.
  destruct (_routeResponse_origin_run r (Response message) c w Hdest Hc Hlive)
    as (w1 & Hrun & Hsent & Ht).
  assert (forall w2 : World,
            table (set_table (rec_delete id) w2) = rec_delete id (table w2))
    as Htable by done.
  exists (set_table (rec_delete id) (bump set_successfulTriggers w1)).
  split.
  { unfold handleTriggerResponse.
    rewrite (reply_id_in_reply_to _ _ Hreply Hid), get_bind, Hget.
    unfold try_catch. unfold bind at 1. rewrite Hrun.
    rewrite modify_bind. reflexivity. }
  split; [exact Hsent|].
  split; [rewrite Htable; apply rec_get_delete_eq|].
  split; [cbn; by rewrite Ht|]. split; [cbn; by rewrite Ht|].
  intros again Hagain. unfold handleTriggerResponse.
  rewrite (reply_id_in_reply_to _ _ Hagain Hid), get_bind.
  by rewrite Htable, rec_get_delete_eq.
Qed.

Lemma response_is_delivered_once_witness :
  exists w',
    handleTriggerResponse (Scenarios.response "r1" Scenarios.T1)
      Scenarios.echo_routed = (w', Return tt) /\
    sent 2 w' = sent 2 Scenarios.echo_routed
                ++ [Response (Scenarios.response "r1" Scenarios.T1)] /\
    rec_get Scenarios.T1 (table w') = None /\
    successfulTriggers (stats (triggerRouter w'))
      = successfulTriggers (stats (triggerRouter Scenarios.echo_routed)) + 1 /\
    failedTriggers (stats (triggerRouter w'))
      = failedTriggers (stats (triggerRouter Scenarios.echo_routed)) /\
    forall again, rm_in_reply_to again = Some Scenarios.T1 ->
      handleTriggerResponse again w' = (w', Return tt).
Proof.
  eapply (response_is_delivered_once (Scenarios.response "r1" Scenarios.T1)
            Scenarios.T1 _ 2 Scenarios.echo_routed).
  - reflexivity.
  - discriminate.
  - vm_compute. reflexivity.
  - vm_compute. reflexivity.
  - vm_compute. reflexivity.
  - vm_compute. reflexivity.
Defined.

Lemma send_dead c message w :
  live c w = false -> Transport.send c message w = (w, Return false).
Proof.
  unfold live, Transport.send. destruct (conns w !! c); [|done].
  by intros ->.
Qed.

(** Routing a response to an origin connection that is closed, or whose
    socket does not take the write, throws and changes nothing. *)
Lemma _routeResponse_origin_dead record message c w :
  truthy (tm_destination (tr_originalMessage record)) = None ->
  tr_originConnection record = Some c ->
  live c w = false ->
  exists e, _routeResponse record message w = (w, Throw e).
Proof.
  intros Hdest Hc Hdead. unfold _routeResponse.
  rewrite get_bind, Hdest, ret_bind, Hc, throw_if_bind.
  destruct (Transport.isActive c w); [|by eexists]. cbn [negb].
  unfold bind at 1. rewrite (send_dead _ _ _ Hdead). by eexists.
Qed.

(** A response that arrives when the origin connection of its trigger is
    closed, or its socket does not take the write, is dropped: the failure
    counter goes up by one and nothing else changes, so no connection is
    written to and the record stays in the table.  When the record's timer
    then fires, the record is removed and the same trigger is counted as a
    timeout as well. *)
Theorem response_to_a_closed_origin_is_dropped message id r c w :
  rm_in_reply_to message = Some id -> id <> ""%string ->
  rec_get id (table w) = Some r ->
  truthy (tm_destination (tr_originalMessage r)) = None ->
  tr_originConnection r = Some c ->
  live c w = false ->
  tr_id r = Some id ->
  handleTriggerResponse message w = (bump set_failedTriggers w, Return tt) /\
  exists w',
    _timeoutTriggerRecord r (bump set_failedTriggers w) = (w', Return tt) /\
    conns w' = conns w /\
    rec_get id (table w') = None /\
    failedTriggers (stats (triggerRouter w'))
      = failedTriggers (stats (triggerRouter w)) + 1 /\
    timeoutTriggers (stats (triggerRouter w'))
      = timeoutTriggers (stats (triggerRouter w)) + 1 /\
    successfulTriggers (stats (triggerRouter w'))
      = successfulTriggers (stats (triggerRouter w)).
Proof.
  intros Hreply Hid Hget Hdest Hc Hdead Hrid.
  destruct (_routeResponse_origin_dead r (Response message) c w Hdest Hc Hdead)
    as (e & Hrun).
  split.
  { unfold handleTriggerResponse.
    rewrite (reply_id_in_reply_to _ _ Hreply Hid), get_bind, Hget.
    unfold try_catch. unfold bind at 1. by rewrite Hrun. }
  exists (set_table (rec_delete id)
            (bump set_timeoutTriggers (bump set_failedTriggers w))).
  split.
  { unfold _timeoutTriggerRecord. rewrite get_bind, Hc.
    assert ((if Transport.isActive c (bump set_failedTriggers w)
             then Transport.send c
                    (createTimeoutError (Trigger (tr_originalMessage r)))
                  ;;; ret tt
             else ret tt) (bump set_failedTriggers w)
            = (bump set_failedTriggers w, Return tt)) as Hquiet.
    { destruct (Transport.isActive c _); [|done].
      unfold bind. by rewrite send_dead. }
    unfold bind at 1. rewrite Hquiet. rewrite modify_bind, Hrid.
    reflexivity. }
  split; [done|].
  split; [|done].
  change (table (set_table (rec_delete id)
                   (bump set_timeoutTriggers (bump set_failedTriggers w))))
    with (rec_delete id (table w)).
  apply rec_get_delete_eq.
Qed.

Lemma response_to_a_closed_origin_is_dropped_witness :
  handleTriggerResponse (Scenarios.response "r1" Scenarios.T1)
    (Scenarios.disconnect 2 Scenarios.echo_routed)
  = (bump set_failedTriggers (Scenarios.disconnect 2 Scenarios.echo_routed),
     Return tt) /\
  exists w',
    _timeoutTriggerRecord
      (set_dispatched "A" 3
         (set_timeoutId true
            (new_record 3
               (set_origin "B"
                  (Scenarios.trigger Scenarios.T1 "echo" None None))
               (Some 2) (Some "default"%string) ["A"%string]
               (Some 3) (Some 30000))))
      (bump set_failedTriggers (Scenarios.disconnect 2 Scenarios.echo_routed))
    = (w', Return tt) /\
    conns w' = conns (Scenarios.disconnect 2 Scenarios.echo_routed) /\
    rec_get Scenarios.T1 (table w') = None /\
    failedTriggers (stats (triggerRouter w'))
      = failedTriggers
          (stats (triggerRouter (Scenarios.disconnect 2 Scenarios.echo_routed)))
        + 1 /\
    timeoutTriggers (stats (triggerRouter w'))
      = timeoutTriggers
          (stats (triggerRouter (Scenarios.disconnect 2 Scenarios.echo_routed)))
        + 1 /\
    successfulTriggers (stats (triggerRouter w'))
      = successfulTriggers
          (stats (triggerRouter (Scenarios.disconnect 2 Scenarios.echo_routed))).
Proof.
  apply (response_to_a_closed_origin_is_dropped
           (Scenarios.response "r1" Scenarios.T1) Scenarios.T1 _ 2
           (Scenarios.disconnect 2 Scenarios.echo_routed)).
  - reflexivity.
  - discriminate.
  - vm_compute. reflexivity.
  - vm_compute. reflexivity.
  - vm_compute. reflexivity.
  - vm_compute. reflexivity.
  - vm_compute. reflexivity.
Defined.

Lemma _selectRoundRobin_run handlers w :
  exists w',
    _selectRoundRobin handlers w
      = (w', Return (handlers !! Z.to_nat (cursor handlers w
                                            `mod` Z.of_nat (length handlers))))
    /\ cursor handlers w' = cursor handlers w + 1.
Proof.
  eexists. split.
  { unfold _selectRoundRobin. cbv zeta. rewrite get_bind, modify_bind.
    reflexivity. }
  unfold cursor. cbn. by rewrite lookup_insert_eq.
Qed.

Lemma select_in_turn_run n handlers : forall w,
  exists w',
    select_in_turn n handlers w
      = (w', Return (map (fun i =>
                            handlers !! Z.to_nat
                              ((cursor handlers w + Z.of_nat i)
                               `mod` Z.of_nat (length handlers)))
                       (seq 0 n))).
Proof.
  induction n as [|n IH]; intros w.
  - by eexists.
  - destruct (_selectRoundRobin_run handlers w) as (w1 & Hrun & Hcur).
    destruct (IH w1) as (w2 & Hrest).
    exists w2. cbn [select_in_turn]. unfold bind at 1. rewrite Hrun.
    unfold bind at 1. rewrite Hrest. unfold ret. cbn [seq map].
    rewrite Z.add_0_r. do 3 f_equal.
    rewrite <- fmap_S_seq. rewrite <- list_fmap_compose.
    apply list_fmap_ext. intros _ i _. cbn. rewrite Hcur.
    do 3 f_equal. lia.
Qed.

(** Round robin is fair: as many selections in a row as there are
    handlers select every handler once, in the order of the list started
    at the place the counter has reached. *)
Theorem round_robin_selects_every_handler_once handlers w :
  0 <= cursor handlers w ->
  exists w',
    select_in_turn (length handlers) handlers w
      = (w', Return (map Some
                       (rotate (Z.to_nat (cursor handlers w)) handlers))).
Proof.
  intros Hcur.
  destruct (select_in_turn_run (length handlers) handlers w) as (w' & Hrun).
  exists w'. rewrite Hrun. do 2 f_equal.
  apply list_eq. intros i.
  rewrite !list_lookup_fmap.
  destruct (decide (i < length handlers)%nat) as [Hi|Hi].
  - rewrite lookup_seq_lt by done. cbn.
    rewrite lookup_rotate_r by done. unfold rotate_nat_add.
    rewrite Z2Nat.id by done.
    destruct (lookup_lt_is_Some_2 handlers
                (Z.to_nat ((cursor handlers w + Z.of_nat i)
                           `mod` Z.of_nat (length handlers)))) as [h Hh].
    { pose proof (Z.mod_pos_bound (cursor handlers w + Z.of_nat i)
                    (Z.of_nat (length handlers))). lia. }
    by rewrite Hh.
  - rewrite lookup_seq_ge by lia.
    rewrite (lookup_ge_None_2 (rotate _ _)) by (rewrite length_rotate; lia).
    done.
Qed.

Lemma round_robin_selects_every_handler_once_witness :
  exists w',
    select_in_turn (length A_and_B) A_and_B Scenarios.two_apps
      = (w', Return (map Some
                       (rotate (Z.to_nat (cursor A_and_B Scenarios.two_apps))
                          A_and_B))).
Proof.
  apply (round_robin_selects_every_handler_once A_and_B Scenarios.two_apps).
  vm_compute. discriminate.
Defined.

(** A request that arrives when the table holds [maxConcurrentTriggers]
    records, or on a connection no app has registered on, is refused: the
    origin is sent an error with code [TRIGGER_ROUTING_ERROR] correlated to
    the request, no record is created, and the request is counted both as
    a trigger and as a failure. *)
Theorem refused_request_creates_no_record now message c w :
  maxConcurrentTriggers (triggerRouter w) <= Z.of_nat (length (table w))
  \/ Registry.getAppByConnection c w = None ->
  exists w' e,
    handleTriggerRequest now message c w = (w', Return tt) /\
    table w' = table w /\
    sent c w'
      = (if live c w
         then sent c w
              ++ [Error {| em_correlation_id := tm_id message;
                           em_in_reply_to := None;
                           em_error := e;
                           em_error_code := "TRIGGER_ROUTING_ERROR" |}]
         else sent c w) /\
    totalTriggers (stats (triggerRouter w'))
      = totalTriggers (stats (triggerRouter w)) + 1 /\
    failedTriggers (stats (triggerRouter w'))
      = failedTriggers (stats (triggerRouter w)) + 1 /\
    appRegistry w' = appRegistry w /\ poolManager w' = poolManager w /\
    persistence w' = persistence w.
Proof.
  intros Hrefused.
  set (w0 := bump set_totalTriggers w).
  assert (exists e, accept_trigger now message c w0 = (w0, Throw e))
    as [e Hthrow].
  { unfold accept_trigger. rewrite get_bind, throw_if_bind.
    change (table w0) with (table w).
    change (maxConcurrentTriggers (triggerRouter w0))
      with (maxConcurrentTriggers (triggerRouter w)).
    destruct (Z.of_nat (length (table w))
              >=? maxConcurrentTriggers (triggerRouter w)) eqn:Hfull;
      [by eexists|].
    destruct Hrefused as [Hmax|Hnone]; [lia|].
    change (Registry.getAppByConnection c w0)
      with (Registry.getAppByConnection c w).
    rewrite Hnone. by eexists. }
  destruct (send_spec c (createError (Trigger message) e
                           "TRIGGER_ROUTING_ERROR") w0)
    as (w1 & Hsend & _ & Hp & Hpm & Hr & Ht & Hsent).
  exists (bump set_failedTriggers w1), e. split.
  { unfold handleTriggerRequest. rewrite modify_bind. fold w0.
    unfold try_catch. rewrite Hthrow. unfold bind. by rewrite Hsend. }
  split; [unfold table; cbn; by rewrite Ht|].
  split; [exact Hsent|].
  split; [cbn; by rewrite Ht|]. split; [cbn; by rewrite Ht|].
  split; [exact Hr|]. split; [exact Hpm|]. exact Hp.
Qed.

Lemma refused_request_creates_no_record_witness :
  exists w' e,
    handleTriggerRequest 3 (Scenarios.trigger Scenarios.T1 "echo" None None)
      7 Scenarios.two_apps = (w', Return tt) /\
    table w' = table Scenarios.two_apps /\
    sent 7 w'
      = (if live 7 Scenarios.two_apps
         then sent 7 Scenarios.two_apps
              ++ [Error {| em_correlation_id :=
                             tm_id (Scenarios.trigger Scenarios.T1 "echo"
                                      None None);
                           em_in_reply_to := None;
                           em_error := e;
                           em_error_code := "TRIGGER_ROUTING_ERROR" |}]
         else sent 7 Scenarios.two_apps) /\
    totalTriggers (stats (triggerRouter w'))
      = totalTriggers (stats (triggerRouter Scenarios.two_apps)) + 1 /\
    failedTriggers (stats (triggerRouter w'))
      = failedTriggers (stats (triggerRouter Scenarios.two_apps)) + 1 /\
    appRegistry w' = appRegistry Scenarios.two_apps /\
    poolManager w' = poolManager Scenarios.two_apps /\
    persistence w' = persistence Scenarios.two_apps.
Proof.
  apply (refused_request_creates_no_record 3
           (Scenarios.trigger Scenarios.T1 "echo" None None) 7
           Scenarios.two_apps).
  right. vm_compute. reflexivity.
Defined.

Lemma str_or_nonempty x d : d <> ""%string -> str_or x d <> ""%string.
Proof.
  intros Hd. unfold str_or. destruct x as [v|]; [|done].
  by case_bool_decide.
Qed.

Lemma createTriggerRecord_run now id origin destination pool handlers
    created ttl msg conn w :
  id <> ""%string -> origin <> ""%string -> rec_get id (table w) = None ->
  createTriggerRecord now (Some id) origin destination pool handlers created
    ttl msg conn w
  = (set_table
       (rec_set id
          (new_record now msg conn pool handlers (Some (num_or created now))
             (Some (num_or ttl (defaultTTL (triggerRouter w)))))) w,
     Return (new_record now msg conn pool handlers
               (Some (num_or created now))
               (Some (num_or ttl (defaultTTL (triggerRouter w)))))).
Proof.
  intros Hid Horigin Hfree. unfold createTriggerRecord, truthy.
  rewrite (bool_decide_eq_false_2 (id = ""%string)) by done.
  rewrite throw_if_bind, (bool_decide_eq_false_2 (origin = ""%string)) by done.
  rewrite get_bind, throw_if_bind, Hfree.
  rewrite bool_decide_eq_false_2 by (by intros [? ?]).
  reflexivity.
Qed.

(** The request of a registered member of a loaded pool, for which
    routing selects a destination: a record is created and the trigger is
    handed to the dispatch. *)
Lemma accept_trigger_dispatches now message c w originApp id rr w2 :
  Z.of_nat (length (table w)) < maxConcurrentTriggers (triggerRouter w) ->
  Registry.getAppByConnection c w = Some originApp ->
  reg_appId originApp <> ""%string ->
  is_Some (pools (poolManager w) !! str_or (tm_pool message) "default") ->
  is_Some (poolMetadata (poolManager w)
             !! str_or (tm_pool message) "default") ->
  Pools.validatePoolMembership (reg_appId originApp)
    (str_or (tm_pool message) "default") w = true ->
  routeTrigger (set_origin (reg_appId originApp) message) w
    = (w2, Return rr) ->
  tm_id message = Some id -> id <> ""%string ->
  rec_get id (table w) = None ->
  exists record,
    tr_id record = Some id /\ tr_originConnection record = Some c /\
    tr_timeoutId record = false /\ tr_dispatchedTo record = None /\
    tr_originalMessage record = set_origin (reg_appId originApp) message /\
    accept_trigger now message c w
    = (_dispatchTrigger now record (rr_destination rr) ;;;
       _setTriggerTimeout record)
        (set_table (rec_set id record) w2).
Proof.
  intros Hroom Horigin Happ Hpool Hmeta Hmember Hroute Hmid Hid Hfree.
  pose proof (routeTrigger_frame _ _ _ _ Hroute) as Hframe.
  unfold same, outside_routing, router_core in Hframe.
  injection Hframe as Hconns Hpers Hpm Hreg Htable Httl Hmax Htot Hsucc Hfail Hto.
  eexists. split_and!; cycle 5.
  { unfold accept_trigger. rewrite get_bind, throw_if_bind.
    replace (Z.of_nat (length (table w))
             >=? maxConcurrentTriggers (triggerRouter w)) with false by lia.
    rewrite Horigin.
    unfold bind at 1.
    assert (str_or (tm_pool message) "default" <> ""%string) as Hname
      by (by apply str_or_nonempty).
    rewrite (JoinFacts.getPool_loaded _ w Hname Hpool).
    rewrite throw_if_bind.
    rewrite (bool_decide_eq_true_2 _ Hmeta). cbn [negb].
    rewrite get_bind, throw_if_bind, Hmember. cbn [negb].
    unfold bind at 1. rewrite Hroute. rewrite get_bind.
    unfold bind at 1. rewrite Hmid.
    rewrite createTriggerRecord_run by (try done; by rewrite Htable).
    reflexivity. }
  all: try done.
Qed.

Lemma live_same_conns c w w' : conns w' = conns w -> live c w' = live c w.
Proof. unfold live. by intros ->. Qed.

Lemma sent_same_conns c w w' : conns w' = conns w -> sent c w' = sent c w.
Proof. unfold sent. by intros ->. Qed.

Lemma isActive_same_conns c w w' :
  conns w' = conns w -> Transport.isActive c w' = Transport.isActive c w.
Proof. unfold Transport.isActive. by intros ->. Qed.

(** A dispatch that fails leaves its record behind.  When routing has
    selected a destination other than the origin, and the destination's
    connection does not take the write, the origin is sent an error with
    code [TRIGGER_ROUTING_ERROR] and the request is counted as a failure;
    the record that was created for it stays in the table, not dispatched
    and with no timer armed. *)
Theorem failed_dispatch_leaves_the_record now message c w originApp id rr w2
    d :
  Z.of_nat (length (table w)) < maxConcurrentTriggers (triggerRouter w) ->
  Registry.getAppByConnection c w = Some originApp ->
  reg_appId originApp <> ""%string ->
  is_Some (pools (poolManager w) !! str_or (tm_pool message) "default") ->
  is_Some (poolMetadata (poolManager w)
             !! str_or (tm_pool message) "default") ->
  Pools.validatePoolMembership (reg_appId originApp)
    (str_or (tm_pool message) "default") w = true ->
  routeTrigger (set_origin (reg_appId originApp) message)
    (bump set_totalTriggers w) = (w2, Return rr) ->
  tm_id message = Some id -> id <> ""%string ->
  rec_get id (table w) = None ->
  reg_connection (rr_destination rr) = Some d ->
  live d w = false ->
  reg_appId (rr_destination rr) <> reg_appId originApp ->
  exists w' e r,
    handleTriggerRequest now message c w = (w', Return tt) /\
    rec_get id (table w') = Some r /\
    tr_timeoutId r = false /\ tr_dispatchedTo r = None /\
    sent c w'
      = (if live c w
         then sent c w
              ++ [Error {| em_correlation_id := Some id;
                           em_in_reply_to := None;
                           em_error := e;
                           em_error_code := "TRIGGER_ROUTING_ERROR" |}]
         else sent c w) /\
    failedTriggers (stats (triggerRouter w'))
      = failedTriggers (stats (triggerRouter w)) + 1.
Proof.
  intros Hroom Horigin Happ Hpool Hmeta Hmember Hroute Hmid Hid Hfree Hd
    Hdead Hother.
  set (w0 := bump set_totalTriggers w) in *.
  destruct (accept_trigger_dispatches now message c w0 originApp id rr w2)
    as (record & Hrid & Hrc & Htimer & Hto & Hmsg & Haccept); try done.
  pose proof (routeTrigger_frame _ _ _ _ Hroute) as Hframe.
  unfold same, outside_routing, router_core in Hframe.
  injection Hframe
    as Hconns Hpers Hpm Hreg Htable Httl Hmax Htot Hsucc Hfail Htime.
  set (w3 := set_table (rec_set id record) w2) in *.
  assert (conns w3 = conns w) as Hconns3 by exact Hconns.
  assert (exists e,
            (_dispatchTrigger now record (rr_destination rr) ;;;
             _setTriggerTimeout record) w3 = (w3, Throw e)) as [e Hthrow].
  { unfold bind at 1.
    assert (exists e, _dispatchTrigger now record (rr_destination rr) w3
                      = (w3, Throw e)) as [e ->]; [|by eexists].
    unfold _dispatchTrigger. rewrite get_bind, throw_if_bind.
    unfold Registry.isActive. rewrite Hd.
    destruct (Transport.isActive d w3); [|by eexists]. cbn [negb].
    rewrite Hrc. cbn [mbind option_bind].
    replace (Registry.getAppByConnection c w3) with (Some originApp)
      by (rewrite <- Horigin; unfold Registry.getAppByConnection,
            Registry.getApp; change (appRegistry w3) with (appRegistry w2);
          by rewrite Hreg).
    rewrite bool_decide_eq_false_2 by congruence.
    unfold Registry.send. rewrite Hd. unfold bind at 1.
    rewrite send_dead by (by rewrite (live_same_conns _ _ _ Hconns3)).
    by eexists. }
  destruct (send_spec c (createError (Trigger message) e
                           "TRIGGER_ROUTING_ERROR") w3)
    as (w4 & Hsend & _ & _ & _ & _ & Ht & Hsent).
  exists (bump set_failedTriggers w4), e, record. split.
  { unfold handleTriggerRequest. rewrite modify_bind. fold w0.
    unfold try_catch. rewrite Haccept, Hthrow. unfold bind.
    by rewrite Hsend. }
  split.
  { change (table (bump set_failedTriggers w4)) with (table w4).
    unfold table. rewrite Ht.
    change (triggerRecords (triggerRouter w3))
      with (rec_set id record (table w2)).
    by rewrite rec_get_set, bool_decide_eq_true_2. }
  split; [done|]. split; [done|]. split.
  { change (sent c (bump set_failedTriggers w4)) with (sent c w4).
    rewrite Hsent, (live_same_conns _ _ _ Hconns3),
      (sent_same_conns _ _ _ Hconns3).
    unfold createError. cbn [message_id]. by rewrite Hmid. }
  cbn. rewrite Ht.
  change (failedTriggers (stats (triggerRouter w3)))
    with (failedTriggers (stats (triggerRouter w2))).
  by rewrite Hfail.
Qed.

Lemma failed_dispatch_leaves_the_record_witness :
  exists w' e r,
    handleTriggerRequest 3 (Scenarios.trigger Scenarios.T1 "echo" None None)
      2 (stalled 1) = (w', Return tt) /\
    rec_get Scenarios.T1 (table w') = Some r /\
    tr_timeoutId r = false /\ tr_dispatchedTo r = None /\
    sent 2 w'
      = (if live 2 (stalled 1)
         then sent 2 (stalled 1)
              ++ [Error {| em_correlation_id := Some Scenarios.T1;
                           em_in_reply_to := None;
                           em_error := e;
                           em_error_code := "TRIGGER_ROUTING_ERROR" |}]
         else sent 2 (stalled 1)) /\
    failedTriggers (stats (triggerRouter w'))
      = failedTriggers (stats (triggerRouter (stalled 1))) + 1.
Proof.
  eapply (failed_dispatch_leaves_the_record 3
            (Scenarios.trigger Scenarios.T1 "echo" None None) 2 (stalled 1)
            _ Scenarios.T1 _ _ 1).
  - vm_compute. reflexivity.
  - vm_compute. reflexivity.
  - vm_compute. discriminate.
  - vm_compute. eauto.
  - vm_compute. eauto.
  - vm_compute. reflexivity.
  - vm_compute. reflexivity.
  - reflexivity.
  - discriminate.
  - vm_compute. reflexivity.
  - vm_compute. reflexivity.
  - vm_compute. reflexivity.
  - vm_compute. discriminate.
Defined.

Lemma routeTrigger_keeps_timers m :
  preserves (same (fun w => detachedTimers (triggerRouter w)))
    (routeTrigger m).
Proof.
  unfold routeTrigger, selectDestination, _selectRoundRobin, validateRouting,
    count_short_circuit.
  solve_preserves.
Qed.

(** What the callback of a timer does to the router, and to a live
    origin. *)
Lemma _timeoutTriggerRecord_router r w :
  exists w',
    _timeoutTriggerRecord r w = (w', Return tt) /\
    triggerRouter w'
    = triggerRouter
        (set_table (match tr_id r with
                    | Some id => rec_delete id
                    | None => fun t => t
                    end) (bump set_timeoutTriggers w)) /\
    forall c, tr_originConnection r = Some c -> live c w = true ->
      sent c w' = sent c w
                  ++ [createTimeoutError (Trigger (tr_originalMessage r))].
Proof.
  unfold _timeoutTriggerRecord. rewrite get_bind.
  set (err := createTimeoutError _).
  assert (exists w1,
    (match tr_originConnection r with
     | Some c => if Transport.isActive c w
                 then Transport.send c err ;;; ret tt else ret tt
     | None => ret tt
     end) w = (w1, Return tt) /\ triggerRouter w1 = triggerRouter w /\
    (forall c, tr_originConnection r = Some c -> live c w = true ->
       sent c w1 = sent c w ++ [err])) as (w1 & Hsend & Ht & Hd).
  { destruct (tr_originConnection r) as [c|].
    - destruct (Transport.isActive c w) eqn:Hact.
      + destruct (send_spec c err w) as (w1 & Hs & _ & _ & _ & _ & Ht & Hsent).
        exists w1. unfold bind. rewrite Hs. split; [done|]. split; [done|].
        intros c' [= <-] Hlive. by rewrite Hsent, Hlive.
      + exists w. split; [done|]. split; [done|].
        intros c' [= <-] Hlive. apply live_active in Hlive. congruence.
    - exists w. split; [done|]. split; [done|]. done. }
  unfold bind at 1. rewrite Hsend. rewrite modify_bind.
  unfold _cleanupTriggerRecord.
  destruct (tr_id r) as [id|]; eexists; (split; [reflexivity|]); cbn;
    rewrite Ht; (split; [reflexivity|exact Hd]).
Qed.

(** An app cannot call a trigger of its own, and is told so twice.  When
    routing selects the app the request came from, the request is
    answered with an error with code [SHORT_CIRCUIT_NOT_IMPLEMENTED],
    nothing is dispatched, the record is removed again and the request is
    counted as a failure.  The timer is armed all the same, on the
    removed record, where no [clearTimeout] reaches it: when it fires, a
    live origin gets a second error, with code [TIMEOUT], and the request
    is counted as a timeout as well. *)
Theorem call_to_oneself_is_answered_twice
    now message c w originApp id rr w2 :
  Z.of_nat (length (table w)) < maxConcurrentTriggers (triggerRouter w) ->
  Registry.getAppByConnection c w = Some originApp ->
  reg_appId originApp <> ""%string ->
  is_Some (pools (poolManager w) !! str_or (tm_pool message) "default") ->
  is_Some (poolMetadata (poolManager w)
             !! str_or (tm_pool message) "default") ->
  Pools.validatePoolMembership (reg_appId originApp)
    (str_or (tm_pool message) "default") w = true ->
  routeTrigger (set_origin (reg_appId originApp) message)
    (bump set_totalTriggers w) = (w2, Return rr) ->
  tm_id message = Some id -> id <> ""%string ->
  rec_get id (table w) = None ->
  Registry.isActive (rr_destination rr) w = true ->
  reg_appId (rr_destination rr) = reg_appId originApp ->
  exists w' record,
    handleTriggerRequest now message c w = (w', Return tt) /\
    rec_get id (table w') = None /\
    sent c w'
      = (if live c w
         then sent c w
              ++ [Error {| em_correlation_id := Some id;
                           em_in_reply_to := None;
                           em_error :=
                             "Intra-process trigger calls not yet supported";
                           em_error_code :=
                             "SHORT_CIRCUIT_NOT_IMPLEMENTED" |}]
         else sent c w) /\
    (forall c', c' <> c -> sent c' w' = sent c' w) /\
    failedTriggers (stats (triggerRouter w'))
      = failedTriggers (stats (triggerRouter w)) + 1 /\
    timeoutTriggers (stats (triggerRouter w'))
      = timeoutTriggers (stats (triggerRouter w)) /\
    detachedTimers (triggerRouter w')
      = detachedTimers (triggerRouter w) ++ [record] /\
    exists w'',
      fire_detached (length (detachedTimers (triggerRouter w))) w'
        = (w'', Return tt) /\
      detachedTimers (triggerRouter w'') = detachedTimers (triggerRouter w) /\
      (live c w = true ->
       sent c w''
       = sent c w
         ++ [Error {| em_correlation_id := Some id;
                      em_in_reply_to := None;
                      em_error :=
                        "Intra-process trigger calls not yet supported";
                      em_error_code := "SHORT_CIRCUIT_NOT_IMPLEMENTED" |};
             Error {| em_correlation_id := Some id;
                      em_in_reply_to := None;
                      em_error := "Request timeout";
                      em_error_code := "TIMEOUT" |}]) /\
      failedTriggers (stats (triggerRouter w''))
        = failedTriggers (stats (triggerRouter w)) + 1 /\
      timeoutTriggers (stats (triggerRouter w''))
        = timeoutTriggers (stats (triggerRouter w)) + 1.
Proof.
  intros Hroom Horigin Happ Hpool Hmeta Hmember Hroute Hmid Hid Hfree Hact
    Hself.
  set (w0 := bump set_totalTriggers w) in *.
  destruct (accept_trigger_dispatches now message c w0 originApp id rr w2)
    as (record & Hrid & Hrc & Htimer & Hto & Hmsg & Haccept); try done.
  pose proof (routeTrigger_frame _ _ _ _ Hroute) as Hframe.
  unfold same, outside_routing, router_core in Hframe.
  injection Hframe
    as Hconns Hpers Hpm Hreg Htable Httl Hmax Htot Hsucc Hfail Htime.
  pose proof (routeTrigger_keeps_timers _ _ _ _ Hroute) as Htimers.
  unfold same in Htimers.
  change (detachedTimers (triggerRouter w0))
    with (detachedTimers (triggerRouter w)) in Htimers.
  set (w3 := set_table (rec_set id record) w2) in *.
  assert (conns w3 = conns w) as Hconns3 by exact Hconns.
  set (err := createError (Trigger (tr_originalMessage record))
                "Intra-process trigger calls not yet supported"
                "SHORT_CIRCUIT_NOT_IMPLEMENTED").
  assert (exists w4,
            (match tr_originConnection record with
             | Some c => if Transport.isActive c w3
                         then Transport.send c err ;;; ret tt else ret tt
             | None => ret tt
             end) w3 = (w4, Return tt) /\
            triggerRouter w4 = triggerRouter w3 /\
            live c w4 = live c w /\
            sent c w4 = (if live c w then sent c w ++ [err] else sent c w) /\
            forall c', c' <> c -> sent c' w4 = sent c' w)
    as (w4 & Hreply & Ht & Hlive4 & Hsent & Hrest).
  { rewrite Hrc. destruct (Transport.isActive c w3) eqn:Hactive.
    - destruct (send_spec c err w3)
        as (w4 & Hsend & Hgrows & _ & _ & _ & Ht & Hsent).
      exists w4. unfold bind. rewrite Hsend. split; [done|]. split; [done|].
      split.
      { destruct (Hgrows c) as (_ & -> & _).
        by apply live_same_conns. }
      split.
      + by rewrite Hsent, (live_same_conns _ _ _ Hconns3),
          (sent_same_conns _ _ _ Hconns3).
      + intros c' Hc'. revert Hsend. unfold Transport.send.
        destruct (conns w3 !! c) as [conn|] eqn:Hconn.
        * destruct (_ && _); intros [= <- _];
            [|by apply sent_same_conns].
          unfold sent. cbn [conns set_conns].
          rewrite lookup_insert_ne by done. by rewrite Hconns3.
        * intros [= <- _]. by apply sent_same_conns.
    - exists w3. split; [done|]. split; [done|].
      split; [by apply live_same_conns|].
      assert (live c w = false) as ->.
      { destruct (live c w) eqn:Hlive; [|done].
        apply live_active in Hlive.
        rewrite <- (isActive_same_conns _ _ _ Hconns3) in Hlive.
        congruence. }
      split; [by apply sent_same_conns|].
      intros c' _. by apply sent_same_conns. }
  set (w5 := set_table (rec_delete id) (bump set_failedTriggers w4)).
  set (w' := set_triggerRouter
               (set_detachedTimers (fun timers => timers ++ [record])) w5).
  assert (detachedTimers (triggerRouter w')
          = detachedTimers (triggerRouter w) ++ [record]) as Hdetached.
  { unfold w', w5. cbn. rewrite Ht. unfold w3. cbn. by rewrite Htimers. }
  assert (failedTriggers (stats (triggerRouter w'))
          = failedTriggers (stats (triggerRouter w)) + 1) as Hfailed.
  { unfold w', w5. cbn. rewrite Ht.
    change (failedTriggers (stats (triggerRouter w3)))
      with (failedTriggers (stats (triggerRouter w2))).
    by rewrite Hfail. }
  assert (timeoutTriggers (stats (triggerRouter w'))
          = timeoutTriggers (stats (triggerRouter w))) as Hnotimeout.
  { unfold w', w5. cbn. rewrite Ht.
    change (timeoutTriggers (stats (triggerRouter w3)))
      with (timeoutTriggers (stats (triggerRouter w2))).
    by rewrite Htime. }
  assert (sent c w'
          = (if live c w then sent c w ++ [err] else sent c w)) as Hsent'
    by exact Hsent.
  assert (err = Error {| em_correlation_id := Some id;
                         em_in_reply_to := None;
                         em_error :=
                           "Intra-process trigger calls not yet supported";
                         em_error_code := "SHORT_CIRCUIT_NOT_IMPLEMENTED" |})
    as Herr.
  { unfold err, createError. rewrite Hmsg. cbn [message_id].
    change (tm_id (set_origin (reg_appId originApp) message))
      with (tm_id message). by rewrite Hmid. }
  exists w', record.
  split.
  { unfold handleTriggerRequest. rewrite modify_bind. fold w0.
    unfold try_catch. rewrite Haccept.
    unfold bind at 1. unfold _dispatchTrigger.
    rewrite get_bind, throw_if_bind.
    replace (Registry.isActive (rr_destination rr) w3) with true
      by (rewrite <- Hact; unfold Registry.isActive;
          destruct (reg_connection (rr_destination rr)); [|done];
          symmetry; by apply isActive_same_conns).
    cbn [negb]. rewrite Hrc in Hreply |- *. cbn [mbind option_bind].
    replace (Registry.getAppByConnection c w3) with (Some originApp)
      by (rewrite <- Horigin; unfold Registry.getAppByConnection,
            Registry.getApp; change (appRegistry w3) with (appRegistry w2);
          by rewrite Hreg).
    rewrite bool_decide_eq_true_2 by done.
    fold err. unfold bind at 1. rewrite Hreply.
    rewrite modify_bind, Hrid.
    change (_cleanupTriggerRecord (Some id) (bump set_failedTriggers w4))
      with (w5, Return tt).
    unfold _setTriggerTimeout. rewrite get_bind, Hrid.
    replace (rec_get id (table w5)) with (@None TriggerRecord)
      by (symmetry; apply rec_get_delete_eq).
    rewrite bool_decide_eq_false_2 by (by intros [? ?]).
    reflexivity. }
  split; [apply rec_get_delete_eq|].
  split; [by rewrite Hsent', Herr|].
  split; [exact Hrest|].
  split; [exact Hfailed|]. split; [exact Hnotimeout|].
  split; [exact Hdetached|].
  set (w6 := set_triggerRouter
               (set_detachedTimers
                  (delete (length (detachedTimers (triggerRouter w))))) w').
  assert (detachedTimers (triggerRouter w6)
          = detachedTimers (triggerRouter w)) as Hcleared.
  { unfold w6. cbn [triggerRouter set_triggerRouter detachedTimers
                      set_detachedTimers].
    rewrite Hdetached. rewrite delete_middle. by rewrite app_nil_r. }
  destruct (_timeoutTriggerRecord_router record w6)
    as (w'' & Hfire & Hrouter & Htold).
  exists w''. split.
  { unfold fire_detached. rewrite get_bind, Hdetached.
    rewrite list_lookup_middle by done. rewrite modify_bind.
    exact Hfire. }
  rewrite Hrouter, Hrid.
  split; [exact Hcleared|].
  split.
  { intros Hlive. rewrite (Htold c Hrc) by (by rewrite <- Hlive).
    change (sent c w6) with (sent c w'). rewrite Hsent', Hlive, Herr.
    rewrite <- app_assoc. cbn [app].
    unfold createTimeoutError, createError. rewrite Hmsg. cbn [message_id].
    change (tm_id (set_origin (reg_appId originApp) message))
      with (tm_id message). by rewrite Hmid. }
  split; [exact Hfailed|]. cbn. f_equal. exact Hnotimeout.
Qed.

Lemma call_to_oneself_is_answered_twice_witness :
  exists w' record,
    handleTriggerRequest 3 (Scenarios.trigger Scenarios.T1 "echo" None None)
      1 Scenarios.two_apps = (w', Return tt) /\
    rec_get Scenarios.T1 (table w') = None /\
    sent 1 w'
      = (if live 1 Scenarios.two_apps
         then sent 1 Scenarios.two_apps
              ++ [Error {| em_correlation_id := Some Scenarios.T1;
                           em_in_reply_to := None;
                           em_error :=
                             "Intra-process trigger calls not yet supported";
                           em_error_code :=
                             "SHORT_CIRCUIT_NOT_IMPLEMENTED" |}]
         else sent 1 Scenarios.two_apps) /\
    (forall c', c' <> 1 -> sent c' w' = sent c' Scenarios.two_apps) /\
    failedTriggers (stats (triggerRouter w'))
      = failedTriggers (stats (triggerRouter Scenarios.two_apps)) + 1 /\
    timeoutTriggers (stats (triggerRouter w'))
      = timeoutTriggers (stats (triggerRouter Scenarios.two_apps)) /\
    detachedTimers (triggerRouter w')
      = detachedTimers (triggerRouter Scenarios.two_apps) ++ [record] /\
    exists w'',
      fire_detached
        (length (detachedTimers (triggerRouter Scenarios.two_apps))) w'
        = (w'', Return tt) /\
      detachedTimers (triggerRouter w'')
        = detachedTimers (triggerRouter Scenarios.two_apps) /\
      (live 1 Scenarios.two_apps = true ->
       sent 1 w''
       = sent 1 Scenarios.two_apps
         ++ [Error {| em_correlation_id := Some Scenarios.T1;
                      em_in_reply_to := None;
                      em_error :=
                        "Intra-process trigger calls not yet supported";
                      em_error_code := "SHORT_CIRCUIT_NOT_IMPLEMENTED" |};
             Error {| em_correlation_id := Some Scenarios.T1;
                      em_in_reply_to := None;
                      em_error := "Request timeout";
                      em_error_code := "TIMEOUT" |}]) /\
      failedTriggers (stats (triggerRouter w''))
        = failedTriggers (stats (triggerRouter Scenarios.two_apps)) + 1 /\
      timeoutTriggers (stats (triggerRouter w''))
        = timeoutTriggers (stats (triggerRouter Scenarios.two_apps)) + 1.
Proof.
  eapply (call_to_oneself_is_answered_twice 3
            (Scenarios.trigger Scenarios.T1 "echo" None None) 1
            Scenarios.two_apps _ Scenarios.T1).
  - vm_compute. reflexivity.
  - vm_compute. reflexivity.
  - vm_compute. discriminate.
  - vm_compute. eauto.
  - vm_compute. eauto.
  - vm_compute. reflexivity.
  - vm_compute. reflexivity.
  - reflexivity.
  - discriminate.
  - vm_compute. reflexivity.
  - vm_compute. reflexivity.
  - vm_compute. reflexivity.
Defined.

End RouterAdminFacts.

(** ** Updating a registration *)

Module UpdateFacts.
Import CallFacts Protocol State Invariants TransportFacts JoinFacts
  DisconnectFacts HandshakeFacts.
Import Registry RegistryAdmin.

Lemma bound_connection_outside_membership app_id w w' :
  outside_membership w' = outside_membership w ->
  bound_connection app_id w' = bound_connection app_id w.
Proof.
  unfold outside_membership, bound_connection, getApp.
  by intros [= -> _ -> _].
Qed.

Lemma bound_connection_alter app_id g w :
  (forall r, reg_connection (g r) = reg_connection r) ->
  bound_connection app_id
    (set_appRegistry (set_apps (alter g app_id)) w)
  = bound_connection app_id w.
Proof.
  intros Hg. unfold bound_connection, getApp. cbn.
  rewrite lookup_alter_eq. destruct (apps (appRegistry w) !! app_id); [|done].
  cbn. by rewrite Hg.
Qed.

Lemma bound_connection_mappings app_id w w' :
  conns w' = conns w ->
  apps (appRegistry w') = apps (appRegistry w) ->
  connections (appRegistry w') = connections (appRegistry w) ->
  bound_connection app_id w' = bound_connection app_id w.
Proof.
  unfold bound_connection, getApp. by intros -> -> ->.
Qed.

Lemma preserves_bound_connection {A} app_id (c : M World A) :
  preserves (same outside_membership) c ->
  preserves (same (bound_connection app_id)) c.
Proof.
  intros Hc w w' o Hrun. apply bound_connection_outside_membership.
  exact (Hc _ _ _ Hrun).
Qed.

Lemma removeAppFromPool_frame app_id pool_name :
  preserves (same outside_membership)
    (Pools.removeAppFromPool app_id pool_name).
Proof. unfold Pools.removeAppFromPool. solve_preserves. Qed.

Lemma leave_all_frame app_id (ps : list string) :
  preserves (same outside_membership)
    (for_each ps (fun poolName =>
       Pools.removeAppFromPool app_id poolName ;;; ret tt)).
Proof.
  apply preserves_for_each; [exact _|]. intros p.
  apply preserves_bind; [exact _| |intros ?; apply preserves_ret; exact _].
  apply removeAppFromPool_frame.
Qed.

(** [updateApp] never moves an app to another connection. *)
Lemma updateApp_frame now app_id updates :
  preserves (same (bound_connection app_id)) (updateApp now app_id updates).
Proof.
  unfold updateApp, the_registration.
  solve_preserves.
  - by apply bound_connection_alter.
  - destruct (remove_mappings_frame app_id (reg_triggers a) s)
      as (? & _ & _ & _ & ? & ? & _).
    by apply bound_connection_mappings.
  - by apply bound_connection_alter.
  - destruct (add_mappings_frame app_id l s) as (? & _ & _ & _ & ? & ? & _).
    by apply bound_connection_mappings.
  - by apply bound_connection_alter.
  - apply preserves_bound_connection, removeAppFromPool_frame.
  - apply preserves_bound_connection, addAppToPool_frame.
  - intros w w' o. rewrite _persistAppRegistration_spec.
    by intros [= <- _].
Qed.

(** The outcome of a handler that answers with an error and rethrows. *)
Lemma rethrow_is_Throw {A} c message e w :
  exists w', (Transport.send c message ;;; @throw World A e) w = (w', Throw e).
Proof.
  destruct (send_spec c message w) as (w' & Hsend & _).
  exists w'. unfold bind. by rewrite Hsend.
Qed.

(** A full handshake of a registered app is an update of its
    registration. *)
Lemma processHandshake_update now m c w registration w' registration' :
  getApp (hs_app_id m) w = Some registration ->
  default [] (hs_triggers m) <> [] ->
  processHandshake now m c w = (w', Return registration') ->
  exists w1 w2 sent,
    updateApp now (hs_app_id m)
      {| upd_pools := Some (default ["default"%string] (hs_pools m));
         upd_triggers := Some (default [] (hs_triggers m));
         upd_metadata := Some (default ∅ (hs_metadata m)) |} w
      = (w1, Return registration') /\
    Transport.send c
      (createHandshakeAck m
         {| as_app_id := hs_app_id m; as_pools := reg_pools registration';
            as_triggers := reg_triggers registration';
            as_rehydrated := false |}) w1 = (w2, Return sent) /\
    w' = set_appRegistry (set_lastSeenApps (insert (hs_app_id m) now)) w2.
Proof.
  intros Hreg Hfull. unfold processHandshake, try_catch.
  match goal with
  | |- context [match ?body w with _ => _ end] =>
      destruct (body w) as [wb [r|e]] eqn:Hbody
  end.
  2: { destruct (@rethrow_is_Throw AppRegistration c
                   (createError (Handshake m) e "HANDSHAKE_ERROR") e wb)
         as (wt & ->). discriminate. }
  intros [= -> ->].
  apply bind_Return in Hbody as (w0 & u0 & Hvalid & Hbody).
  assert (w0 = w) as ->.
  { destruct (validateHandshake m); by inversion Hvalid. }
  cbv zeta in Hbody.
  apply bind_Return in Hbody as (w0 & u1 & [_ ->]%throw_if_Return & Hbody).
  apply bind_Return in Hbody as (w0 & u2 & [_ ->]%throw_if_Return & Hbody).
  apply bind_Return in Hbody as (w0 & u3 & [_ ->]%throw_if_Return & Hbody).
  rewrite (bool_decide_eq_false_2 _ Hfull) in Hbody.
  rewrite ret_bind in Hbody. cbn [andb] in Hbody.
  apply bind_Return in Hbody as (w1 & r & Hregister & Hbody).
  apply bind_Return in Hbody as (w2 & sent & Hsend & Hbody).
  rewrite modify_bind in Hbody. injection Hbody as <- <-.
  exists w1, w2, sent. split; [|done].
  unfold registerApp in Hregister.
  apply bind_Return in Hregister as (w0 & u4 & [_ ->]%throw_if_Return & H).
  apply bind_Return in H as (w0 & u5 & [_ ->]%throw_if_Return & H).
  apply bind_Return in H as (w0 & u6 & [_ ->]%throw_if_Return & H).
  rewrite get_bind, Hreg in H. exact H.
Qed.

Lemma _addTriggerMapping_keeps_absent appId t t' w :
  t' <> t ->
  appId ∉ default [] (triggerMappings (appRegistry w) !! t') ->
  appId ∉ default [] (triggerMappings
                        (appRegistry (_addTriggerMapping appId t w)) !! t').
Proof.
  intros Hne Habsent. unfold _addTriggerMapping. cbn.
  by rewrite lookup_insert_ne.
Qed.

Lemma add_mappings_keeps_absent appId triggers : forall w t,
  t ∉ triggers ->
  appId ∉ default [] (triggerMappings (appRegistry w) !! t) ->
  appId ∉ default [] (triggerMappings
                        (appRegistry (add_mappings appId triggers w)) !! t).
Proof.
  unfold add_mappings.
  induction triggers as [|t0 triggers IH]; intros w t Hnew Habsent; [done|].
  cbn [foldl]. apply not_elem_of_cons in Hnew as [Hne Hnew].
  apply IH; [done|]. by apply _addTriggerMapping_keeps_absent.
Qed.

(** What a returning [updateApp] leaves behind. *)
Lemma updateApp_Return now app_id updates w w' registration registration' :
  getApp app_id w = Some registration ->
  updateApp now app_id updates w = (w', Return registration') ->
  registration' = updated updates registration /\
  getApp app_id w' = Some registration' /\
  rehydrationCache (appRegistry w') !! app_id
    = Some (cache_of registration') /\
  (row_triggers <$> app_rows (persistence w') !! reg_appId registration
   = Some (reg_triggers registration')) /\
  forall triggers, upd_triggers updates = Some triggers ->
    (forall t, t ∈ triggers ->
       app_id ∈ default [] (triggerMappings (appRegistry w') !! t)) /\
    (forall t, t ∈ reg_triggers registration -> t ∉ triggers ->
       app_id ∉ default [] (triggerMappings (appRegistry w') !! t)).
Proof.
  intros Hreg H. unfold updateApp in H.
  apply bind_Return in H as (w0 & r0 & H0 & H).
  unfold the_registration in H0. rewrite get_bind, Hreg in H0.
  injection H0 as <- <-. cbv zeta in H.
  apply bind_Return in H as (w1 & u1 & H1 & H).
  apply bind_Return in H as (w2 & u2 & H2 & H).
  apply bind_Return in H as (w3 & u3 & H3 & H).
  apply bind_Return in H as (w4 & u4 & H4 & H).
  apply bind_Return in H as (w5 & r5 & H5 & H).
  rewrite modify_bind in H.
  apply bind_Return in H as (w6 & u6 & H6 & H). injection H as <- <-.
  set (r1 := match upd_pools updates with
             | Some pools => reg_with_pools pools registration
             | None => registration
             end).
  assert (getApp app_id w1 = Some r1 /\
          triggerMappings (appRegistry w1) = triggerMappings (appRegistry w))
    as [Hr1 Hm1].
  { unfold r1. destruct (upd_pools updates) as [pools|].
    - apply bind_Return in H1 as (w0 & u0 & [_ ->]%throw_if_Return & H1).
      injection H1 as <- _. unfold getApp in *. cbn.
      by rewrite lookup_alter_eq, Hreg.
    - by injection H1 as <- _. }
  set (r2 := match upd_triggers updates with
             | Some triggers => reg_with_triggers triggers r1
             | None => r1
             end).
  assert (getApp app_id w2 = Some r2 /\
          forall triggers, upd_triggers updates = Some triggers ->
            (forall t, t ∈ triggers ->
               app_id ∈ default [] (triggerMappings (appRegistry w2) !! t)) /\
            (forall t, t ∈ reg_triggers registration -> t ∉ triggers ->
               app_id ∉ default []
                          (triggerMappings (appRegistry w2) !! t)))
    as [Hr2 Hm2].
  { unfold r2. destruct (upd_triggers updates) as [triggers|].
    - apply bind_Return in H2 as (w0 & u0 & [_ ->]%throw_if_Return & H2).
      rewrite !modify_bind in H2. injection H2 as <- _.
      split.
      + unfold getApp.
        destruct (add_mappings_frame app_id triggers
                    (set_appRegistry
                       (set_apps (alter (reg_with_triggers triggers) app_id))
                       (remove_mappings app_id (reg_triggers registration)
                          w1))) as (_ & _ & _ & _ & -> & _).
        cbn.
        destruct (remove_mappings_frame app_id (reg_triggers registration) w1)
          as (_ & _ & _ & _ & -> & _).
        unfold getApp in Hr1. by rewrite lookup_alter_eq, Hr1.
      + intros T [= <-]. split.
        * intros t Ht. apply add_mappings_indexed. by left.
        * intros t Hold Hnew. apply add_mappings_keeps_absent; [done|].
          change (triggerMappings
                    (appRegistry
                       (set_appRegistry
                          (set_apps
                             (alter (reg_with_triggers triggers) app_id))
                          (remove_mappings app_id (reg_triggers registration)
                             w1))))
            with (triggerMappings
                    (appRegistry
                       (remove_mappings app_id (reg_triggers registration)
                          w1))).
          apply remove_mappings_absent. by left.
    - injection H2 as <- _. split; [done|]. by intros T. }
  assert (getApp app_id w3 = Some (updated updates registration) /\
          triggerMappings (appRegistry w3) = triggerMappings (appRegistry w2))
    as [Hr3 Hm3].
  { unfold updated. fold r1. cbv zeta. fold r2.
    destruct (upd_metadata updates) as [metadata|].
    - injection H3 as <- _. unfold getApp in *. cbn.
      by rewrite lookup_alter_eq, Hr2.
    - by injection H3 as <- _. }
  assert (appRegistry w4 = appRegistry w3 /\ persistence w4 = persistence w3)
    as [Hreg4 Hp4].
  { destruct (upd_pools updates) as [newPools|];
      [|by injection H4 as <- _].
    apply bind_Return in H4 as (wl & ul & Hleave & Hjoin).
    apply leave_all_frame in Hleave.
    unfold same, outside_membership in Hleave.
    apply join_all_frame in Hjoin. unfold same, outside_membership in Hjoin.
    injection Hleave as _ Hpl Hrl _.
    injection Hjoin as _ Hpj Hrj _. split; congruence. }
  unfold the_registration in H5. rewrite get_bind in H5.
  unfold getApp in H5 at 1. rewrite Hreg4 in H5.
  unfold getApp in Hr3. rewrite Hr3 in H5. injection H5 as <- <-.
  rewrite _persistAppRegistration_spec in H6. injection H6 as <- _.
  split; [done|]. split; [unfold getApp; cbn; by rewrite Hreg4|].
  split; [cbn; by rewrite lookup_insert_eq|].
  split.
  { cbn. replace (reg_appId (updated updates registration))
      with (reg_appId registration)
      by (unfold updated; by repeat case_match).
    by rewrite lookup_insert_eq. }
  intros triggers Htriggers. cbn. rewrite Hreg4, Hm3. by apply Hm2.
Qed.

(** [updateApp] with new triggers replaces the old ones everywhere: the
    registration, its cache entry and its stored row list the new
    triggers, the app is indexed under each of them, and it is no longer
    indexed under an old trigger that is not among the new ones. *)
Theorem updateApp_replaces_the_triggers
    now app_id updates triggers w w' registration registration' :
  getApp app_id w = Some registration ->
  upd_triggers updates = Some triggers ->
  updateApp now app_id updates w = (w', Return registration') ->
  reg_triggers registration' = triggers /\
  getApp app_id w' = Some registration' /\
  (forall t, t ∈ triggers ->
     app_id ∈ default [] (triggerMappings (appRegistry w') !! t)) /\
  (forall t, t ∈ reg_triggers registration -> t ∉ triggers ->
     app_id ∉ default [] (triggerMappings (appRegistry w') !! t)) /\
  ce_triggers <$> rehydrationCache (appRegistry w') !! app_id
    = Some triggers /\
  row_triggers <$> app_rows (persistence w') !! reg_appId registration
    = Some triggers.
Proof.
  intros Hreg Htriggers Hrun.
  destruct (updateApp_Return _ _ _ _ _ _ _ Hreg Hrun)
    as (Hnew & Hget & Hcache & Hrow & Hindex).
  assert (reg_triggers registration' = triggers) as Ht.
  { rewrite Hnew. unfold updated. rewrite Htriggers.
    by repeat case_match. }
  destruct (Hindex _ Htriggers) as [Hin Hout].
  split; [done|]. split; [done|]. split; [done|]. split; [done|].
  split; [by rewrite Hcache; cbn; rewrite Ht|]. by rewrite Hrow, Ht.
Qed.

Lemma updateApp_replaces_the_triggers_witness :
  let updates := {| upd_pools := None; upd_triggers := Some ["sum"%string];
                    upd_metadata := None |} in
  let w' := fst (updateApp 9 "A" updates Scenarios.two_apps) in
  exists registration',
    reg_triggers registration' = ["sum"%string] /\
    getApp "A" w' = Some registration' /\
    (forall t, t ∈ ["sum"%string] ->
       "A"%string ∈ default [] (triggerMappings (appRegistry w') !! t)) /\
    (forall t, t ∈ ["echo"%string] -> t ∉ ["sum"%string] ->
       "A"%string ∉ default [] (triggerMappings (appRegistry w') !! t)) /\
    ce_triggers <$> rehydrationCache (appRegistry w') !! "A"%string
      = Some ["sum"%string] /\
    row_triggers <$> app_rows (persistence w') !! "A"%string
      = Some ["sum"%string].
Proof.
  eexists.
  apply (updateApp_replaces_the_triggers 9 "A"
           {| upd_pools := None; upd_triggers := Some ["sum"%string];
              upd_metadata := None |} ["sum"%string] Scenarios.two_apps
           (fst (updateApp 9 "A"
                   {| upd_pools := None; upd_triggers := Some ["sum"%string];
                      upd_metadata := None |} Scenarios.two_apps))
           {| reg_appId := "A"; reg_connection := Some 1;
              reg_pools := ["default"%string];
              reg_triggers := ["echo"%string]; reg_meta := ∅;
              reg_protocolVersion := Some "0.1.0"%string;
              reg_registered := 1; reg_rehydrated := false;
              reg_originalRegistration := None |}).
  - vm_compute. reflexivity.
  - reflexivity.
  - vm_compute. reflexivity.
Defined.

(** A handshake does not move a registered app.  When an app that is
    registered sends a full handshake on another connection, which is
    live and bound to no app, and the handshake returns, the new
    connection gets the [handshake_ack], but the registration keeps the
    connection it had and the new connection stays bound to no app:
    [getAppByConnection] finds nothing for it. *)
Theorem handshake_does_not_move_a_registered_app
    now m c w registration w' registration' :
  getApp (hs_app_id m) w = Some registration ->
  default [] (hs_triggers m) <> [] ->
  connections (appRegistry w) !! c = None ->
  live c w = true ->
  processHandshake now m c w = (w', Return registration') ->
  sent c w'
    = sent c w
      ++ [HandshakeAck (hs_id m)
            {| as_app_id := hs_app_id m;
               as_pools := default ["default"%string] (hs_pools m);
               as_triggers := default [] (hs_triggers m);
               as_rehydrated := false |}] /\
  reg_connection registration' = reg_connection registration /\
  getApp (hs_app_id m) w' = Some registration' /\
  getAppByConnection c w' = None /\
  connections (appRegistry w') = connections (appRegistry w).
Proof.
  intros Hreg Hfull Hfree Hlive Hrun.
  destruct (processHandshake_update _ _ _ _ _ _ _ Hreg Hfull Hrun)
    as (w1 & w2 & b & Hupdate & Hsend & ->).
  pose proof (updateApp_frame _ _ _ _ _ _ Hupdate) as Hframe.
  unfold same, bound_connection in Hframe.
  injection Hframe as Hconns Hindex Hconn.
  destruct (updateApp_Return _ _ _ _ _ _ _ Hreg Hupdate)
    as (Hnew & Hget & _).
  destruct (send_spec c
              (createHandshakeAck m
                 {| as_app_id := hs_app_id m;
                    as_pools := reg_pools registration';
                    as_triggers := reg_triggers registration';
                    as_rehydrated := false |}) w1)
    as (w2' & Hsend' & _ & _ & _ & Hr2 & _ & Hsent).
  rewrite Hsend in Hsend'. injection Hsend' as <- _.
  split.
  { change (sent c (set_appRegistry
                      (set_lastSeenApps (insert (hs_app_id m) now)) w2))
      with (sent c w2).
    rewrite Hsent, (RouterAdminFacts.live_same_conns _ _ _ Hconns), Hlive,
      (RouterAdminFacts.sent_same_conns _ _ _ Hconns).
    rewrite Hnew. reflexivity. }
  split.
  { rewrite Hget, Hreg in Hconn. by injection Hconn. }
  split; [unfold getApp in *; cbn; by rewrite Hr2|].
  split; [unfold getAppByConnection; cbn; by rewrite Hr2, Hindex, Hfree|].
  cbn. by rewrite Hr2.
Qed.

Lemma handshake_does_not_move_a_registered_app_witness :
  let m := Scenarios.handshake "h3" "A" ["default"%string]
             ["echo"%string; "sum"%string] in
  let w' := fst (processHandshake 5 m 3 Scenarios.A_registered) in
  exists registration',
    sent 3 w'
      = sent 3 Scenarios.A_registered
        ++ [HandshakeAck (hs_id m)
              {| as_app_id := hs_app_id m;
                 as_pools := default ["default"%string] (hs_pools m);
                 as_triggers := default [] (hs_triggers m);
                 as_rehydrated := false |}] /\
    reg_connection registration' = Some 1 /\
    getApp (hs_app_id m) w' = Some registration' /\
    getAppByConnection 3 w' = None /\
    connections (appRegistry w')
      = connections (appRegistry Scenarios.A_registered).
Proof.
  eexists.
  apply (handshake_does_not_move_a_registered_app 5
           (Scenarios.handshake "h3" "A" ["default"%string]
              ["echo"%string; "sum"%string]) 3 Scenarios.A_registered
           {| reg_appId := "A"; reg_connection := Some 1;
              reg_pools := ["default"%string];
              reg_triggers := ["echo"%string]; reg_meta := ∅;
              reg_protocolVersion := Some "0.1.0"%string;
              reg_registered := 1; reg_rehydrated := false;
              reg_originalRegistration := None |}
           (fst (processHandshake 5
                   (Scenarios.handshake "h3" "A" ["default"%string]
                      ["echo"%string; "sum"%string]) 3
                   Scenarios.A_registered))).
  - vm_compute. reflexivity.
  - discriminate.
  - vm_compute. reflexivity.
  - vm_compute. reflexivity.
  - vm_compute. reflexivity.
Defined.

End UpdateFacts.
